(** * FluidGrid: a shallow embedding of the stable-fluids solver

    The numerical core of [AFluidGrid] (FluidGrid.cpp): grid indexing,
    [SetBoundary], [LinearSolve], [Diffuse], [Project], [Advect] and
    [StepSimulation].

    Layout of the development
    - [Scalar]: the arithmetic the solver uses on cell values.  The
      solver is written once over this interface and instantiated at
      IEEE binary32 ([spec_float] with precision 24, the C++ [float])
      and at the exact rationals [Qc].
    - [TArray<float>] is a [list F]; [operator[]] range-checks, so reads
      and writes live in the [option] monad and an out-of-range access
      is [None].
    - [for] loops over [int32] counters are [for_range].
    - Each routine takes the grid side [N] (the member [Size]) first. *)

From Stdlib Require Import ZArith Lia QArith Qcanon Qround.
From Stdlib Require Import Floats.SpecFloat.
From stdpp Require Import base option list numbers relations sorting.

Open Scope Z_scope.

(** ** Scalars *)

(** The operations of C++ [float] that the solver uses.  [of_int] is the
    implicit [int32 -> float] conversion, [fltb] is [operator<] and
    [FloorToInt] is [FMath::FloorToInt]. *)
Class Scalar (F : Type) := {
  of_int : Z -> F;
  fadd : F -> F -> F;
  fsub : F -> F -> F;
  fmul : F -> F -> F;
  fdiv : F -> F -> F;
  fneg : F -> F;
  fltb : F -> F -> bool;
  FloorToInt : F -> Z
}.

(** A decimal literal [n/d] of the source ([0.5f] is [flit 1 2]): both
    operands are exact and the quotient is rounded once, which is how a
    compiler rounds the literal. *)
Definition flit `{Scalar F} (n d : Z) : F := fdiv (of_int n) (of_int d).

(** [FMath::Clamp(X, Min, Max)] of the engine:
    [X < Min ? Min : X < Max ? X : Max]. *)
Definition Clamp `{Scalar F} (x lo hi : F) : F :=
  if fltb x lo then lo else if fltb x hi then x else hi.

(** *** IEEE binary32 *)

Module B32.
Definition prec : Z := 24.
Definition emax : Z := 128.

Definition t := spec_float.

Definition of_Z (z : Z) : t := binary_normalize prec emax z 0 false.

(** Floor of the value [(-1)^s * m * 2^e].  NaN and the infinities have
    no integer floor; [Advect] only takes the floor of a clamped
    coordinate, which is finite. *)
Definition floor (x : t) : Z :=
  match x with
  | S754_finite s m e =>
      let v := cond_Zopp s (Zpos m) in
      if 0 <=? e then v * 2 ^ e else v / 2 ^ (- e)
  | _ => 0
  end.

Definition valid (x : t) : bool := valid_binary prec emax x.
End B32.

#[export] Instance binary32 : Scalar B32.t := {|
  of_int := B32.of_Z;
  fadd := SFadd B32.prec B32.emax;
  fsub := SFsub B32.prec B32.emax;
  fmul := SFmul B32.prec B32.emax;
  fdiv := SFdiv B32.prec B32.emax;
  fneg := SFopp;
  fltb := SFltb;
  FloorToInt := B32.floor
|}.

(** *** Exact rationals *)

#[export] Instance exact : Scalar Qc := {|
  of_int := fun z => Q2Qc (inject_Z z);
  fadd := Qcplus;
  fsub := Qcminus;
  fmul := Qcmult;
  fdiv := Qcdiv;
  fneg := Qcopp;
  fltb := fun x y => match (x ?= y)%Qc with Lt => true | _ => false end;
  FloorToInt := fun x => Qfloor (this x)
|}.

Arguments of_int : simpl never.
Arguments fadd : simpl never.
Arguments fsub : simpl never.
Arguments fmul : simpl never.
Arguments fdiv : simpl never.
Arguments fneg : simpl never.
Arguments fltb : simpl never.
Arguments FloorToInt : simpl never.

(** ** Arrays and loops *)

Section Arrays.
Context {A : Type}.

(** [x[k]] as an rvalue. *)
Definition rd (x : list A) (k : Z) : option A :=
  if k <? 0 then None else x !! Z.to_nat k.

(** [x[k] = v]. *)
Definition wr (x : list A) (k : Z) (v : A) : option (list A) :=
  if (0 <=? k) && (k <? Z.of_nat (length x))
  then Some (<[Z.to_nat k := v]> x) else None.
End Arrays.

(** [for (int32 i = lo; i < hi; i++) body], threading the state [st]. *)
Fixpoint for_loop {S : Type} (n : nat) (i : Z)
    (body : Z -> S -> option S) (st : S) : option S :=
  match n with
  | O => Some st
  | S n' => st' ← body i st; for_loop n' (i + 1) body st'
  end.

Definition for_range {S : Type} (lo hi : Z)
    (body : Z -> S -> option S) (st : S) : option S :=
  for_loop (Z.to_nat (hi - lo)) lo body st.

(** ** The solver *)

Section Solver.
Context {F : Type} `{Scalar F}.

Definition field := list F.

(** Grid side, the member [Size]. *)
Variable N : Z.

(** Modelled from the spec: [IX] is declared in FluidGrid.h and its
    body is not among the sources; the spec gives the linear offset
    [x + y*N]. *)
Definition IX (x y : Z) : Z := x + y * N.

(** [SetBoundary]: FluidGrid.cpp, lines 283-300. *)
Definition SetBoundary (b : Z) (x : field) : option field :=
  x ← for_range 1 (N - 1) (fun i x =>
         v ← rd x (IX i 1);
         x ← wr x (IX i 0) (if b =? 2 then fneg v else v);
         v ← rd x (IX i (N - 2));
         wr x (IX i (N - 1)) (if b =? 2 then fneg v else v)) x;
  x ← for_range 1 (N - 1) (fun j x =>
         v ← rd x (IX 1 j);
         x ← wr x (IX 0 j) (if b =? 1 then fneg v else v);
         v ← (if b =? 1 then fneg <$> rd x (IX 1 j)
              else rd x (IX (N - 2) j));
         wr x (IX (N - 1) j) v) x;
  p ← rd x (IX 1 0); q ← rd x (IX 0 1);
  x ← wr x (IX 0 0) (fmul (flit 1 2) (fadd p q));
  p ← rd x (IX 1 (N - 1)); q ← rd x (IX 0 (N - 2));
  x ← wr x (IX 0 (N - 1)) (fmul (flit 1 2) (fadd p q));
  p ← rd x (IX (N - 2) 0); q ← rd x (IX (N - 1) 1);
  x ← wr x (IX (N - 1) 0) (fmul (flit 1 2) (fadd p q));
  p ← rd x (IX (N - 2) (N - 1)); q ← rd x (IX (N - 1) (N - 2));
  wr x (IX (N - 1) (N - 1)) (fmul (flit 1 2) (fadd p q)).

(** The diagnostic loops at the end of [LinearSolve] and [Diffuse]
    (lines 277-280 and 194-197) format [x[i]] for
    [i < FMath::Min(Size, 10)]: they only read. *)
Definition log_reads (x : field) : option field :=
  for_range 0 (Z.min N 10) (fun i x => _ ← rd x i; Some x) x.

(** One in-place relaxation of cell [(i, j)], line 271. *)
Definition relax (x0 : field) (a cRecip : F) (i j : Z) (x : field)
    : option field :=
  s ← rd x0 (IX i j);
  e ← rd x (IX (i + 1) j);
  w ← rd x (IX (i - 1) j);
  n ← rd x (IX i (j + 1));
  u ← rd x (IX i (j - 1));
  wr x (IX i j)
     (fmul (fadd s (fmul a (fadd (fadd (fadd e w) n) u))) cRecip).

(** [LinearSolve]: lines 262-281. *)
Definition LinearSolve (b : Z) (x x0 : field) (a c : F) : option field :=
  let cRecip := fdiv (of_int 1) c in
  x ← for_range 0 N (fun _ x =>
         x ← for_range 1 (N - 1) (fun j x =>
                for_range 1 (N - 1) (fun i x =>
                  relax x0 a cRecip i j x) x) x;
         SetBoundary b x) x;
  log_reads x.

(** [Diffuse]: lines 188-198. *)
Definition Diffuse (b : Z) (x x0 : field) (diff dt : F) : option field :=
  let a := fmul (fmul (fmul dt diff) (of_int (N - 2))) (of_int (N - 2)) in
  x ← LinearSolve b x x0 a (fadd (of_int 1) (fmul (of_int 4) a));
  log_reads x.

(** The back-traced, clamped sample position of lines 211-220 along
    one axis: the clamped coordinate and the two stencil indices. *)
Definition backtrace (i : Z) (dtx v : F) : F :=
  Clamp (fsub (of_int i) (fmul dtx v))
        (flit 1 2) (fadd (of_int (N - 2)) (flit 1 2)).

(** The body of the double loop of [Advect], lines 211-227.  The
    arrays [d0], [velocX] and [velocY] are only read; at every call
    site they are distinct from the written array [d]. *)
Definition advect_cell (d0 velocX velocY : field) (dtx dty : F)
    (i j : Z) (d : field) : option field :=
  vx ← rd velocX (IX i j);
  vy ← rd velocY (IX i j);
  let x := backtrace i dtx vx in
  let y := backtrace j dty vy in
  let i0 := FloorToInt x in
  let i1 := i0 + 1 in
  let j0 := FloorToInt y in
  let j1 := j0 + 1 in
  let s1 := fsub x (of_int i0) in
  let s0 := fsub (of_int 1) s1 in
  let t1 := fsub y (of_int j0) in
  let t0 := fsub (of_int 1) t1 in
  v00 ← rd d0 (IX i0 j0);
  v01 ← rd d0 (IX i0 j1);
  v10 ← rd d0 (IX i1 j0);
  v11 ← rd d0 (IX i1 j1);
  wr d (IX i j)
     (fadd (fmul s0 (fadd (fmul t0 v00) (fmul t1 v01)))
           (fmul s1 (fadd (fmul t0 v10) (fmul t1 v11)))).

(** [Advect]: lines 200-232. *)
Definition Advect (b : Z) (d d0 velocX velocY : field) (dt : F)
    : option field :=
  let dtx := fmul dt (of_int (N - 2)) in
  let dty := fmul dt (of_int (N - 2)) in
  d ← for_range 1 (N - 1) (fun j d =>
         for_range 1 (N - 1) (fun i d =>
           advect_cell d0 velocX velocY dtx dty i j d) d) d;
  SetBoundary b d.

(** The body of the first double loop of [Project], lines 240-241. *)
Definition divergence_cell (velocX velocY : field) (i j : Z)
    (st : field * field) : option (field * field) :=
  let '(p, div) := st in
  e ← rd velocX (IX (i + 1) j);
  w ← rd velocX (IX (i - 1) j);
  n ← rd velocY (IX i (j + 1));
  s ← rd velocY (IX i (j - 1));
  div ← wr div (IX i j)
        (fdiv (fmul (fneg (flit 1 2)) (fsub (fadd (fsub e w) n) s))
              (of_int N));
  p ← wr p (IX i j) (of_int 0);
  Some (p, div).

(** The body of the second double loop of [Project], lines 253-254. *)
Definition gradient_cell (p : field) (i j : Z)
    (st : field * field) : option (field * field) :=
  let '(velocX, velocY) := st in
  u ← rd velocX (IX i j);
  e ← rd p (IX (i + 1) j);
  w ← rd p (IX (i - 1) j);
  velocX ← wr velocX (IX i j)
           (fsub u (fmul (fmul (flit 1 2) (fsub e w)) (of_int N)));
  v ← rd velocY (IX i j);
  n ← rd p (IX i (j + 1));
  s ← rd p (IX i (j - 1));
  velocY ← wr velocY (IX i j)
           (fsub v (fmul (fmul (flit 1 2) (fsub n s)) (of_int N)));
  Some (velocX, velocY).

(** [Project]: lines 234-260.  The four arrays are passed by
    reference and all four are written; the result is their final
    contents, in parameter order. *)
Definition Project (velocX velocY p div : field)
    : option (field * field * field * field) :=
  '(p, div) ← for_range 1 (N - 1) (fun j st =>
                 for_range 1 (N - 1) (fun i st =>
                   divergence_cell velocX velocY i j st) st) (p, div);
  div ← SetBoundary 0 div;
  p ← SetBoundary 0 p;
  p ← LinearSolve 0 p div (of_int 1) (of_int 6);
  '(velocX, velocY) ← for_range 1 (N - 1) (fun j st =>
                         for_range 1 (N - 1) (fun i st =>
                           gradient_cell p i j st) st) (velocX, velocY);
  velocX ← SetBoundary 1 velocX;
  velocY ← SetBoundary 2 velocY;
  Some (velocX, velocY, p, div).

End Solver.

(** ** The actor's simulation state and the step *)

Section Step.
Context {F : Type} `{Scalar F}.

(** The members of [AFluidGrid] that the simulation reads or writes
    (FluidGrid.h). *)
Record FluidGrid := {
  Size : Z;
  Dt : F;
  Diffusion : F;
  Viscosity : F;
  Density : list F;
  Vx : list F;
  Vy : list F;
  Vz : list F
}.

Definition set_Density (s : FluidGrid) (d : list F) : FluidGrid :=
  {| Size := Size s; Dt := Dt s; Diffusion := Diffusion s;
     Viscosity := Viscosity s; Density := d; Vx := Vx s; Vy := Vy s;
     Vz := Vz s |}.

Definition set_velocity (s : FluidGrid) (vx vy : list F) : FluidGrid :=
  {| Size := Size s; Dt := Dt s; Diffusion := Diffusion s;
     Viscosity := Viscosity s; Density := Density s; Vx := vx; Vy := vy;
     Vz := Vz s |}.

(** The constructor's allocation, lines 17-21: [SetNumZeroed]. *)
Definition zeroed (n : Z) : list F := replicate (Z.to_nat (n * n)) (of_int 0).

(** [AddDensity]: lines 134-138 (the log line reads the cell back). *)
Definition AddDensity (s : FluidGrid) (x y : Z) (amount : F)
    : option FluidGrid :=
  let k := IX (Size s) x y in
  v ← rd (Density s) k;
  d ← wr (Density s) k (fadd v amount);
  _ ← rd d k;
  Some (set_Density s d).

(** [AddVelocity]: lines 140-145. *)
Definition AddVelocity (s : FluidGrid) (x y : Z) (amountX amountY : F)
    : option FluidGrid :=
  let index := IX (Size s) x y in
  u ← rd (Vx s) index;
  vx ← wr (Vx s) index (fadd u amountX);
  v ← rd (Vy s) index;
  vy ← wr (Vy s) index (fadd v amountY);
  Some (set_velocity s vx vy).

(** Lines 151-152: the injection every step starts with. *)
Definition inject (s : FluidGrid) : option FluidGrid :=
  let c := Z.quot (Size s) 2 in
  s ← AddDensity s c c (of_int 100);
  AddVelocity s c c (of_int 1) (of_int 0).

(** Lines 156-166: the snapshots, the two velocity diffusions and the
    first projection.  The result is the contents of
    [(Vx, Vy, Vx0, Vy0)] when line 169 is reached. *)
Definition velocity_before_advection (s : FluidGrid)
    : option (list F * list F * list F * list F) :=
  let n := Size s in
  let Vx0 := Vx s in
  let Vy0 := Vy s in
  vx ← Diffuse n 1 (Vx s) Vx0 (Viscosity s) (Dt s);
  vy ← Diffuse n 2 (Vy s) Vy0 (Viscosity s) (Dt s);
  Project n vx vy Vx0 Vy0.

(** Lines 156-180: everything after the injection. *)
Definition passes (s : FluidGrid) : option FluidGrid :=
  let n := Size s in
  let Density0 := Density s in
  _ ← rd (Density s) (IX n (Z.quot n 2) (Z.quot n 2));
  '(vx, vy, Vx0, Vy0) ← velocity_before_advection s;
  vx ← Advect n 1 vx Vx0 Vx0 Vy0 (Dt s);
  vy ← Advect n 2 vy Vy0 Vx0 Vy0 (Dt s);
  '(vx, vy, Vx0, Vy0) ← Project n vx vy Vx0 Vy0;
  d ← Diffuse n 0 (Density s) Density0 (Diffusion s) (Dt s);
  _ ← rd d (IX n (Z.quot n 2) (Z.quot n 2));
  d ← Advect n 0 d Density0 vx vy (Dt s);
  _ ← rd d (IX n (Z.quot n 2) (Z.quot n 2));
  Some (set_Density (set_velocity s vx vy) d).

(** [StepSimulation]: lines 147-186, without the render-target
    upload. *)
Definition StepSimulation (s : FluidGrid) : option FluidGrid :=
  s ← inject s; passes s.

(** [n] calls of [StepSimulation]. *)
Fixpoint steps (n : nat) (s : FluidGrid) : option FluidGrid :=
  match n with
  | O => Some s
  | S n' => s ← StepSimulation s; steps n' s
  end.

(** [n] rounds of the passes alone, without the injection. *)
Fixpoint passes_iter (n : nat) (s : FluidGrid) : option FluidGrid :=
  match n with
  | O => Some s
  | S n' => s ← passes s; passes_iter n' s
  end.

(** The solver as constructed: zeroed fields of side [n]. *)
Definition new_grid (n : Z) (dt diff visc : F) : FluidGrid :=
  {| Size := n; Dt := dt; Diffusion := diff; Viscosity := visc;
     Density := zeroed n; Vx := zeroed n; Vy := zeroed n; Vz := zeroed n |}.
End Step.

(** ** Grids: arrays seen cell by cell *)

Section GridView.
Context {F : Type} `{Scalar F}.
Variable N : Z.

Definition grid := Z -> Z -> F.

(** [x] is a field of side [N] whose cell [(i, j)] holds [g i j]. *)
Definition repr (x : field) (g : grid) : Prop :=
  length x = Z.to_nat (N * N) /\
  forall i j, 0 <= i < N -> 0 <= j < N -> rd x (IX N i j) = Some (g i j).

(** The grid with cell [(i, j)] overwritten. *)
Definition upd (g : grid) (i j : Z) (v : F) : grid :=
  fun a c => if decide (a = i /\ c = j) then v else g a c.

(** [b == k ? -v : v]. *)
Definition flip (b k : Z) (v : F) : F := if b =? k then fneg v else v.

(** [0.5f * (p + q)]. *)
Definition avg (p q : F) : F := fmul (flit 1 2) (fadd p q).

(** The grid after the iterations [1 .. n-1] of the first loop. *)
Definition rows_upto (b : Z) (g : grid) (n : Z) : grid := fun a c =>
  if decide (1 <= a < n /\ c = 0) then flip b 2 (g a 1)
  else if decide (1 <= a < n /\ c = N - 1) then flip b 2 (g a (N - 2))
  else g a c.

(** The grid after the iterations [1 .. n-1] of the second loop. *)
Definition cols_upto (b : Z) (g : grid) (n : Z) : grid := fun a c =>
  if decide (1 <= c < n /\ a = 0) then flip b 1 (g 1 c)
  else if decide (1 <= c < n /\ a = N - 1)
       then (if b =? 1 then fneg (g 1 c) else g (N - 2) c)
  else g a c.

(** The four corner assignments, in source order. *)
Definition corners (e : grid) : grid :=
  let e1 := upd e 0 0 (avg (e 1 0) (e 0 1)) in
  let e2 := upd e1 0 (N - 1) (avg (e1 1 (N - 1)) (e1 0 (N - 2))) in
  let e3 := upd e2 (N - 1) 0 (avg (e2 (N - 2) 0) (e2 (N - 1) 1)) in
  upd e3 (N - 1) (N - 1) (avg (e3 (N - 2) (N - 1)) (e3 (N - 1) (N - 2))).

(** The grid [SetBoundary] leaves behind. *)
Definition boundary (b : Z) (g : grid) : grid :=
  corners (cols_upto b (rows_upto b g (N - 1)) (N - 1)).

End GridView.

Arguments IX : simpl never.
Arguments zeroed : simpl never.
Arguments SetBoundary : simpl never.
Arguments LinearSolve : simpl never.
Arguments Diffuse : simpl never.
Arguments Advect : simpl never.
Arguments Project : simpl never.

(** ** The routines as the specification words them

    Each definition below follows the text of the specification and is
    compared with the routine of the same name above. *)

(** A pass over a list of cells, threading the state. *)
Fixpoint foldM {S A : Type} (f : A -> S -> option S) (l : list A) (st : S)
    : option S :=
  match l with
  | [] => Some st
  | a :: l' => st' ← f a st; foldM f l' st'
  end.

(** The interior cells [(i, j)], [1 <= i, j <= N-2], row by row. *)
Definition interior (N : Z) : list (Z * Z) :=
  j ← seqZ 1 (N - 2); i ← seqZ 1 (N - 2); [(i, j)].

(** Row-major order of the cells: [(a, c)] is passed before [(i, j)]. *)
Definition before (p q : Z * Z) : Prop :=
  p.2 < q.2 \/ (p.2 = q.2 /\ p.1 < q.1).

Section Specification.
Context {F : Type} `{Scalar F}.
Variable N : Z.

(** Modelled from the spec: the last operation of the cell update as
    the specification writes it, "/ c". *)
Definition divide_by (c v : F) : F := fdiv v c.

(** The last operation of the cell update as line 271 has it,
    "* cRecip", with [cRecip = 1.0f / c] of line 264. *)
Definition times_reciprocal (c v : F) : F := fmul v (fdiv (of_int 1) c).

(** Modelled from the spec: the value of the relaxation formula at cell
    [(i, j)], on grids: [g0] is the source, [g] the field before the
    sweep and [h] the field after it; [scale] is the last operation of
    the formula. *)
Definition relaxed (scale : F -> F) (a : F) (g0 g h : Z -> Z -> F)
    (i j : Z) : F :=
  scale (fadd (g0 i j)
           (fmul a (fadd (fadd (fadd (g (i + 1) j) (h (i - 1) j)) (g i (j + 1)))
                         (h i (j - 1))))).

(** Modelled from the spec: one full sweep over the interior, "each cell
    update computing x[i,j] = (x0[i,j] + a*(x[i+1,j] + x[i-1,j] +
    x[i,j+1] + x[i,j-1])) / c in place so that later cells in the same
    sweep see already-updated neighbors".  [y] is the field after the
    sweep of [x]: the cells to the west and south of [(i, j)] were passed
    before it and are read from [y], the cells to the east and north
    from [x]; the boundary cells are not touched.  The specification's
    formula is [scale = divide_by c]. *)
Definition gauss_seidel_pass (scale : F -> F) (x0 : list F) (a : F)
    (x y : list F) : Prop :=
  length y = length x /\
  (forall i j, 0 <= i < N -> 0 <= j < N ->
     ~ (1 <= i <= N - 2 /\ 1 <= j <= N - 2) ->
     rd y (IX N i j) = rd x (IX N i j)) /\
  (forall i j, 1 <= i <= N - 2 -> 1 <= j <= N - 2 ->
     exists s e w n u,
       rd x0 (IX N i j) = Some s /\
       rd x (IX N (i + 1) j) = Some e /\ rd y (IX N (i - 1) j) = Some w /\
       rd x (IX N i (j + 1)) = Some n /\ rd y (IX N i (j - 1)) = Some u /\
       rd y (IX N i j)
       = Some (scale (fadd s (fmul a (fadd (fadd (fadd e w) n) u))))).

(** Modelled from the spec: "After every full interior sweep, re-applies
    the Boundary Enforcer for the given field kind". *)
Definition gauss_seidel_sweep (scale : F -> F) (b : Z) (x0 : list F) (a : F)
    (x x' : list F) : Prop :=
  exists y, gauss_seidel_pass scale x0 a x y /\ SetBoundary N b y = Some x'.

(** Modelled from the spec: the cell update of the sweep as an
    assignment to [x[IX(i, j)]]. *)
Definition update_cell (scale : F -> F) (x0 : list F) (a : F) (i j : Z)
    (x : list F) : option (list F) :=
  s ← rd x0 (IX N i j);
  e ← rd x (IX N (i + 1) j);
  w ← rd x (IX N (i - 1) j);
  n ← rd x (IX N i (j + 1));
  u ← rd x (IX N i (j - 1));
  wr x (IX N i j) (scale (fadd s (fmul a (fadd (fadd (fadd e w) n) u)))).

(** Modelled from the spec: "a fixed number of iterations equal to the
    grid side N", each one sweep over the interior, row by row, and one
    call of the Boundary Enforcer. *)
Definition solve_by (scale : F -> F) (b : Z) (x x0 : list F) (a : F)
    : option (list F) :=
  for_range 0 N (fun _ x =>
    x ← for_range 1 (N - 1) (fun j x =>
           for_range 1 (N - 1) (fun i x => update_cell scale x0 a i j x) x) x;
    SetBoundary N b x) x.

(** Modelled from the spec: the Linear Relaxation Solver with the
    formula as written, dividing by [c]. *)
Definition LinearSolve_spec (b : Z) (x x0 : list F) (a c : F)
    : option (list F) :=
  solve_by (divide_by c) b x x0 a.

(** Modelled from the spec: "computes a = dt * diff * (N-2)^2 and
    invokes the Linear Relaxation Solver with (a, 1+4a)".  The square is
    the factor [N-2] taken twice: the product is evaluated factor by
    factor from the left, as every product of floats is, and each
    integer factor is converted to a float where it is multiplied in. *)
Definition Diffuse_spec (b : Z) (x x0 : list F) (diff dt : F)
    : option (list F) :=
  let a := fmul (fmul (fmul dt diff) (of_int (N - 2))) (of_int (N - 2)) in
  LinearSolve N b x x0 a (fadd (of_int 1) (fmul (of_int 4) a)).

(** Modelled from the spec: "div[i,j] = -0.5 * (Vx[i+1,j]-Vx[i-1,j] +
    Vy[i,j+1]-Vy[i,j-1]) / N". *)
Definition set_divergence (velocX velocY : list F) (ij : Z * Z)
    (div : list F) : option (list F) :=
  let '(i, j) := ij in
  e ← rd velocX (IX N (i + 1) j);
  w ← rd velocX (IX N (i - 1) j);
  n ← rd velocY (IX N i (j + 1));
  s ← rd velocY (IX N i (j - 1));
  wr div (IX N i j)
     (fdiv (fmul (fneg (flit 1 2)) (fsub (fadd (fsub e w) n) s)) (of_int N)).

(** Modelled from the spec: "zero-initialize p". *)
Definition set_zero (ij : Z * Z) (p : list F) : option (list F) :=
  let '(i, j) := ij in wr p (IX N i j) (of_int 0).

(** Modelled from the spec: "Vx[i,j] -= 0.5*(p[i+1,j]-p[i-1,j])*N". *)
Definition subtract_gradient_x (p : list F) (ij : Z * Z) (velocX : list F)
    : option (list F) :=
  let '(i, j) := ij in
  u ← rd velocX (IX N i j);
  e ← rd p (IX N (i + 1) j);
  w ← rd p (IX N (i - 1) j);
  wr velocX (IX N i j)
     (fsub u (fmul (fmul (flit 1 2) (fsub e w)) (of_int N))).

(** Modelled from the spec: "Vy[i,j] -= 0.5*(p[i,j+1]-p[i,j-1])*N". *)
Definition subtract_gradient_y (p : list F) (ij : Z * Z) (velocY : list F)
    : option (list F) :=
  let '(i, j) := ij in
  v ← rd velocY (IX N i j);
  n ← rd p (IX N i (j + 1));
  s ← rd p (IX N i (j - 1));
  wr velocY (IX N i j)
     (fsub v (fmul (fmul (flit 1 2) (fsub n s)) (of_int N))).

(** Modelled from the spec: the five steps of the Projection Step, each
    a pass of its own. *)
Definition Project_spec (velocX velocY p div : list F)
    : option (list F * list F * list F * list F) :=
  div ← foldM (set_divergence velocX velocY) (interior N) div;
  p ← foldM set_zero (interior N) p;
  div ← SetBoundary N 0 div;
  p ← SetBoundary N 0 p;
  p ← LinearSolve N 0 p div (of_int 1) (of_int 6);
  velocX ← foldM (subtract_gradient_x p) (interior N) velocX;
  velocY ← foldM (subtract_gradient_y p) (interior N) velocY;
  velocX ← SetBoundary N 1 velocX;
  velocY ← SetBoundary N 2 velocY;
  Some (velocX, velocY, p, div).
End Specification.

(** ** Statements about binary32 values *)

(** [x] is a valid, positive, finite binary32 and its value is
    [V * 2^-149] ([2^-149] is the least positive binary32, so every finite
    value is such a multiple). *)
Definition is_pos_float (x : B32.t) (V : Z) : Prop :=
  exists m e, x = S754_finite false m e /\ B32.valid x = true /\
              Zpos m * 2 ^ (e + 149) = V.

(** [x] lies between the clamp bounds [0.5f] and [Nfloat + 0.5f] of
    [Advect], as binary32 comparisons. *)
Definition in_clamp_range (N : Z) (x : B32.t) : Prop :=
  SFleb (flit (F:=B32.t) 1 2) x = true /\
  SFleb x (fadd (F:=B32.t) (of_int (N - 2)) (flit 1 2)) = true.

(** Zero of either sign. *)
Definition is_zero (x : B32.t) : bool :=
  match x with S754_zero _ => true | _ => false end.

(** Neither an infinity nor a NaN. *)
Definition is_finite (x : B32.t) : bool :=
  match x with S754_zero _ | S754_finite _ _ _ => true | _ => false end.

(** A finite value of magnitude below [2^k]. *)
Definition below (k : Z) (x : B32.t) : Prop :=
  match x with
  | S754_zero _ => True
  | S754_finite _ m e => Zpos (digits2_pos m) + e <= k
  | _ => False
  end.

(** A well-formed finite value other than the negative zero. *)
Definition regular (x : B32.t) : bool :=
  match x with
  | S754_zero s => negb s
  | S754_finite _ _ _ => B32.valid x
  | _ => false
  end.

(** ** Statements about fields *)

Section Statements.
Context {F : Type} `{Scalar F}.

(** Cell [k] of [x] holds [0.5f * (x[k1] + x[k2])]. *)
Definition is_avg_of (x : list F) (k k1 k2 : Z) : Prop :=
  exists p q, rd x k1 = Some p /\ rd x k2 = Some q /\
              rd x k = Some (fmul (flit 1 2) (fadd p q)).

(** Cell [k] of [x] holds [-x[k']]. *)
Definition is_neg_of (x : list F) (k k' : Z) : Prop :=
  exists v, rd x k' = Some v /\ rd x k = Some (fneg v).

(** Cell [k] of [x] holds [x[k']]. *)
Definition is_copy_of (x : list F) (k k' : Z) : Prop :=
  exists v, rd x k' = Some v /\ rd x k = Some v.
End Statements.

(** ** Classes of fields *)

(** [x] is a field of side [N] whose cells all satisfy [P]. *)
Definition well_formed {F : Type} (P : F -> Prop) (N : Z) (x : list F) : Prop :=
  length x = Z.to_nat (N * N) /\ Forall P x.

(** Fields of well-formed binary32 values, of zeros, and of finite values
    other than the negative zero. *)
Abbreviation valid_field := (well_formed (fun v : B32.t => B32.valid v = true)).
Abbreviation zero_field := (well_formed (fun v : B32.t => is_zero v = true)).
Abbreviation regular_field := (well_formed (fun v : B32.t => regular v = true)).

(** The state in which the density stays zero: fields of side [N], a
    zero density, and binary32 values for the step [Dt], the viscosity and
    the velocities.  Nothing is asked of [Diffusion]. *)
Definition still_density (N : Z) (s : FluidGrid (F:=B32.t)) : Prop :=
  Size s = N /\
  B32.valid (Dt s) = true /\ B32.valid (Viscosity s) = true /\
  valid_field N (Vx s) /\ valid_field N (Vy s) /\ zero_field N (Density s).

(** ** Sample inputs *)

(** The 3x3 and 4x4 binary32 fields holding 1, 2, 3, ... in storage
    order. *)
Definition sample3 : list B32.t := map of_int [1; 2; 3; 4; 5; 6; 7; 8; 9].

Definition sample4 : list B32.t :=
  map of_int [1; 2; 3; 4; 5; 6; 7; 8; 9; 10; 11; 12; 13; 14; 15; 16].

(** The actor as constructed with the header's defaults
    ([Dt = 10.1f], [Diffusion = 1], [Viscosity = 1]) on a 4x4 grid, in
    binary32. *)
Definition grid4 : FluidGrid (F:=B32.t) :=
  new_grid 4 (flit 101 10) (of_int 1) (of_int 1).

(** A 3x3 binary32 field that is zero except for the corner cell
    [(0, 0)]. *)
Definition corner3 : list B32.t := map of_int [1; 0; 0; 0; 0; 0; 0; 0; 0].

(** The field [sample3] over the exact rationals. *)
Definition sample3q : list Qc := map of_int [1; 2; 3; 4; 5; 6; 7; 8; 9].

(** A 4x4 binary32 solver with the header's parameters, no density and a
    non-zero velocity. *)
Definition stirred4 : FluidGrid (F:=B32.t) :=
  {| Size := 4; Dt := flit 101 10; Diffusion := of_int 1;
     Viscosity := of_int 1; Density := zeroed 4; Vx := sample4;
     Vy := sample4; Vz := zeroed 4 |}.

(** ** The actor around the solver *)

(** [FMath::Clamp] at [int32], as [Clamp] at [float]:
    [X < Min ? Min : X < Max ? X : Max]. *)
Definition Clamp_int32 (X Min Max : Z) : Z :=
  if X <? Min then Min else if X <? Max then X else Max.

(** [FLinearColor]: four [float] channels. *)
Module FLinearColor.
Record t {F : Type} := mk { R : F; G : F; B : F; A : F }.
Arguments t : clear implicits.
End FLinearColor.

(** What one call of [UpdateRenderTarget] hands to the render thread:
    nothing when [RenderTarget] is null, else the array [ColorData].  A
    cell of [ColorData] that was never assigned is [None]
    ([TArray::SetNum] runs the default constructor of [FLinearColor], which
    leaves the channels unset). *)
Inductive upload {F : Type} : Type :=
  | NoTarget
  | Uploaded (ColorData : list (option (FLinearColor.t F))).
Arguments upload : clear implicits.

Section Actor.
Context {F : Type} `{Scalar F}.

Definition set_Diffusion (s : FluidGrid) (diff : F) : FluidGrid :=
  {| Size := Size s; Dt := Dt s; Diffusion := diff;
     Viscosity := Viscosity s; Density := Density s; Vx := Vx s; Vy := Vy s;
     Vz := Vz s |}.

(** [HandleInput]: lines 73-88.  [click] is what the player controller
    reports: [None] when the left mouse button is up, else the [int32]
    casts of [WorldPosition.X] and [WorldPosition.Y]. *)
Definition HandleInput (click : option (Z * Z)) (s : FluidGrid)
    : option FluidGrid :=
  match click with
  | None => Some s
  | Some (X, Y) =>
      let GridX := Clamp_int32 X 0 (Size s - 1) in
      let GridY := Clamp_int32 Y 0 (Size s - 1) in
      AddDensity s GridX GridY (of_int 100)
  end.

(** The colour of one cell, lines 107-113. *)
Definition cell_color (Value : F) : FLinearColor.t F :=
  let Intensity := Clamp Value (of_int 0) (of_int 1) in
  {| FLinearColor.R := Intensity;
     FLinearColor.G := of_int 0;
     FLinearColor.B := fsub (of_int 1) Intensity;
     FLinearColor.A := of_int 1 |}.

(** [UpdateRenderTarget]: lines 90-132, up to the render command, whose
    payload is the result.  [RenderTarget] tells whether the member of
    that name is set. *)
Definition UpdateRenderTarget (RenderTarget : bool) (s : FluidGrid)
    : option (upload F) :=
  if RenderTarget then
    let n := Size s in
    ColorData ← for_range 0 n (fun y ColorData =>
                   for_range 0 n (fun x ColorData =>
                     Value ← rd (Density s) (IX n x y);
                     wr ColorData (IX n x y) (Some (cell_color Value)))
                     ColorData)
                 (replicate (Z.to_nat (n * n)) None);
    Some (Uploaded ColorData)
  else Some NoTarget.

(** [Tick]: lines 63-71.  [StepSimulation] ends with a call of
    [UpdateRenderTarget] (line 184) and [Tick] makes a second one; the
    result is the state and the payload of the second. *)
Definition Tick (RenderTarget : bool) (click : option (Z * Z))
    (s : FluidGrid) : option (FluidGrid * upload F) :=
  s ← StepSimulation s;
  _ ← UpdateRenderTarget RenderTarget s;
  u ← UpdateRenderTarget RenderTarget s;
  s ← HandleInput click s;
  Some (s, u).

(** One [Tick] per frame, with the input of each frame. *)
Fixpoint ticks (RenderTarget : bool) (clicks : list (option (Z * Z)))
    (s : FluidGrid) : option FluidGrid :=
  match clicks with
  | [] => Some s
  | click :: clicks' =>
      r ← Tick RenderTarget click s; ticks RenderTarget clicks' r.1
  end.
End Actor.

(** ** Statements about the actor *)

(** Two arrays of [N * N] cells that agree on the cells [done]. *)
Definition agree_on {A : Type} (N : Z) (done : list (Z * Z)) (t t' : list A)
    : Prop :=
  length t = Z.to_nat (N * N) /\ length t' = Z.to_nat (N * N) /\
  forall a c, (a, c) ∈ done -> rd t (IX N a c) = rd t' (IX N a c).

(** A binary32 actor of side [N]: its parameters and the cells of its
    fields are binary32 values (infinities and NaN included), and
    [Density], [Vx] and [Vy] have [N * N] cells. *)
Definition binary32_actor (N : Z) (s : FluidGrid (F:=B32.t)) : Prop :=
  Size s = N /\
  B32.valid (Dt s) = true /\ B32.valid (Diffusion s) = true /\
  B32.valid (Viscosity s) = true /\
  valid_field N (Density s) /\ valid_field N (Vx s) /\ valid_field N (Vy s).

(** [x] compares between [0.0f] and [1.0f]. *)
Definition in_unit_range (x : B32.t) : Prop :=
  SFleb (of_int (F:=B32.t) 0) x = true /\ SFleb x (of_int (F:=B32.t) 1) = true.

(** ** More sample inputs *)

(** The 4x4 field with the interior of [sample4] and an all-zero
    boundary ring. *)
Definition ring4 : list B32.t :=
  map of_int [0; 0; 0; 0; 0; 6; 7; 0; 0; 10; 11; 0; 0; 0; 0; 0].

(** The field of side 1 holding [5.0f]. *)
Definition one_cell : list B32.t := [of_int 5].

(** A 4x4 field whose four interior cells hold a NaN, the two
    infinities and a negative zero. *)
Definition wild4 : list B32.t :=
  map of_int [1; 2; 3; 4; 5]
  ++ [S754_nan; S754_infinity false] ++ map of_int [8; 9]
  ++ [S754_infinity true; S754_zero true]
  ++ map of_int [12; 13; 14; 15; 16].

(** A 4x4 binary32 actor with the header's parameters whose density and
    x velocity are [wild4]. *)
Definition wild_grid4 : FluidGrid (F:=B32.t) :=
  {| Size := 4; Dt := flit 101 10; Diffusion := of_int 1;
     Viscosity := of_int 1; Density := wild4; Vx := wild4;
     Vy := sample4; Vz := zeroed 4 |}.

(** Three frames of input: a click far outside the grid, no click, a
    click on cell [(1, 2)]. *)
Definition clicks3 : list (option (Z * Z)) :=
  [Some (-5, 99); None; Some (1, 2)].

(** * Part II: lemmas and theorems *)

(** ** Reasoning about arrays and loops *)

Section ArrayFacts.
Context {A : Type}.
Implicit Types (x : list A) (k : Z).

Lemma rd_Some x k :
  0 <= k < Z.of_nat (length x) -> exists v, rd x k = Some v.
Proof.
  intros Hk. unfold rd.
  destruct (Z.ltb_spec k 0) as [|_]; [lia|].
  apply lookup_lt_is_Some_2. lia.
Qed.

Lemma wr_Some x k v :
  0 <= k < Z.of_nat (length x) -> wr x k v = Some (<[Z.to_nat k := v]> x).
Proof.
  intros Hk. unfold wr.
  destruct (Z.leb_spec 0 k); [|lia].
  destruct (Z.ltb_spec k (Z.of_nat (length x))); [reflexivity|lia].
Qed.

Lemma wr_inv x k v x' :
  wr x k v = Some x' ->
  0 <= k < Z.of_nat (length x) /\ x' = <[Z.to_nat k := v]> x.
Proof.
  unfold wr.
  destruct (Z.leb_spec 0 k); [|discriminate].
  destruct (Z.ltb_spec k (Z.of_nat (length x))); [|discriminate].
  simpl. intros [= <-]. split; [lia|reflexivity].
Qed.

Lemma rd_wr x k v x' k' :
  wr x k v = Some x' -> 0 <= k' ->
  rd x' k' = if decide (k' = k) then Some v else rd x k'.
Proof.
  intros [Hk ->]%wr_inv Hk'. unfold rd.
  destruct (Z.ltb_spec k' 0); [lia|].
  destruct (decide (k' = k)) as [->|Hne].
  - apply list_lookup_insert_eq. lia.
  - apply list_lookup_insert_ne. lia.
Qed.

(** Two arrays of one length with the same reads are the same array. *)
Lemma rd_ext x y :
  length x = length y ->
  (forall k, 0 <= k < Z.of_nat (length x) -> rd x k = rd y k) -> x = y.
Proof.
  intros Hlen Hrd. apply list_eq. intros n.
  destruct (decide (n < length x)%nat) as [Hn|Hn].
  - specialize (Hrd (Z.of_nat n) ltac:(lia)). unfold rd in Hrd.
    destruct (Z.ltb_spec (Z.of_nat n) 0); [lia|].
    now rewrite Nat2Z.id in Hrd.
  - rewrite !lookup_ge_None_2; [reflexivity| |]; lia.
Qed.
End ArrayFacts.

Section LoopFacts.
Context {S : Type}.
Implicit Types (body : Z -> S -> option S) (st : S).

Lemma for_range_nil lo hi body st : hi <= lo -> for_range lo hi body st = Some st.
Proof.
  intros Hle. unfold for_range.
  now replace (Z.to_nat (hi - lo)) with O by lia.
Qed.

(** Loop invariant rule: the loop terminates normally and establishes
    the invariant at the upper bound. *)
Lemma for_range_inv (P : Z -> S -> Prop) lo hi body st :
  lo <= hi -> P lo st ->
  (forall i s, lo <= i < hi -> P i s ->
               exists s', body i s = Some s' /\ P (i + 1) s') ->
  exists s', for_range lo hi body st = Some s' /\ P hi s'.
Proof.
  intros Hle H0 Hstep. unfold for_range.
  remember (Z.to_nat (hi - lo)) as n eqn:Hn.
  revert lo st Hle H0 Hstep Hn.
  induction n as [|n IH]; intros lo st Hle H0 Hstep Hn.
  - replace hi with lo by lia. now exists st.
  - destruct (Hstep lo st ltac:(lia) H0) as (s1 & Hb & H1).
    simpl. rewrite Hb. simpl.
    apply IH; [lia|exact H1| |lia].
    intros i s Hi. apply Hstep. lia.
Qed.

End LoopFacts.

(** ** Loops as passes over cell lists *)

Section FoldFacts.
Context {S A : Type}.
Implicit Types (f g : A -> S -> option S) (l : list A) (st : S).

Lemma foldM_ext f g l st :
  (forall a s, a ∈ l -> f a s = g a s) -> foldM f l st = foldM g l st.
Proof.
  revert st. induction l as [|a l IH]; intros st Hfg; [reflexivity|].
  simpl. rewrite Hfg by left.
  destruct (g a st) as [st'|]; [|reflexivity]. simpl.
  apply IH. intros a' s Ha'. apply Hfg. now right.
Qed.

Lemma foldM_app f l1 l2 st :
  foldM f (l1 ++ l2) st = st' ← foldM f l1 st; foldM f l2 st'.
Proof.
  revert st. induction l1 as [|a l1 IH]; intros st; [reflexivity|].
  simpl. destruct (f a st) as [st'|]; [|reflexivity]. simpl. apply IH.
Qed.

Lemma foldM_singleton f a st : foldM f [a] st = f a st.
Proof. simpl. now destruct (f a st). Qed.

Lemma foldM_bind {B : Type} f (k : B -> list A) (l : list B) st :
  foldM f (l ≫= k) st = foldM (fun b st => foldM f (k b) st) l st.
Proof.
  revert st. induction l as [|b l IH]; intros st; [reflexivity|].
  change ((b :: l) ≫= k) with (k b ++ (l ≫= k)).
  rewrite foldM_app. simpl.
  destruct (foldM f (k b) st) as [st'|]; [|reflexivity]. simpl. apply IH.
Qed.

Lemma for_loop_foldM n i (body : Z -> S -> option S) st :
  for_loop n i body st = foldM body (seqZ i (Z.of_nat n)) st.
Proof.
  revert i st. induction n as [|n IH]; intros i st; [reflexivity|].
  rewrite seqZ_cons by lia. simpl.
  destruct (body i st) as [st'|]; [|reflexivity]. simpl.
  rewrite IH. do 2 f_equal; lia.
Qed.

Lemma for_range_foldM lo hi (body : Z -> S -> option S) st :
  for_range lo hi body st = foldM body (seqZ lo (hi - lo)) st.
Proof.
  unfold for_range. rewrite for_loop_foldM. f_equal.
  unfold seqZ. now rewrite Nat2Z.id.
Qed.

End FoldFacts.

(** The double loop over the interior is one pass over [interior N]. *)
Lemma interior_loops {S : Type} N (body : Z -> Z -> S -> option S) st :
  for_range 1 (N - 1) (fun j st =>
    for_range 1 (N - 1) (fun i st => body i j st) st) st =
  foldM (fun '(i, j) st => body i j st) (interior N) st.
Proof.
  rewrite for_range_foldM. unfold interior. rewrite foldM_bind.
  replace (N - 1 - 1) with (N - 2) by lia.
  apply foldM_ext. intros j s _.
  rewrite for_range_foldM, foldM_bind.
  replace (N - 1 - 1) with (N - 2) by lia.
  apply foldM_ext. intros i s' _. now rewrite foldM_singleton.
Qed.

(** A pass that updates two arrays cell by cell is two passes, one per
    array, when neither update looks at the other array. *)
Lemma foldM_split {S T A : Type} (f : A -> S -> option S)
    (g : A -> T -> option T) (l : list A) (s : S) (t : T) :
  foldM (fun a '(s, t) => s' ← f a s; t' ← g a t; Some (s', t')) l (s, t) =
  s' ← foldM f l s; t' ← foldM g l t; Some (s', t').
Proof.
  revert s t. induction l as [|a l IH]; intros s t; [reflexivity|].
  simpl. destruct (f a s) as [s1|]; [|reflexivity]. simpl.
  destruct (g a t) as [t1|]; simpl.
  - apply IH.
  - now destruct (foldM f l s1).
Qed.

Lemma foldM_split_swap {S T A : Type} (f : A -> S -> option S)
    (g : A -> T -> option T) (l : list A) (s : S) (t : T) :
  foldM (fun a '(s, t) => t' ← g a t; s' ← f a s; Some (s', t')) l (s, t) =
  t' ← foldM g l t; s' ← foldM f l s; Some (s', t').
Proof.
  revert s t. induction l as [|a l IH]; intros s t; [reflexivity|].
  simpl. destruct (g a t) as [t1|]; [|reflexivity]. simpl.
  destruct (f a s) as [s1|]; simpl.
  - apply IH.
  - now destruct (foldM g l t1).
Qed.

(** A loop whose body ignores the counter iterates the body. *)
Lemma for_range_iter {S : Type} (n : Z) (f : S -> option S) (st : S) :
  for_range 0 n (fun _ s => f s) st =
  Nat.iter (Z.to_nat n) (fun os => s ← os; f s) (Some st).
Proof.
  unfold for_range. rewrite Z.sub_0_r. generalize 0 at 1.
  revert st. induction (Z.to_nat n) as [|k IH]; intros st i; [reflexivity|].
  rewrite Nat.iter_succ_r. simpl.
  destruct (f st) as [st'|]; simpl; [apply IH|].
  clear. induction k as [|k IH]; [reflexivity|]. simpl. now rewrite <- IH.
Qed.

(** Invariant rule for a pass: [P done s] holds after the cells [done]
    have been processed. *)
Lemma foldM_inv {S A : Type} (P : list A -> S -> Prop)
    (f : A -> S -> option S) (l : list A) (st : S) :
  P [] st ->
  (forall done a s, a ∈ l -> P done s ->
                    exists s', f a s = Some s' /\ P (done ++ [a]) s') ->
  exists s', foldM f l st = Some s' /\ P l s'.
Proof.
  intros H0 Hstep.
  enough (forall done st, P done st -> (forall a, a ∈ l -> a ∈ l) ->
            exists s', foldM f l st = Some s' /\ P (done ++ l) s') as Hgen
    by (apply (Hgen [] st H0); auto).
  revert Hstep. generalize l at 1 3 as l0. intros l0 Hstep.
  induction l as [|a l IH]; intros done s Hs Hin.
  - exists s. now rewrite app_nil_r.
  - destruct (Hstep done a s (Hin a ltac:(left)) Hs) as (s1 & Hf & H1).
    simpl. rewrite Hf. simpl.
    destruct (IH (done ++ [a]) s1 H1) as (s' & Hs' & HP).
    + intros a' Ha'. apply Hin. now right.
    + exists s'. split; [exact Hs'|]. now rewrite <- app_assoc in HP.
Qed.

(** Invariant rule for a pass that knows which cells come before the
    current one. *)
Lemma foldM_inv_prefix {S A : Type} (P : list A -> S -> Prop)
    (f : A -> S -> option S) (l : list A) (st : S) :
  P [] st ->
  (forall done a rest s, l = done ++ a :: rest -> P done s ->
                         exists s', f a s = Some s' /\ P (done ++ [a]) s') ->
  exists s', foldM f l st = Some s' /\ P l s'.
Proof.
  intros H0 Hstep.
  enough (forall rest done st, l = done ++ rest -> P done st ->
            exists s', foldM f rest st = Some s' /\ P l s') as Hgen
    by (apply (Hgen l [] st); auto).
  induction rest as [|a rest IH]; intros done s Hl Hs.
  - exists s. rewrite app_nil_r in Hl. now subst l.
  - destruct (Hstep done a rest s Hl Hs) as (s1 & Hf & H1).
    simpl. rewrite Hf. simpl.
    apply (IH (done ++ [a])); [|exact H1]. now rewrite <- app_assoc.
Qed.

Lemma elem_of_interior N i j :
  (i, j) ∈ interior N <-> 1 <= i <= N - 2 /\ 1 <= j <= N - 2.
Proof.
  unfold interior. rewrite list_elem_of_bind. split.
  - intros (j' & Hij & Hj'). apply list_elem_of_bind in Hij as (i' & Hij & Hi').
    apply list_elem_of_singleton in Hij as [= -> ->].
    apply elem_of_seqZ in Hi', Hj'. lia.
  - intros [Hi Hj]. exists j. split; [|apply elem_of_seqZ; lia].
    apply list_elem_of_bind. exists i. split; [now left|apply elem_of_seqZ; lia].
Qed.

(** ** The order of a pass over the interior *)

Lemma StronglySorted_seqZ m n : StronglySorted Z.lt (seqZ m n).
Proof.
  remember (Z.to_nat n) as k eqn:Hk. revert m n Hk.
  induction k as [|k IH]; intros m n Hk.
  - rewrite seqZ_nil by lia. constructor.
  - rewrite seqZ_cons by lia. constructor.
    + apply IH. lia.
    + apply Forall_seqZ. lia.
Qed.

Lemma StronglySorted_bind {A B : Type} (R1 : relation A) (R2 : relation B)
    (f : A -> list B) (l : list A) :
  StronglySorted R1 l ->
  (forall x, x ∈ l -> StronglySorted R2 (f x)) ->
  (forall x y u v, R1 x y -> u ∈ f x -> v ∈ f y -> R2 u v) ->
  StronglySorted R2 (l ≫= f).
Proof.
  intros Hl Hf Hcross. induction Hl as [|x l Hl IH Hx]; [constructor|].
  change ((x :: l) ≫= f) with (f x ++ (l ≫= f)).
  apply StronglySorted_app_2.
  - intros u v Hu Hv. apply list_elem_of_bind in Hv as (y & Hv & Hy).
    apply (Hcross x y); [|exact Hu|exact Hv].
    rewrite List.Forall_forall in Hx. apply Hx. now apply list_elem_of_In.
  - apply Hf. now left.
  - apply IH. intros y Hy. apply Hf. now right.
Qed.

(** [interior N] lists the cells in row-major order. *)
Lemma interior_sorted N : StronglySorted before (interior N).
Proof.
  unfold interior.
  apply (StronglySorted_bind Z.lt); [apply StronglySorted_seqZ| |].
  - intros j _. apply (StronglySorted_bind Z.lt); [apply StronglySorted_seqZ| |].
    + intros i _. repeat constructor.
    + intros i i' u v Hii Hu Hv.
      apply list_elem_of_singleton in Hu as ->.
      apply list_elem_of_singleton in Hv as ->. right. simpl. lia.
  - intros j j' u v Hjj Hu Hv.
    apply list_elem_of_bind in Hu as (i & Hu & _).
    apply list_elem_of_bind in Hv as (i' & Hv & _).
    apply list_elem_of_singleton in Hu as ->.
    apply list_elem_of_singleton in Hv as ->. left. simpl. lia.
Qed.

Lemma interior_before N done i j rest a c :
  interior N = done ++ (i, j) :: rest -> (a, c) ∈ done ->
  c < j \/ (c = j /\ a < i).
Proof.
  intros Hsplit Hin. pose proof (interior_sorted N) as Hs.
  rewrite Hsplit in Hs.
  apply (StronglySorted_app_1_elem_of _ _ _ (a, c) (i, j)) in Hs;
    [exact Hs|exact Hin|now left].
Qed.

(** ** Facts about grids *)

Section Grid.
Context {F : Type} `{Scalar F}.
Variable N : Z.
Implicit Types (x y : list F) (g : Z -> Z -> F) (v : F).

Lemma IX_bounds i j : 0 <= i < N -> 0 <= j < N -> 0 <= IX N i j < N * N.
Proof. unfold IX. nia. Qed.

Lemma IX_inj i j a c :
  0 <= i < N -> 0 <= a < N -> IX N i j = IX N a c -> i = a /\ j = c.
Proof.
  unfold IX. intros Hi Ha Heq.
  assert (j = c) by nia. subst. lia.
Qed.

Lemma repr_length x g : repr N x g -> Z.of_nat (length x) = N * N.
Proof.
  intros [Hlen Hg]. rewrite Hlen.
  destruct (Z.le_gt_cases 0 (N * N)); [lia|nia].
Qed.

Lemma repr_rd x g i j :
  repr N x g -> 0 <= i < N -> 0 <= j < N -> rd x (IX N i j) = Some (g i j).
Proof. intros [_ Hg]. apply Hg. Qed.

Lemma repr_wr x g i j v :
  repr N x g -> 0 <= i < N -> 0 <= j < N ->
  exists x', wr x (IX N i j) v = Some x' /\ repr N x' (upd g i j v).
Proof.
  intros Hx Hi Hj. pose proof (repr_length _ _ Hx) as Hlen.
  pose proof (IX_bounds i j Hi Hj) as Hk.
  eexists. split; [apply wr_Some; lia|].
  split; [rewrite length_insert; apply Hx|].
  intros a c Ha Hc.
  rewrite (rd_wr x (IX N i j) v); [|apply wr_Some; lia|apply IX_bounds; lia].
  unfold upd. destruct (decide (IX N a c = IX N i j)) as [Heq|Hne].
  - apply IX_inj in Heq; [|lia|lia]. now rewrite decide_True.
  - rewrite decide_False; [now apply repr_rd|]. intros [-> ->]. now apply Hne.
Qed.

Lemma repr_ext x g g' :
  repr N x g ->
  (forall i j, 0 <= i < N -> 0 <= j < N -> g i j = g' i j) -> repr N x g'.
Proof.
  intros [Hlen Hg] Heq. split; [exact Hlen|].
  intros i j Hi Hj. rewrite <- Heq by assumption. now apply Hg.
Qed.

(** A field is determined by its cells. *)
Lemma repr_inj x y g : 0 <= N -> repr N x g -> repr N y g -> x = y.
Proof.
  intros HN Hx Hy. pose proof (repr_length _ _ Hx) as Hlen.
  apply rd_ext; [destruct Hx, Hy; congruence|].
  intros k Hk.
  assert (0 < N) as HN' by nia.
  replace k with (IX N (k mod N) (k / N)).
  - assert (0 <= k mod N < N) by (apply Z.mod_pos_bound; lia).
    assert (0 <= k / N < N)
      by (split; [apply Z.div_pos; lia|apply Z.div_lt_upper_bound; lia]).
    rewrite (repr_rd x g), (repr_rd y g); auto.
  - unfold IX. rewrite (Z.div_mod k N) at 3 by lia. lia.
Qed.

(** Every field of side [N] has a grid. *)
Lemma repr_exists x :
  length x = Z.to_nat (N * N) ->
  exists g, repr N x g.
Proof.
  intros Hlen.
  exists (fun i j => default (of_int 0) (rd x (IX N i j))).
  split; [exact Hlen|]. intros i j Hi Hj.
  destruct (rd_Some x (IX N i j)) as [v Hv].
  - pose proof (IX_bounds i j Hi Hj). lia.
  - now rewrite Hv.
Qed.

Lemma repr_replicate v : repr N (replicate (Z.to_nat (N * N)) v) (fun _ _ => v).
Proof.
  split; [apply length_replicate|].
  intros i j Hi Hj. pose proof (IX_bounds i j Hi Hj) as Hk. unfold rd.
  destruct (Z.ltb_spec (IX N i j) 0); [lia|].
  apply lookup_replicate_2. lia.
Qed.
End Grid.

(** Case analysis on every [decide] of a goal about grids. *)
Ltac grid_cases :=
  repeat case_decide;
  repeat match goal with Hc : _ /\ _ |- _ => destruct Hc end;
  subst; try reflexivity; try lia; try congruence.

(** Decide every cell test that linear arithmetic settles. *)
Ltac grid_simp :=
  repeat first [rewrite decide_True by lia | rewrite decide_False by lia].

(** Symbolic execution of one read or write of a field with a known grid. *)
Ltac rd_step Hs :=
  match type of Hs with
  | repr ?n ?s _ =>
      match goal with
      | |- context [rd s (IX n ?i ?j)] =>
          rewrite (repr_rd n s _ i j Hs) by lia; simpl
      end
  end.

Tactic Notation "wr_step" constr(Hs) "as" ident(s') ident(Hs') :=
  match type of Hs with
  | repr ?n ?s _ =>
      match goal with
      | |- context [wr s (IX n ?i ?j) ?v] =>
          let Hw := fresh "Hw" in
          destruct (repr_wr n s _ i j v Hs) as (s' & Hw & Hs'); [lia|lia|];
          rewrite Hw; clear Hw; simpl
      end
  end.

(** ** [SetBoundary], cell by cell *)

Section Boundary.
Context {F : Type} `{Scalar F}.
Variable N : Z.
Implicit Types (x y : list F) (g : Z -> Z -> F) (v : F).
Hypothesis HN : 3 <= N.

Lemma SetBoundary_repr b x g :
  repr N x g ->
  exists x', SetBoundary N b x = Some x' /\ repr N x' (boundary N b g).
Proof.
  intros Hx. unfold SetBoundary.
  (* first loop *)
  edestruct (for_range_inv (fun i s => repr N s (rows_upto N b g i)) 1 (N - 1))
    as (x1 & -> & H1); [lia| | |].
  { eapply repr_ext; [exact Hx|]. intros i j _ _. unfold rows_upto. grid_cases. }
  { intros i s Hi Hs. cbv beta.
    rd_step Hs. wr_step Hs as s1 Hs1. rd_step Hs1. wr_step Hs1 as s2 Hs2.
    eexists. split; [reflexivity|].
    eapply repr_ext; [exact Hs2|]. intros a c Ha Hc.
    unfold rows_upto, upd, flip. grid_cases. }
  simpl.
  (* second loop *)
  set (g1 := rows_upto N b g (N - 1)) in *.
  edestruct (for_range_inv (fun j s => repr N s (cols_upto N b g1 j)) 1 (N - 1))
    as (x2 & -> & H2); [lia| | |].
  { eapply repr_ext; [exact H1|]. intros i j _ _. unfold cols_upto. grid_cases. }
  { intros j s Hj Hs. cbv beta.
    rd_step Hs. wr_step Hs as s1 Hs1.
    destruct (Z.eqb_spec b 1) as [Hb|Hb].
    - rd_step Hs1. wr_step Hs1 as s2 Hs2.
      eexists. split; [reflexivity|].
      eapply repr_ext; [exact Hs2|]. intros a c Ha Hc.
      unfold cols_upto, upd, flip. rewrite Hb. simpl. grid_cases.
    - rd_step Hs1. wr_step Hs1 as s2 Hs2.
      eexists. split; [reflexivity|].
      eapply repr_ext; [exact Hs2|]. intros a c Ha Hc.
      unfold cols_upto, upd, flip. rewrite (proj2 (Z.eqb_neq b 1) Hb).
      grid_cases. }
  simpl.
  (* corners *)
  set (e := cols_upto N b g1 (N - 1)) in *.
  rd_step H2. rd_step H2. wr_step H2 as x3 H3.
  rd_step H3. rd_step H3. wr_step H3 as x4 H4.
  rd_step H4. rd_step H4. wr_step H4 as x5 H5.
  rd_step H5. rd_step H5. wr_step H5 as x6 H6.
  eexists. split; [reflexivity|]. exact H6.
Qed.

(** What [boundary] holds at each kind of cell. *)

Lemma boundary_interior b g i j :
  1 <= i <= N - 2 -> 1 <= j <= N - 2 -> boundary N b g i j = g i j.
Proof.
  intros Hi Hj. unfold boundary, corners, cols_upto, rows_upto, upd.
  now grid_simp.
Qed.

Lemma boundary_top b g i :
  1 <= i <= N - 2 -> boundary N b g i 0 = flip b 2 (g i 1).
Proof.
  intros Hi. unfold boundary, corners, cols_upto, rows_upto, upd.
  now grid_simp.
Qed.

Lemma boundary_bottom b g i :
  1 <= i <= N - 2 -> boundary N b g i (N - 1) = flip b 2 (g i (N - 2)).
Proof.
  intros Hi. unfold boundary, corners, cols_upto, rows_upto, upd.
  now grid_simp.
Qed.

Lemma boundary_left b g j :
  1 <= j <= N - 2 -> boundary N b g 0 j = flip b 1 (g 1 j).
Proof.
  intros Hj. unfold boundary, corners, cols_upto, rows_upto, upd.
  now grid_simp.
Qed.

Lemma boundary_right b g j :
  1 <= j <= N - 2 ->
  boundary N b g (N - 1) j = if b =? 1 then fneg (g 1 j) else g (N - 2) j.
Proof.
  intros Hj. unfold boundary, corners, cols_upto, rows_upto, upd.
  now grid_simp.
Qed.

Lemma boundary_corner_00 b g :
  boundary N b g 0 0 = avg (boundary N b g 1 0) (boundary N b g 0 1).
Proof. unfold boundary, corners, upd. now grid_simp. Qed.

Lemma boundary_corner_0N b g :
  boundary N b g 0 (N - 1) =
  avg (boundary N b g 1 (N - 1)) (boundary N b g 0 (N - 2)).
Proof. unfold boundary, corners, upd. now grid_simp. Qed.

Lemma boundary_corner_N0 b g :
  boundary N b g (N - 1) 0 =
  avg (boundary N b g (N - 2) 0) (boundary N b g (N - 1) 1).
Proof. unfold boundary, corners, upd. now grid_simp. Qed.

Lemma boundary_corner_NN b g :
  boundary N b g (N - 1) (N - 1) =
  avg (boundary N b g (N - 2) (N - 1)) (boundary N b g (N - 1) (N - 2)).
Proof. unfold boundary, corners, upd. now grid_simp. Qed.

(** The boundary of a grid depends on its interior only. *)
Lemma boundary_ext b g g' i j :
  (forall a c, 1 <= a <= N - 2 -> 1 <= c <= N - 2 -> g a c = g' a c) ->
  0 <= i < N -> 0 <= j < N ->
  (1 <= i <= N - 2 /\ 1 <= j <= N - 2) \/ boundary N b g i j = boundary N b g' i j.
Proof.
  intros Hg Hi Hj.
  destruct (decide (1 <= i <= N - 2)) as [Hi'|Hi'];
    destruct (decide (1 <= j <= N - 2)) as [Hj'|Hj']; [now left|right..].
  - assert (j = 0 \/ j = N - 1) as [->| ->] by lia.
    + rewrite !boundary_top by lia. now rewrite Hg by lia.
    + rewrite !boundary_bottom by lia. now rewrite Hg by lia.
  - assert (i = 0 \/ i = N - 1) as [->| ->] by lia.
    + rewrite !boundary_left by lia. now rewrite Hg by lia.
    + rewrite !boundary_right by lia. now rewrite !Hg by lia.
  - assert (i = 0 \/ i = N - 1) as [->| ->] by lia;
      assert (j = 0 \/ j = N - 1) as [->| ->] by lia.
    + rewrite !boundary_corner_00, !boundary_top, !boundary_left by lia.
      now rewrite !Hg by lia.
    + rewrite !boundary_corner_0N, !boundary_bottom, !boundary_left by lia.
      now rewrite !Hg by lia.
    + rewrite !boundary_corner_N0, !boundary_top, !boundary_right by lia.
      now rewrite !Hg by lia.
    + rewrite !boundary_corner_NN, !boundary_bottom, !boundary_right by lia.
      now rewrite !Hg by lia.
Qed.

Lemma boundary_idem b g i j :
  0 <= i < N -> 0 <= j < N ->
  boundary N b (boundary N b g) i j = boundary N b g i j.
Proof.
  intros Hi Hj.
  destruct (boundary_ext b (boundary N b g) g i j) as [[Hi' Hj']|Heq];
    [intros; now apply boundary_interior|lia|lia| |exact Heq].
  now rewrite !boundary_interior.
Qed.
End Boundary.

(** ** Claims about [SetBoundary] *)

Section BoundaryClaims.
Context {F : Type} `{Scalar F}.
Implicit Types (x : list F).

(** X3: every edge cell after [SetBoundary], as the code computes it: the
    top, bottom and left edges mirror the adjacent interior line, and the
    right edge mirrors column [N-2] except for [b = 1], where it holds
    the negation of column [1]. *)
Lemma SetBoundary_edges N b x :
  3 <= N -> length x = Z.to_nat (N * N) ->
  exists x', SetBoundary N b x = Some x' /\
    (forall i, 1 <= i <= N - 2 ->
       (if b =? 2 then is_neg_of else is_copy_of) x' (IX N i 0) (IX N i 1) /\
       (if b =? 2 then is_neg_of else is_copy_of) x'
         (IX N i (N - 1)) (IX N i (N - 2))) /\
    (forall j, 1 <= j <= N - 2 ->
       (if b =? 1 then is_neg_of else is_copy_of) x' (IX N 0 j) (IX N 1 j) /\
       (if b =? 1 then is_neg_of x' (IX N (N - 1) j) (IX N 1 j)
        else is_copy_of x' (IX N (N - 1) j) (IX N (N - 2) j))).
Proof.
  intros HN Hlen. destruct (repr_exists N x Hlen) as [g Hg].
  destruct (SetBoundary_repr N HN b x g Hg) as (x' & Hx' & Hr).
  exists x'. split; [exact Hx'|].
  split.
  - intros i Hi. split.
    + destruct (b =? 2) eqn:Hb; eexists;
        (split; [apply (repr_rd N x' _ i 1 Hr); lia|]);
        rewrite (repr_rd N x' _ i 0 Hr) by lia;
        rewrite boundary_top, boundary_interior by lia;
        unfold flip; now rewrite Hb.
    + destruct (b =? 2) eqn:Hb; eexists;
        (split; [apply (repr_rd N x' _ i (N - 2) Hr); lia|]);
        rewrite (repr_rd N x' _ i (N - 1) Hr) by lia;
        rewrite boundary_bottom, boundary_interior by lia;
        unfold flip; now rewrite Hb.
  - intros j Hj. split.
    + destruct (b =? 1) eqn:Hb; eexists;
        (split; [apply (repr_rd N x' _ 1 j Hr); lia|]);
        rewrite (repr_rd N x' _ 0 j Hr) by lia;
        rewrite boundary_left, boundary_interior by lia;
        unfold flip; now rewrite Hb.
    + destruct (b =? 1) eqn:Hb; eexists.
      * split; [apply (repr_rd N x' _ 1 j Hr); lia|].
        rewrite (repr_rd N x' _ (N - 1) j Hr) by lia.
        rewrite boundary_right, boundary_interior by lia. now rewrite Hb.
      * split; [apply (repr_rd N x' _ (N - 2) j Hr); lia|].
        rewrite (repr_rd N x' _ (N - 1) j Hr) by lia.
        rewrite boundary_right, boundary_interior by lia. now rewrite Hb.
Qed.

(** C8: after [SetBoundary] on a field of side [N >= 3], each of the
    four corner cells holds [0.5 * (sum of its two adjacent edge cells)],
    whatever the field kind [b]. *)
Theorem SetBoundary_corners N b x :
  3 <= N -> length x = Z.to_nat (N * N) ->
  exists x', SetBoundary N b x = Some x' /\
    is_avg_of x' (IX N 0 0) (IX N 1 0) (IX N 0 1) /\
    is_avg_of x' (IX N 0 (N - 1)) (IX N 1 (N - 1)) (IX N 0 (N - 2)) /\
    is_avg_of x' (IX N (N - 1) 0) (IX N (N - 2) 0) (IX N (N - 1) 1) /\
    is_avg_of x' (IX N (N - 1) (N - 1))
              (IX N (N - 2) (N - 1)) (IX N (N - 1) (N - 2)).
Proof.
  intros HN Hlen. destruct (repr_exists N x Hlen) as [g Hg].
  destruct (SetBoundary_repr N HN b x g Hg) as (x' & Hx' & Hr).
  exists x'. split; [exact Hx'|].
  repeat split; do 2 eexists;
    (split; [apply (repr_rd N x' _ _ _ Hr); lia|]);
    (split; [apply (repr_rd N x' _ _ _ Hr); lia|]);
    rewrite (repr_rd N x' _ _ _ Hr) by lia; f_equal.
  - apply (boundary_corner_00 N HN).
  - apply (boundary_corner_0N N HN).
  - apply (boundary_corner_N0 N HN).
  - apply (boundary_corner_NN N HN).
Qed.

(** C10: [SetBoundary] is idempotent on fields of side [N >= 3]: a
    second application returns the field the first one returned. *)
Theorem SetBoundary_idempotent N b x :
  3 <= N -> length x = Z.to_nat (N * N) ->
  exists x', SetBoundary N b x = Some x' /\ SetBoundary N b x' = Some x'.
Proof.
  intros HN Hlen. destruct (repr_exists N x Hlen) as [g Hg].
  destruct (SetBoundary_repr N HN b x g Hg) as (x' & Hx' & Hr).
  destruct (SetBoundary_repr N HN b x' _ Hr) as (x'' & Hx'' & Hr').
  exists x'. split; [exact Hx'|]. rewrite Hx''. f_equal.
  apply (repr_inj N x'' x' (boundary N b g)); [lia| |exact Hr].
  eapply repr_ext; [exact Hr'|]. intros i j Hi Hj.
  now apply boundary_idem.
Qed.
End BoundaryClaims.

Lemma SetBoundary_corners_witness :
  3 <= 3 /\ length sample3 = Z.to_nat (3 * 3) /\
  exists x', SetBoundary 3 2 sample3 = Some x' /\
    is_avg_of x' (IX 3 0 0) (IX 3 1 0) (IX 3 0 1) /\
    is_avg_of x' (IX 3 0 (3 - 1)) (IX 3 1 (3 - 1)) (IX 3 0 (3 - 2)) /\
    is_avg_of x' (IX 3 (3 - 1) 0) (IX 3 (3 - 2) 0) (IX 3 (3 - 1) 1) /\
    is_avg_of x' (IX 3 (3 - 1) (3 - 1))
              (IX 3 (3 - 2) (3 - 1)) (IX 3 (3 - 1) (3 - 2)).
Proof.
  split; [lia|]. split; [reflexivity|].
  apply (SetBoundary_corners 3 2 sample3); [lia|reflexivity].
Defined.

Lemma SetBoundary_idempotent_witness :
  3 <= 4 /\ length sample4 = Z.to_nat (4 * 4) /\
  exists x', SetBoundary 4 1 sample4 = Some x' /\
             SetBoundary 4 1 x' = Some x'.
Proof.
  split; [lia|]. split; [reflexivity|].
  apply (SetBoundary_idempotent 4 1 sample4); [lia|reflexivity].
Defined.

(** C3, at the 4x4 field [sample4] with kind X_VELOCITY: the right-edge
    cell [(3, 1)] receives the negation of column 1 (the value 6), not of
    the adjacent column [N-2 = 2] (the value 7). *)
Theorem SetBoundary_right_edge_x_velocity :
  exists x', SetBoundary 4 1 sample4 = Some x' /\
    rd x' (IX 4 1 1) = Some (of_int 6) /\
    rd x' (IX 4 2 1) = Some (of_int 7) /\
    rd x' (IX 4 3 1) = Some (fneg (of_int 6)) /\
    ~ is_neg_of x' (IX 4 3 1) (IX 4 2 1).
Proof.
  eexists. split; [vm_compute; reflexivity|].
  repeat split; try reflexivity.
  intros (v & Hv & Hneg). vm_compute in Hv, Hneg.
  injection Hv as <-. discriminate Hneg.
Qed.

(** ** The diagnostic reads *)

Section DiagnosticReads.
Context {F : Type} `{Scalar F}.
Variable N : Z.
Implicit Types (x : list F) (a c : F).

(** The diagnostic reads return the array untouched, and succeed on
    every field of side [N]. *)
Lemma log_reads_inv x x' : log_reads N x = Some x' -> x' = x.
Proof.
  unfold log_reads, for_range. generalize (Z.to_nat (Z.min N 10 - 0)) as n.
  generalize 0 as i. intros i n. revert i.
  induction n as [|n IH]; intros i; simpl.
  - now intros [= ->].
  - destruct (rd x i); [|discriminate]. simpl. apply IH.
Qed.

Lemma log_reads_Some x :
  length x = Z.to_nat (N * N) -> log_reads N x = Some x.
Proof.
  intros Hlen. unfold log_reads.
  destruct (Z.le_gt_cases (Z.min N 10) 0) as [Hle|Hgt].
  - now apply for_range_nil.
  - destruct (for_range_inv (fun _ s => s = x) 0 (Z.min N 10)
                (fun i x => _ ← rd x i; Some x) x) as (x' & Hx' & ->);
      [lia|reflexivity| |exact Hx'].
    intros i s Hi ->. destruct (rd_Some x i) as [v Hv]; [nia|].
    rewrite Hv. now exists x.
Qed.
End DiagnosticReads.

(** ** Binary32: digits, shifts and rounding *)

Lemma digits_bounds p :
  2 ^ (Zpos (digits2_pos p) - 1) <= Zpos p < 2 ^ Zpos (digits2_pos p).
Proof.
  induction p as [p IH|p IH|]; simpl digits2_pos;
    rewrite ?Pos2Z.inj_succ; [| |simpl; lia].
  - replace (Z.succ (Zpos (digits2_pos p)) - 1)
      with (Z.succ (Zpos (digits2_pos p) - 1)) by lia.
    rewrite !Z.pow_succ_r by lia. lia.
  - replace (Z.succ (Zpos (digits2_pos p)) - 1)
      with (Z.succ (Zpos (digits2_pos p) - 1)) by lia.
    rewrite !Z.pow_succ_r by lia. lia.
Qed.

Lemma digits_unique p d :
  2 ^ (d - 1) <= Zpos p < 2 ^ d -> Zpos (digits2_pos p) = d.
Proof.
  intros [Hlo Hhi]. pose proof (digits_bounds p) as [Hlo' Hhi'].
  destruct (Z.lt_trichotomy (Zpos (digits2_pos p)) d) as [Hlt|[Heq|Hgt]];
    [exfalso|exact Heq|exfalso].
  - assert (2 ^ Zpos (digits2_pos p) <= 2 ^ (d - 1))
      by (apply Z.pow_le_mono_r; lia). lia.
  - assert (2 ^ d <= 2 ^ (Zpos (digits2_pos p) - 1))
      by (apply Z.pow_le_mono_r; lia). lia.
Qed.

Lemma digits_mul_pow2 p q k :
  0 <= k -> Zpos q = Zpos p * 2 ^ k ->
  Zpos (digits2_pos q) = Zpos (digits2_pos p) + k.
Proof.
  intros Hk Hq. apply digits_unique. rewrite Hq.
  pose proof (digits_bounds p) as [Hlo Hhi].
  replace (Zpos (digits2_pos p) + k - 1)
    with (Zpos (digits2_pos p) - 1 + k) by lia.
  rewrite !Z.pow_add_r by lia.
  assert (0 < 2 ^ k) by (apply Z.pow_pos_nonneg; lia). nia.
Qed.

Lemma digits_div_pow2 p q n :
  0 <= n -> Zpos q = Zpos p / 2 ^ n ->
  Zpos (digits2_pos q) = Zpos (digits2_pos p) - n.
Proof.
  intros Hn Hq. apply digits_unique. rewrite Hq.
  pose proof (digits_bounds p) as [Hlo Hhi].
  assert (0 < 2 ^ n) as Hpos by (apply Z.pow_pos_nonneg; lia).
  assert (n < Zpos (digits2_pos p)) as Hnd.
  { destruct (Z.lt_ge_cases n (Zpos (digits2_pos p))) as [|Hge]; [assumption|].
    assert (2 ^ Zpos (digits2_pos p) <= 2 ^ n) by (apply Z.pow_le_mono_r; lia).
    rewrite Z.div_small in Hq by lia. lia. }
  split.
  - apply Z.div_le_lower_bound; [exact Hpos|].
    rewrite <- Z.pow_add_r by lia.
    now replace (n + (Zpos (digits2_pos p) - n - 1))
      with (Zpos (digits2_pos p) - 1) by lia.
  - apply Z.div_lt_upper_bound; [exact Hpos|].
    rewrite <- Z.pow_add_r by lia.
    now replace (n + (Zpos (digits2_pos p) - n)) with (Zpos (digits2_pos p)) by lia.
Qed.

Lemma iter_pos_iter {A : Type} (f : A -> A) n x :
  SpecFloat.iter_pos f n x = Pos.iter f x n.
Proof.
  revert x. induction n as [n IH|n IH|]; intros x; simpl.
  - rewrite !IH. now rewrite !Pos.iter_swap.
  - now rewrite !IH.
  - reflexivity.
Qed.

Lemma shr_1_m mrs : 0 <= shr_m mrs -> shr_m (shr_1 mrs) = shr_m mrs / 2.
Proof.
  destruct mrs as [m r s]. simpl. intros Hm.
  destruct m as [|[p|p|]|p]; simpl; try reflexivity; try lia.
  - rewrite Pos2Z.inj_xI. apply Z.div_unique with (r := 1); lia.
  - rewrite Pos2Z.inj_xO. apply Z.div_unique with (r := 0); lia.
Qed.

Lemma iter_shr_m n mrs :
  0 <= shr_m mrs ->
  shr_m (SpecFloat.iter_pos shr_1 n mrs) = shr_m mrs / 2 ^ Zpos n.
Proof.
  intros Hm. rewrite iter_pos_iter.
  enough (shr_m (Pos.iter shr_1 mrs n) = shr_m mrs / 2 ^ Zpos n /\
          0 <= shr_m (Pos.iter shr_1 mrs n)) as [Heq _] by exact Heq.
  apply Pos.iter_ind.
  - rewrite shr_1_m by exact Hm. split; [reflexivity|].
    apply Z.div_pos; lia.
  - intros p a [Ha Hpos]. rewrite shr_1_m by exact Hpos. rewrite Ha.
    split; [|apply Z.div_pos; [apply Z.div_pos|]; try lia;
             apply Z.pow_pos_nonneg; lia].
    rewrite Pos2Z.inj_succ, Z.pow_succ_r by lia.
    rewrite Z.div_div by (try lia; apply Z.pow_pos_nonneg; lia).
    f_equal. lia.
Qed.

(** Shifting out zero bits is exact. *)
Lemma iter_shr_exact n m q :
  0 <= q -> m = q * 2 ^ Zpos n ->
  SpecFloat.iter_pos shr_1 n (Build_shr_record m false false)
  = Build_shr_record q false false.
Proof.
  intros Hq ->. rewrite iter_pos_iter.
  enough (forall p, (p <= n)%positive ->
            Pos.iter shr_1 (Build_shr_record (q * 2 ^ Zpos n) false false) p
            = Build_shr_record (q * 2 ^ (Zpos n - Zpos p)) false false) as Hgen.
  { rewrite Hgen by lia. now rewrite Z.sub_diag, Z.mul_1_r. }
  assert (forall k, 0 <= k ->
            shr_1 (Build_shr_record (q * 2 ^ Z.succ k) false false)
            = Build_shr_record (q * 2 ^ k) false false) as Hstep.
  { intros k Hk. rewrite Z.pow_succ_r by exact Hk.
    assert (0 <= q * 2 ^ k) as Hpos
      by (apply Z.mul_nonneg_nonneg; [lia|apply Z.pow_nonneg; lia]).
    replace (q * (2 * 2 ^ k)) with (2 * (q * 2 ^ k)) by lia.
    destruct (q * 2 ^ k) as [|r|r]; [reflexivity|reflexivity|lia]. }
  intros p. induction p as [|p IH] using Pos.peano_ind; intros Hp.
  - simpl Pos.iter. replace (Zpos n) with (Z.succ (Zpos n - 1)) at 1 by lia.
    apply Hstep. lia.
  - rewrite Pos.iter_succ, IH by lia.
    replace (Zpos n - Zpos p) with (Z.succ (Zpos n - Zpos (Pos.succ p))) by lia.
    apply Hstep. lia.
Qed.

Lemma b32_fexp e : fexp B32.prec B32.emax e = Z.max (e - 24) (-149).
Proof. reflexivity. Qed.

Lemma fexp_mono a b : a <= b -> fexp B32.prec B32.emax a <= fexp B32.prec B32.emax b.
Proof. rewrite !b32_fexp. lia. Qed.

Lemma valid_finite s m e :
  B32.valid (S754_finite s m e) = true <->
  fexp B32.prec B32.emax (Zpos (digits2_pos m) + e) = e /\ e <= 104.
Proof.
  unfold B32.valid, valid_binary, bounded, canonical_mantissa.
  rewrite andb_true_iff, Z.eqb_eq, Z.leb_le. reflexivity.
Qed.

Lemma digits_mono p q :
  (p <= q)%positive -> Zpos (digits2_pos p) <= Zpos (digits2_pos q).
Proof.
  intros Hpq. pose proof (digits_bounds p) as [Hp _].
  pose proof (digits_bounds q) as [_ Hq].
  destruct (Z.le_gt_cases (Zpos (digits2_pos p)) (Zpos (digits2_pos q)))
    as [|Hgt]; [assumption|exfalso].
  assert (2 ^ Zpos (digits2_pos q) <= 2 ^ (Zpos (digits2_pos p) - 1))
    by (apply Z.pow_le_mono_r; lia).
  lia.
Qed.

Lemma shr_record_of_loc_m m l : shr_m (shr_record_of_loc m l) = m.
Proof. now destruct l as [|[]]. Qed.

(** What [shr_fexp] returns: the mantissa divided by the power of two
    that brings the exponent up to [fexp]. *)
Lemma shr_fexp_spec m e l :
  0 <= m ->
  let n := Z.max 0 (fexp B32.prec B32.emax (Zdigits2 m + e) - e) in
  shr_m (fst (shr_fexp B32.prec B32.emax m e l)) = m / 2 ^ n /\
  snd (shr_fexp B32.prec B32.emax m e l) = e + n.
Proof.
  intros Hm n. unfold shr_fexp, shr. subst n.
  destruct (fexp B32.prec B32.emax (Zdigits2 m + e) - e) as [|p|p]; simpl fst; simpl snd.
  - rewrite shr_record_of_loc_m. simpl. rewrite Z.div_1_r. lia.
  - rewrite iter_shr_m by (rewrite shr_record_of_loc_m; exact Hm).
    rewrite shr_record_of_loc_m. split; [reflexivity|lia].
  - rewrite shr_record_of_loc_m. simpl. rewrite Z.div_1_r. lia.
Qed.

Lemma round_nearest_even_cases m l :
  round_nearest_even m l = m \/ round_nearest_even m l = m + 1.
Proof. destruct l as [|[]]; simpl; auto. destruct (Z.even m); auto. Qed.

Lemma Zdigits2_mono m m' : 0 < m <= m' -> Zdigits2 m <= Zdigits2 m'.
Proof.
  intros Hm. destruct m as [|p|p]; try lia. destruct m' as [|q|q]; try lia.
  simpl. apply digits_mono. lia.
Qed.

Lemma Zdigits2_succ m : 0 <= m -> Zdigits2 (m + 1) <= Zdigits2 m + 1.
Proof.
  intros Hm. destruct m as [|p|p]; [simpl; lia| |lia].
  destruct (Zpos p + 1) as [|q|q] eqn:Hq; try lia. simpl.
  pose proof (digits_bounds p) as [_ Hp].
  pose proof (digits_bounds q) as [Hq' _].
  destruct (Z.le_gt_cases (Zpos (digits2_pos q)) (Zpos (digits2_pos p) + 1))
    as [|Hgt]; [assumption|exfalso].
  assert (2 ^ (Zpos (digits2_pos p) + 1) <= 2 ^ (Zpos (digits2_pos q) - 1))
    by (apply Z.pow_le_mono_r; lia).
  rewrite Z.pow_add_r in * by lia. lia.
Qed.

(** After [shr_fexp] of a mantissa that is not too short, the mantissa
    is zero at the least exponent, or canonical with the magnitude it
    had. *)
Lemma shr_fexp_normal m e l :
  0 <= m -> e <= fexp B32.prec B32.emax (Zdigits2 m + e) ->
  let m' := shr_m (fst (shr_fexp B32.prec B32.emax m e l)) in
  let e' := snd (shr_fexp B32.prec B32.emax m e l) in
  (m' = 0 /\ e' = -149) \/
  (0 < m' /\ fexp B32.prec B32.emax (Zdigits2 m' + e') = e' /\
   Zdigits2 m' + e' = Zdigits2 m + e).
Proof.
  intros Hm He. destruct (shr_fexp_spec m e l Hm) as [Hm' He'].
  cbv zeta. rewrite Hm', He'. clear Hm' He'.
  set (E := fexp B32.prec B32.emax (Zdigits2 m + e)) in *.
  replace (Z.max 0 (E - e)) with (E - e) by lia.
  replace (e + (E - e)) with E by lia.
  destruct m as [|p|p]; try lia.
  { left. rewrite Z.div_0_l by (apply Z.pow_nonzero; lia).
    split; [reflexivity|]. subst E. simpl Zdigits2 in *.
    rewrite b32_fexp in *. lia. }
  simpl Zdigits2 in *.
  assert (0 < 2 ^ (E - e)) as Hpow by (apply Z.pow_pos_nonneg; lia).
  pose proof (digits_bounds p) as [Hlo Hhi].
  destruct (Z.pos p / 2 ^ (E - e)) as [|q|q] eqn:Hq.
  - left. split; [reflexivity|].
    apply Z.div_small_iff in Hq as [Hq|Hq]; [|lia|lia].
    assert (Zpos (digits2_pos p) - 1 < E - e).
    { apply (Z.pow_lt_mono_r_iff 2); lia. }
    subst E. rewrite b32_fexp in *. lia.
  - right. split; [lia|]. simpl Zdigits2.
    rewrite (digits_div_pow2 p q (E - e)) by lia.
    replace (Zpos (digits2_pos p) - (E - e) + E)
      with (Zpos (digits2_pos p) + e) by lia.
    split; reflexivity.
  - pose proof (Z.div_pos (Zpos p) (2 ^ (E - e))). lia.
Qed.

(** What [binary_round_aux] returns: a zero, a valid finite value whose
    magnitude grew by at most one bit, or an infinity when the magnitude
    is beyond the format. *)
Lemma binary_round_aux_spec s m e l :
  0 <= m -> e <= fexp B32.prec B32.emax (Zdigits2 m + e) ->
  let r := binary_round_aux B32.prec B32.emax s m e l in
  r = S754_zero s \/
  (r = S754_infinity s /\ 127 < Zdigits2 m + e) \/
  (exists m2 e2, r = S754_finite s m2 e2 /\ B32.valid r = true /\
                 Zpos (digits2_pos m2) + e2
                 <= Z.max (Zdigits2 m + e) (-149) + 1).
Proof.
  intros Hm He. cbv zeta. unfold binary_round_aux.
  pose proof (shr_fexp_normal m e l Hm He) as Hc. cbv zeta in Hc.
  destruct (shr_fexp B32.prec B32.emax m e l) as [mrs' e'] eqn:H1.
  simpl fst in Hc. simpl snd in Hc.
  set (m1 := round_nearest_even (shr_m mrs') (loc_of_shr_record mrs')).
  assert (m1 = shr_m mrs' \/ m1 = shr_m mrs' + 1) as Hm1
    by apply round_nearest_even_cases.
  assert (0 <= m1) as Hpos by (destruct Hc as [[? ?]|[? ?]]; lia).
  assert (e' <= fexp B32.prec B32.emax (Zdigits2 m1 + e')) as He1.
  { destruct Hc as [[Hz He']|(Hp & Hcan & _)].
    - subst e'. rewrite b32_fexp. lia.
    - rewrite <- Hcan at 1. apply fexp_mono.
      destruct Hm1 as [->| ->]; [lia|].
      pose proof (Zdigits2_mono (shr_m mrs') (shr_m mrs' + 1)). lia. }
  assert (Zdigits2 m1 + e' <= Z.max (Zdigits2 m + e) (-149) + 1) as Hmag.
  { destruct Hc as [[Hz He']|(Hp & _ & Hd)].
    - rewrite Hz in Hm1. subst e'.
      destruct Hm1 as [->| ->]; simpl; lia.
    - destruct Hm1 as [->| ->]; [lia|].
      pose proof (Zdigits2_succ (shr_m mrs')). lia. }
  pose proof (shr_fexp_normal m1 e' loc_Exact Hpos He1) as Hc2.
  cbv zeta in Hc2.
  destruct (shr_fexp B32.prec B32.emax m1 e' loc_Exact) as [mrs'' e''].
  simpl fst in Hc2. simpl snd in Hc2.
  destruct Hc2 as [[-> _]|(Hp & Hcan & Hd)]; [now left|right].
  destruct (shr_m mrs'') as [|q|q]; try lia. simpl Zdigits2 in *.
  destruct (Z.leb_spec e'' (B32.emax - B32.prec)) as [Hle|Hgt].
  - right. exists q, e''. split; [reflexivity|]. split; [|lia].
    apply valid_finite. split; [exact Hcan|]. exact Hle.
  - left. split; [reflexivity|].
    rewrite b32_fexp in Hcan. unfold B32.emax, B32.prec in Hgt. lia.
Qed.

Lemma binary_round_aux_valid s m e l :
  0 <= m -> e <= fexp B32.prec B32.emax (Zdigits2 m + e) ->
  B32.valid (binary_round_aux B32.prec B32.emax s m e l) = true.
Proof.
  intros Hm He.
  destruct (binary_round_aux_spec s m e l Hm He)
    as [->|[[-> _]|(m2 & e2 & _ & Hv & _)]]; [reflexivity|reflexivity|exact Hv].
Qed.

Lemma iter_xO m d : Zpos (Pos.iter xO m d) = Zpos m * 2 ^ Zpos d.
Proof.
  apply Pos.iter_ind.
  - rewrite Pos2Z.inj_xO. simpl. lia.
  - intros p a Ha. rewrite Pos2Z.inj_xO, Ha, Pos2Z.inj_succ.
    rewrite Z.pow_succ_r by lia. lia.
Qed.

Lemma shl_align_spec m e e' :
  let '(mz, ez) := shl_align m e e' in
  ez = Z.min e e' /\ Zpos mz = Zpos m * 2 ^ (e - ez).
Proof.
  unfold shl_align. destruct (e' - e) as [|p|p] eqn:Hd.
  - split; [lia|]. replace (e - e) with 0 by lia. simpl. lia.
  - split; [lia|]. replace (e - e) with 0 by lia. simpl. lia.
  - split; [lia|]. rewrite iter_xO. f_equal. f_equal. lia.
Qed.

(** [binary_round] returns valid binary32 values. *)
Lemma binary_round_valid s m e :
  B32.valid (binary_round B32.prec B32.emax s m e) = true.
Proof.
  unfold binary_round.
  pose proof (shl_align_spec m e (fexp B32.prec B32.emax (Zpos (digits2_pos m) + e)))
    as Hs.
  destruct (shl_align m e _) as [mz ez]. destruct Hs as [Hez Hmz].
  apply binary_round_aux_valid; [lia|]. simpl Zdigits2.
  rewrite (digits_mul_pow2 m mz (e - ez)) by lia.
  replace (Zpos (digits2_pos m) + (e - ez) + ez) with (Zpos (digits2_pos m) + e) by lia.
  lia.
Qed.

Lemma binary_normalize_valid m e sz :
  B32.valid (binary_normalize B32.prec B32.emax m e sz) = true.
Proof.
  destruct m; simpl; [reflexivity|apply binary_round_valid..].
Qed.

Lemma of_Z_valid z : B32.valid (B32.of_Z z) = true.
Proof. apply binary_normalize_valid. Qed.

Lemma fsub_valid (x y : B32.t) :
  B32.valid x = true -> B32.valid y = true -> B32.valid (fsub x y) = true.
Proof.
  intros Hx Hy. change (fsub x y) with (SFsub B32.prec B32.emax x y).
  destruct x as [sx|sx| |sx mx ex], y as [sy|sy| |sy my ey];
    try reflexivity; try exact Hx; try exact Hy;
    try (simpl; destruct sx, sy; reflexivity).
  apply binary_normalize_valid.
Qed.

Lemma fadd_valid (x y : B32.t) :
  B32.valid x = true -> B32.valid y = true -> B32.valid (fadd x y) = true.
Proof.
  intros Hx Hy. change (fadd x y) with (SFadd B32.prec B32.emax x y).
  destruct x as [sx|sx| |sx mx ex], y as [sy|sy| |sy my ey];
    try reflexivity; try exact Hx; try exact Hy;
    try (simpl; destruct sx, sy; reflexivity).
  apply binary_normalize_valid.
Qed.

Lemma fmul_valid (x y : B32.t) :
  B32.valid x = true -> B32.valid y = true -> B32.valid (fmul x y) = true.
Proof.
  intros Hx Hy. change (fmul x y) with (SFmul B32.prec B32.emax x y).
  destruct x as [sx|sx| |sx mx ex], y as [sy|sy| |sy my ey];
    try reflexivity.
  simpl. apply valid_finite in Hx as [Hx _], Hy as [Hy _].
  apply binary_round_aux_valid; [lia|]. simpl Zdigits2.
  rewrite b32_fexp in *.
  pose proof (digits_bounds mx) as [Hmx _].
  pose proof (digits_bounds my) as [Hmy _].
  pose proof (digits_bounds (mx * my)) as [_ Hxy].
  assert (Zpos (digits2_pos mx) + Zpos (digits2_pos my) - 1
          <= Zpos (digits2_pos (mx * my))) as Hd.
  { destruct (Z.le_gt_cases (Zpos (digits2_pos mx) + Zpos (digits2_pos my) - 1)
                (Zpos (digits2_pos (mx * my)))) as [|Hgt]; [assumption|exfalso].
    assert (2 ^ Zpos (digits2_pos (mx * my))
            <= 2 ^ (Zpos (digits2_pos mx) - 1 + (Zpos (digits2_pos my) - 1)))
      by (apply Z.pow_le_mono_r; lia).
    rewrite Z.pow_add_r in * by lia.
    rewrite Pos2Z.inj_mul in Hxy. nia. }
  lia.
Qed.

(** [SFdiv] returns valid binary32 values. *)
Lemma fdiv_valid (x y : B32.t) :
  B32.valid x = true -> B32.valid y = true -> B32.valid (fdiv x y) = true.
Proof.
  intros Hx Hy. change (fdiv x y) with (SFdiv B32.prec B32.emax x y).
  destruct x as [sx|sx| |sx mx ex], y as [sy|sy| |sy my ey];
    try reflexivity.
  unfold SFdiv, SFdiv_core_binary. cbv zeta. simpl Zdigits2.
  set (E := fexp B32.prec B32.emax
              (Zpos (digits2_pos mx) + ex - (Zpos (digits2_pos my) + ey))).
  set (e' := Z.min E (ex - ey)).
  set (m' := match ex - ey - e' with
             | 0 => Zpos mx
             | Zpos _ => Z.shiftl (Zpos mx) (ex - ey - e')
             | Zneg _ => 0
             end).
  assert (m' = Zpos mx * 2 ^ (ex - ey - e')) as Hm'.
  { subst m'. destruct (ex - ey - e') as [|p|p] eqn:Hs; [simpl; lia| |lia].
    now rewrite Z.shiftl_mul_pow2 by lia. }
  clearbody m'.
  pose proof (Z_div_mod m' (Zpos my) ltac:(lia)) as Hdm.
  destruct (Z.div_eucl m' (Zpos my)) as [q r] eqn:Hqr.
  destruct Hdm as [Hdm Hr].
  assert (0 < 2 ^ (ex - ey - e')) as Hpow
    by (apply Z.pow_pos_nonneg; lia).
  assert (0 <= q) as Hq by nia.
  apply binary_round_aux_valid; [exact Hq|].
  rewrite b32_fexp.
  destruct (Z.le_gt_cases e' (-149)) as [|Hgt]; [lia|].
  (* a normal quotient has at least 24 bits *)
  assert (E = Zpos (digits2_pos mx) + ex - (Zpos (digits2_pos my) + ey) - 24)
    as HE by (subst E e'; rewrite b32_fexp in *; lia).
  pose proof (digits_bounds mx) as [Hlx _].
  pose proof (digits_bounds my) as [_ Hhy].
  assert (2 ^ 23 * 2 ^ Zpos (digits2_pos my) <= m') as Hbig.
  { rewrite Hm', <- Z.pow_add_r by lia.
    apply Z.le_trans
      with (2 ^ (Zpos (digits2_pos mx) - 1) * 2 ^ (ex - ey - e')).
    - rewrite <- Z.pow_add_r by lia. apply Z.pow_le_mono_r; lia.
    - apply Z.mul_le_mono_nonneg_r; lia. }
  assert (2 ^ 23 <= q) as Hq23.
  { assert (0 < 2 ^ Zpos (digits2_pos my)) by (apply Z.pow_pos_nonneg; lia).
    change (2 ^ 23) with 8388608 in *. nia. }
  change (2 ^ 23) with 8388608 in Hq23.
  destruct q as [|p|p]; try lia.
  simpl Zdigits2. pose proof (digits_bounds p) as [_ Hp].
  assert (24 <= Zpos (digits2_pos p)).
  { destruct (Z.le_gt_cases 24 (Zpos (digits2_pos p))) as [|Hlt]; [assumption|].
    assert (2 ^ Zpos (digits2_pos p) <= 2 ^ 23) by (apply Z.pow_le_mono_r; lia).
    change (2 ^ 23) with 8388608 in *. lia. }
  lia.
Qed.

(** A canonical mantissa goes through [shr_fexp] unchanged. *)
Lemma shr_fexp_id m e :
  fexp B32.prec B32.emax (Zpos (digits2_pos m) + e) = e ->
  shr_fexp B32.prec B32.emax (Zpos m) e loc_Exact
  = (Build_shr_record (Zpos m) false false, e).
Proof.
  intros Hc. unfold shr_fexp. simpl Zdigits2. rewrite Hc, Z.sub_diag.
  reflexivity.
Qed.

Lemma binary_round_aux_canonical s m e :
  fexp B32.prec B32.emax (Zpos (digits2_pos m) + e) = e -> e <= 104 ->
  binary_round_aux B32.prec B32.emax s (Zpos m) e loc_Exact
  = S754_finite s m e.
Proof.
  intros Hc He. unfold binary_round_aux. rewrite shr_fexp_id by exact Hc.
  simpl shr_m. simpl loc_of_shr_record. simpl round_nearest_even.
  rewrite shr_fexp_id by exact Hc. simpl shr_m.
  destruct (Z.leb_spec e (B32.emax - B32.prec)) as [|Hgt]; [reflexivity|].
  unfold B32.emax, B32.prec in Hgt. lia.
Qed.

(** Rounding a value that has a canonical representation returns it. *)
Lemma binary_round_exact s M e m' e' :
  e' = fexp B32.prec B32.emax (Zpos (digits2_pos M) + e) -> e' <= 104 ->
  (e' <= e /\ Zpos m' = Zpos M * 2 ^ (e - e')) \/
  (e <= e' /\ Zpos M = Zpos m' * 2 ^ (e' - e)) ->
  binary_round B32.prec B32.emax s M e = S754_finite s m' e'.
Proof.
  intros He' Hmax Hrep. unfold binary_round.
  pose proof (shl_align_spec M e e') as Hs. rewrite <- He'.
  destruct (shl_align M e e') as [mz ez]. destruct Hs as [Hez Hmz].
  destruct Hrep as [[Hle Hm']|[Hle Hm']].
  - (* shifted left to the target exponent *)
    replace ez with e' in * by lia.
    assert (mz = m') as -> by lia.
    apply binary_round_aux_canonical; [|exact Hmax].
    rewrite (digits_mul_pow2 M m' (e - e')) by lia.
    replace (Zpos (digits2_pos M) + (e - e') + e')
      with (Zpos (digits2_pos M) + e) by lia.
    now symmetry.
  - (* shifted right, only zero bits are lost *)
    replace ez with e in * by lia.
    replace (e - e) with 0 in Hmz by lia.
    rewrite Z.pow_0_r, Z.mul_1_r in Hmz. injection Hmz as ->.
    assert (fexp B32.prec B32.emax (Zpos (digits2_pos m') + e') = e') as Hc.
    { rewrite (digits_mul_pow2 m' M (e' - e)) in He' by lia.
      rewrite He' at 2. f_equal. lia. }
    destruct (Z.eq_dec e' e) as [Heq|Hne].
    + rewrite Heq, Z.sub_diag, Z.pow_0_r, Z.mul_1_r in Hm'.
      injection Hm' as ->. rewrite Heq in *.
      now apply binary_round_aux_canonical.
    + unfold binary_round_aux.
      assert (shr_fexp B32.prec B32.emax (Zpos M) e loc_Exact
              = (Build_shr_record (Zpos m') false false, e')) as ->.
      { unfold shr_fexp. simpl Zdigits2. rewrite <- He'. unfold shr.
        cbn [shr_record_of_loc].
        destruct (e' - e) as [|p|p] eqn:Hd; try lia.
        rewrite (iter_shr_exact p (Zpos M) (Zpos m')) by lia.
        f_equal. lia. }
      simpl shr_m. simpl loc_of_shr_record. simpl round_nearest_even.
      rewrite shr_fexp_id by exact Hc. simpl shr_m.
      destruct (Z.leb_spec e' (B32.emax - B32.prec)) as [|Hgt]; [reflexivity|].
      unfold B32.emax, B32.prec in Hgt. lia.
Qed.

(** [int32 -> float] is exact below [2^24]. *)
Lemma of_Z_exact n : 0 < n < 2 ^ 24 -> is_pos_float (B32.of_Z n) (n * 2 ^ 149).
Proof.
  intros Hn. destruct n as [|p|p]; try lia.
  pose proof (digits_bounds p) as [Hlo Hhi].
  set (d := Zpos (digits2_pos p)) in *.
  assert (1 <= d <= 24) as Hd.
  { split; [subst d; lia|].
    destruct (Z.le_gt_cases d 24) as [|Hgt]; [assumption|exfalso].
    assert (2 ^ 24 <= 2 ^ (d - 1)) by (apply Z.pow_le_mono_r; lia). lia. }
  assert (0 < Zpos p * 2 ^ (24 - d)) as Hpos
    by (apply Z.mul_pos_pos; [lia|apply Z.pow_pos_nonneg; lia]).
  destruct (Zpos p * 2 ^ (24 - d)) as [|m'|m'] eqn:Hm'; try lia.
  assert (B32.of_Z (Zpos p) = S754_finite false m' (d - 24)) as Heq.
  { unfold B32.of_Z, binary_normalize.
    apply binary_round_exact.
    - rewrite b32_fexp. fold d. lia.
    - lia.
    - left. split; [lia|]. rewrite <- Hm'. f_equal. f_equal. lia. }
  exists m', (d - 24). split; [exact Heq|]. split.
  - apply of_Z_valid.
  - rewrite <- Hm', <- Z.mul_assoc, <- Z.pow_add_r by lia. f_equal. f_equal. lia.
Qed.

Lemma half_exact : is_pos_float (flit 1 2) (2 ^ 148).
Proof. exists 8388608%positive, (-24). repeat split. Qed.

(** On positive finite values [SFcompare] compares the values. *)
Lemma compare_pos x y Vx Vy :
  is_pos_float x Vx -> is_pos_float y Vy -> SFcompare x y = Some (Vx ?= Vy).
Proof.
  intros Hx Hy.
  destruct Hx as (mx & ex & -> & Hvx & HVx) eqn:Hx'. clear Hx'.
  destruct Hy as (my & ey & -> & Hvy & HVy) eqn:Hy'. clear Hy'.
  apply valid_finite in Hvx as [Hcx Hex], Hvy as [Hcy Hey].
  rewrite b32_fexp in Hcx, Hcy.
  pose proof (digits_bounds mx) as [Hlx Hhx].
  pose proof (digits_bounds my) as [Hly Hhy].
  simpl. f_equal. subst Vx Vy.
  assert (forall m e m' e', e < e' -> Zpos (digits2_pos m) <= 24 ->
            Zpos (digits2_pos m') = 24 -> -149 <= e ->
            Zpos m * 2 ^ (e + 149) < Zpos m' * 2 ^ (e' + 149)) as Hlt.
  { intros m e m' e' Hee Hd Hd' He.
    pose proof (digits_bounds m) as [_ Hm].
    pose proof (digits_bounds m') as [Hm' _]. rewrite Hd' in Hm'.
    assert (2 ^ Zpos (digits2_pos m) <= 2 ^ 24) by (apply Z.pow_le_mono_r; lia).
    assert (2 ^ (e + 149 + 1) <= 2 ^ (e' + 149)) by (apply Z.pow_le_mono_r; lia).
    rewrite Z.pow_add_r in * by lia.
    assert (0 < 2 ^ (e + 149)) by (apply Z.pow_pos_nonneg; lia).
    change (2 ^ (24 - 1)) with 8388608 in *. change (2 ^ 24) with 16777216 in *.
    change (2 ^ 1) with 2 in *. nia. }
  destruct (Z.compare_spec ex ey) as [->|Hee|Hee].
  - rewrite Pos.compare_cont_spec. simpl.
    assert (0 < 2 ^ (ey + 149)) by (apply Z.pow_pos_nonneg; lia).
    destruct (Pos.compare_spec mx my) as [->|Hm|Hm]; symmetry.
    + apply Z.compare_refl.
    + apply Z.compare_lt_iff. nia.
    + apply Z.compare_gt_iff. nia.
  - symmetry. apply Z.compare_lt_iff. apply Hlt; lia.
  - symmetry. apply Z.compare_gt_iff. apply Hlt; lia.
Qed.

(** The floor of a positive finite value. *)
Lemma floor_pos x V : is_pos_float x V -> B32.floor x = V / 2 ^ 149.
Proof.
  intros (m & e & -> & Hv & <-).
  apply valid_finite in Hv as [Hc _]. rewrite b32_fexp in Hc.
  unfold B32.floor. simpl cond_Zopp.
  destruct (Z.leb_spec 0 e) as [He|He].
  - rewrite Z.pow_add_r, Z.mul_assoc by lia.
    now rewrite Z.div_mul by (apply Z.pow_nonzero; lia).
  - replace 149 with (e + 149 + - e) at 2 by lia.
    rewrite (Z.pow_add_r 2 (e + 149) (- e)) by lia.
    rewrite (Z.mul_comm (2 ^ (e + 149)) (2 ^ (- e))).
    rewrite Z.div_mul_cancel_r; try (apply Z.pow_nonzero; lia).
    reflexivity.
Qed.

(** [Clamp] returns a value between its bounds, whatever it is given:
    NaN and [+inf] go to the upper bound, [-inf] to the lower one. *)
Lemma Clamp_range (x lo hi : B32.t) L H :
  B32.valid x = true -> is_pos_float lo L -> is_pos_float hi H -> L <= H ->
  exists V, is_pos_float (Clamp x lo hi) V /\ L <= V <= H.
Proof.
  intros Hx Hlo Hhi HLH. unfold Clamp.
  change (@fltb B32.t binary32) with SFltb.
  destruct (SFltb x lo) eqn:H1; [exists L; split; [exact Hlo|lia]|].
  destruct (SFltb x hi) eqn:H2; [|exists H; split; [exact Hhi|lia]].
  unfold SFltb in H1, H2.
  destruct Hlo as (ml & el & -> & Hvl & HL) eqn:Hlo'.
  destruct Hhi as (mh & eh & -> & Hvh & HH) eqn:Hhi'.
  destruct x as [sx|sx| |sx mx ex]; try discriminate;
    try (destruct sx; discriminate).
  destruct sx; [discriminate|].
  assert (is_pos_float (S754_finite false mx ex) (Zpos mx * 2 ^ (ex + 149)))
    as Hxf by (exists mx, ex; auto).
  rewrite (compare_pos _ _ _ _ Hxf (ex_intro _ ml (ex_intro _ el (conj eq_refl (conj Hvl HL))))) in H1.
  rewrite (compare_pos _ _ _ _ Hxf (ex_intro _ mh (ex_intro _ eh (conj eq_refl (conj Hvh HH))))) in H2.
  exists (Zpos mx * 2 ^ (ex + 149)). split; [exact Hxf|].
  destruct (Z.compare_spec (Zpos mx * 2 ^ (ex + 149)) L);
    destruct (Z.compare_spec (Zpos mx * 2 ^ (ex + 149)) H); try discriminate; lia.
Qed.

(** The upper clamp bound [Nfloat + 0.5f] is exactly [N - 1.5]. *)
Lemma upper_bound_exact N :
  3 <= N <= 2 ^ 23 ->
  is_pos_float (fadd (of_int (N - 2)) (flit 1 2)) ((2 * N - 3) * 2 ^ 148).
Proof.
  intros HN.
  destruct (of_Z_exact (N - 2)) as (m1 & e1 & Heq & Hv & HV); [lia|].
  assert (B32.valid (fadd (of_int (N - 2)) (flit 1 2)) = true) as Hvalid
    by (apply fadd_valid; [apply of_Z_valid|reflexivity]).
  change (of_int (N - 2)) with (B32.of_Z (N - 2)) in *.
  change (flit 1 2) with (S754_finite false 8388608 (-24)) in *.
  change (@fadd B32.t binary32) with (SFadd B32.prec B32.emax) in *.
  rewrite Heq in *. clear Heq.
  apply valid_finite in Hv as [Hc He]. rewrite b32_fexp in Hc.
  pose proof (digits_bounds m1) as [Hlo Hhi].
  (* the exponent of [N - 2 >= 1] is above that of one half *)
  assert (-24 < e1) as He1.
  { destruct (Z.lt_ge_cases (-24) e1) as [|Hge]; [assumption|exfalso].
    assert (2 ^ (e1 + 149) <= 2 ^ 125) by (apply Z.pow_le_mono_r; lia).
    assert (2 ^ Zpos (digits2_pos m1) <= 2 ^ 24)
      by (apply Z.pow_le_mono_r; lia).
    change (2 ^ 149) with (2 ^ 24 * 2 ^ 125) in HV.
    assert (0 < 2 ^ (e1 + 149)) by (apply Z.pow_pos_nonneg; lia).
    assert (0 < 2 ^ 125) by (apply Z.pow_pos_nonneg; lia).
    nia. }
  unfold SFadd in *. cbv zeta in *.
  replace (Z.min e1 (-24)) with (-24) in * by lia.
  pose proof (shl_align_spec m1 e1 (-24)) as Hs.
  destruct (shl_align m1 e1 (-24)) as [a ea]. destruct Hs as [Hea Ha].
  replace ea with (-24) in * by lia.
  change (fst (shl_align 8388608 (-24) (-24))) with 8388608%positive in *.
  simpl fst in *. simpl cond_Zopp in *.
  change (Zpos a + 8388608) with (Zpos (a + 8388608)) in *.
  unfold binary_normalize in *.
  (* the aligned sum is [(2N - 3) * 2^23] *)
  assert (Zpos (a + 8388608) = (2 * N - 3) * 2 ^ 23) as HM.
  { rewrite Pos2Z.inj_add, Ha.
    replace (e1 - -24) with (e1 + 24) by lia.
    assert (Zpos m1 * 2 ^ (e1 + 24) = (N - 2) * 2 ^ 24) as ->; [|lia].
    replace (e1 + 149) with (e1 + 24 + 125) in HV by lia.
    rewrite Z.pow_add_r, Z.mul_assoc in HV by lia.
    change (2 ^ 149) with (2 ^ 24 * 2 ^ 125) in HV.
    rewrite Z.mul_assoc in HV.
    apply Z.mul_reg_r in HV; [exact HV|]. apply Z.pow_nonzero; lia. }
  destruct (2 * N - 3) as [|q|q] eqn:Hq; try lia.
  pose proof (digits_bounds q) as [Hql Hqh].
  set (dq := Zpos (digits2_pos q)) in *.
  assert (1 <= dq <= 24) as Hdq.
  { split; [subst dq; lia|].
    destruct (Z.le_gt_cases dq 24) as [|Hgt]; [assumption|exfalso].
    assert (2 ^ 24 <= 2 ^ (dq - 1)) by (apply Z.pow_le_mono_r; lia). lia. }
  assert (0 < Zpos q * 2 ^ (24 - dq)) as Hpos
    by (apply Z.mul_pos_pos; [lia|apply Z.pow_pos_nonneg; lia]).
  destruct (Zpos q * 2 ^ (24 - dq)) as [|m'|m'] eqn:Hm'; try lia.
  assert (binary_round B32.prec B32.emax false (a + 8388608) (-24)
          = S754_finite false m' (dq - 25)) as Hround.
  { apply binary_round_exact.
    - rewrite (digits_mul_pow2 q (a + 8388608) 23) by (lia || exact HM).
      rewrite b32_fexp. fold dq. lia.
    - lia.
    - right. split; [lia|]. rewrite HM, <- Hm', <- Z.mul_assoc.
      rewrite <- Z.pow_add_r by lia. f_equal. f_equal. lia. }
  rewrite Hround in *.
  exists m', (dq - 25). split; [reflexivity|]. split; [exact Hvalid|].
  rewrite <- Hm', <- Z.mul_assoc, <- Z.pow_add_r by lia. f_equal. f_equal. lia.
Qed.

(** The clamped back-traced coordinate lies in [[0.5, N - 1.5]], and its
    floor in [[0, N - 2]], whatever the velocity and the time step. *)
Lemma backtrace_range N i (dtx v : B32.t) :
  3 <= N <= 2 ^ 23 -> B32.valid dtx = true -> B32.valid v = true ->
  exists V, is_pos_float (backtrace N i dtx v) V /\
            2 ^ 148 <= V <= (2 * N - 3) * 2 ^ 148 /\
            0 <= FloorToInt (backtrace N i dtx v) <= N - 2.
Proof.
  intros HN Hdtx Hv. unfold backtrace.
  destruct (Clamp_range (fsub (of_int i) (fmul dtx v)) (flit 1 2)
              (fadd (of_int (N - 2)) (flit 1 2))
              (2 ^ 148) ((2 * N - 3) * 2 ^ 148)) as (V & HV & Hr).
  - apply fsub_valid; [apply of_Z_valid|now apply fmul_valid].
  - apply half_exact.
  - now apply upper_bound_exact.
  - lia.
  - exists V. split; [exact HV|]. split; [exact Hr|].
    change (@FloorToInt B32.t binary32) with B32.floor.
    rewrite (floor_pos _ V HV). split.
    + apply Z.div_pos; lia.
    + apply Z.lt_succ_r. apply Z.div_lt_upper_bound; [lia|].
      change (2 ^ 149) with (2 * 2 ^ 148). lia.
Qed.

(** ** Zeros and magnitudes in binary32 *)

Lemma below_finite k x : below k x -> is_finite x = true.
Proof. now destruct x. Qed.

Lemma below_le k k' x : k <= k' -> below k x -> below k' x.
Proof. destruct x; simpl; auto. lia. Qed.

Lemma regular_finite x : regular x = true -> is_finite x = true.
Proof. now destruct x. Qed.

(** *** Arithmetic on zeros *)

Lemma fadd_zero (x y : B32.t) :
  is_zero x = true -> is_zero y = true -> is_zero (fadd x y) = true.
Proof. destruct x as [[]| | |], y as [[]| | |]; now try discriminate. Qed.

Lemma fneg_zero (x : B32.t) : is_zero x = true -> is_zero (fneg x) = true.
Proof. now destruct x. Qed.

Lemma fmul_zero_r (c x : B32.t) :
  is_finite c = true -> is_zero x = true -> is_zero (fmul c x) = true.
Proof. destruct c, x; now try discriminate. Qed.

Lemma fmul_zero_l (x c : B32.t) :
  is_zero x = true -> is_finite c = true -> is_zero (fmul x c) = true.
Proof. destruct c, x; now try discriminate. Qed.

Lemma fneg_valid (x : B32.t) : B32.valid x = true -> B32.valid (fneg x) = true.
Proof. now destruct x. Qed.

(** *** Magnitudes *)

Lemma digits_le_of_lt p k : Zpos p < 2 ^ k -> Zpos (digits2_pos p) <= k.
Proof.
  intros Hp. pose proof (digits_bounds p) as [Hlo _].
  destruct (Z.le_gt_cases (Zpos (digits2_pos p)) k) as [|Hgt]; [assumption|].
  destruct (Z.le_gt_cases 0 k) as [Hk|Hk].
  - assert (2 ^ k <= 2 ^ (Zpos (digits2_pos p) - 1))
      by (apply Z.pow_le_mono_r; lia).
    lia.
  - rewrite Z.pow_neg_r in Hp by lia. lia.
Qed.

(** What [binary_round] returns. *)
Lemma binary_round_spec s m e :
  let r := binary_round B32.prec B32.emax s m e in
  r = S754_zero s \/
  (r = S754_infinity s /\ 127 < Zpos (digits2_pos m) + e) \/
  (exists m2 e2, r = S754_finite s m2 e2 /\ B32.valid r = true /\
                 Zpos (digits2_pos m2) + e2
                 <= Z.max (Zpos (digits2_pos m) + e) (-149) + 1).
Proof.
  cbv zeta. unfold binary_round.
  pose proof (shl_align_spec m e (fexp B32.prec B32.emax (Zpos (digits2_pos m) + e)))
    as Hs.
  destruct (shl_align m e _) as [mz ez]. destruct Hs as [Hez Hmz].
  assert (Zdigits2 (Zpos mz) + ez = Zpos (digits2_pos m) + e) as Hd.
  { simpl Zdigits2. rewrite (digits_mul_pow2 m mz (e - ez)) by lia. lia. }
  rewrite <- Hd. apply binary_round_aux_spec; [lia|]. rewrite Hd. lia.
Qed.

(** A difference of two values below [2^k] is below [2^(k+2)]: it does
    not overflow. *)
Lemma fsub_below k (x y : B32.t) :
  -150 <= k <= 125 -> below k x -> below k y -> below (k + 2) (fsub x y).
Proof.
  intros Hk Hx Hy. change (fsub x y) with (SFsub B32.prec B32.emax x y).
  destruct x as [sx|sx| |sx mx ex], y as [sy|sy| |sy my ey];
    try contradiction; simpl in Hx, Hy.
  - now destruct sx, sy.
  - simpl. lia.
  - simpl. lia.
  - unfold SFsub. cbv zeta.
    pose proof (shl_align_spec mx ex (Z.min ex ey)) as Hsx.
    pose proof (shl_align_spec my ey (Z.min ex ey)) as Hsy.
    destruct (shl_align mx ex _) as [mx' ex'].
    destruct (shl_align my ey _) as [my' ey'].
    destruct Hsx as [Hex Hmx], Hsy as [Hey Hmy]. simpl fst.
    set (ez := Z.min ex ey) in *.
    pose proof (digits_bounds mx) as [_ Hbx].
    pose proof (digits_bounds my) as [_ Hby].
    assert (Zpos mx' < 2 ^ (k - ez)) as Hx'.
    { rewrite Hmx. replace ex' with ez by lia.
      apply Z.lt_le_trans with (2 ^ Zpos (digits2_pos mx) * 2 ^ (ex - ez)).
      - apply Z.mul_lt_mono_pos_r; [apply Z.pow_pos_nonneg; lia|exact Hbx].
      - rewrite <- Z.pow_add_r by lia. apply Z.pow_le_mono_r; lia. }
    assert (Zpos my' < 2 ^ (k - ez)) as Hy'.
    { rewrite Hmy. replace ey' with ez by lia.
      apply Z.lt_le_trans with (2 ^ Zpos (digits2_pos my) * 2 ^ (ey - ez)).
      - apply Z.mul_lt_mono_pos_r; [apply Z.pow_pos_nonneg; lia|exact Hby].
      - rewrite <- Z.pow_add_r by lia. apply Z.pow_le_mono_r; lia. }
    assert (0 <= k - ez) as Hkz by lia.
    assert (2 ^ (k + 1 - ez) = 2 * 2 ^ (k - ez)) as Hpow.
    { replace (k + 1 - ez) with (Z.succ (k - ez)) by lia.
      now rewrite Z.pow_succ_r. }
    set (M := cond_Zopp sx (Zpos mx') - cond_Zopp sy (Zpos my')).
    assert (Z.abs M < 2 ^ (k + 1 - ez)) as HM.
    { subst M. rewrite Hpow. destruct sx, sy; simpl; lia. }
    clearbody M.
    assert (forall s p, Zpos p < 2 ^ (k + 1 - ez) ->
              below (k + 2) (binary_round B32.prec B32.emax s p ez)) as Hr.
    { intros s p Hp. apply digits_le_of_lt in Hp.
      destruct (binary_round_spec s p ez)
        as [->|[[_ Hinf]|(m2 & e2 & -> & _ & Hm2)]]; simpl; lia. }
    destruct M as [|p|p]; simpl; [exact I|apply Hr; lia|apply Hr; lia].
Qed.

Lemma is_pos_float_below x V k :
  is_pos_float x V -> V < 2 ^ (k + 149) -> -149 <= k -> below k x.
Proof.
  intros (m & e & -> & Hv & HV) Hlt Hk. simpl.
  apply valid_finite in Hv as [Hc _]. rewrite b32_fexp in Hc.
  pose proof (digits_bounds m) as [Hlo _].
  set (d := Zpos (digits2_pos m)) in *.
  destruct (Z.le_gt_cases (d + e) k) as [|Hgt]; [assumption|exfalso].
  assert (0 <= e + 149) by lia.
  assert (2 ^ (k + 149) <= 2 ^ (d - 1) * 2 ^ (e + 149)).
  { rewrite <- Z.pow_add_r by (subst d; lia). apply Z.pow_le_mono_r; lia. }
  assert (2 ^ (d - 1) * 2 ^ (e + 149) <= Zpos m * 2 ^ (e + 149)).
  { apply Z.mul_le_mono_nonneg_r; [apply Z.pow_nonneg; lia|exact Hlo]. }
  lia.
Qed.

Lemma of_int_below (n : Z) : 0 <= n < 2 ^ 23 -> below 23 (of_int (F:=B32.t) n).
Proof.
  intros Hn. destruct (Z.eq_dec n 0) as [->|Hne]; [exact I|].
  apply (is_pos_float_below _ (n * 2 ^ 149)); [apply of_Z_exact; lia| |lia].
  change (2 ^ (23 + 149)) with (2 ^ 23 * 2 ^ 149).
  apply Z.mul_lt_mono_pos_r; lia.
Qed.

(** The interpolation weights of [Advect] are finite. *)
Lemma weights_finite N i (dtx v : B32.t) :
  3 <= N <= 2 ^ 23 -> B32.valid dtx = true -> B32.valid v = true ->
  let x := backtrace N i dtx v in
  let s1 := fsub x (of_int (FloorToInt x)) in
  is_finite s1 = true /\ is_finite (fsub (of_int 1) s1) = true.
Proof.
  intros HN Hdtx Hv. cbv zeta.
  destruct (backtrace_range N i dtx v HN Hdtx Hv) as (V & HV & Hr & Hfl).
  set (x := backtrace N i dtx v) in *.
  assert (below 23 x) as Hx.
  { apply (is_pos_float_below _ V); [exact HV| |lia].
    change (2 ^ (23 + 149)) with (2 * 2 ^ 23 * 2 ^ 148).
    assert (0 < 2 ^ 148) by lia. nia. }
  assert (below 25 (fsub x (of_int (FloorToInt x)))) as H1.
  { apply (fsub_below 23); [lia|exact Hx|apply of_int_below; lia]. }
  split; [now apply (below_finite 25)|].
  apply (below_finite 27), (fsub_below 25); [lia| |exact H1].
  apply (below_le 23); [lia|]. apply of_int_below. lia.
Qed.

(** ** [Advect] never reads outside the source field *)

Lemma in_clamp_range_of_value N (x : B32.t) V :
  3 <= N <= 2 ^ 23 -> is_pos_float x V ->
  2 ^ 148 <= V <= (2 * N - 3) * 2 ^ 148 -> in_clamp_range N x.
Proof.
  intros HN Hx HV. unfold in_clamp_range, SFleb.
  rewrite (compare_pos _ _ _ _ half_exact Hx).
  rewrite (compare_pos _ _ _ _ Hx (upper_bound_exact N HN)).
  split.
  - destruct (Z.compare_spec (2 ^ 148) V); reflexivity || lia.
  - destruct (Z.compare_spec V ((2 * N - 3) * 2 ^ 148)); reflexivity || lia.
Qed.

Lemma rd_Forall {A : Type} (P : A -> Prop) (x : list A) k v :
  Forall P x -> rd x k = Some v -> P v.
Proof.
  intros Hall Hv. unfold rd in Hv. destruct (k <? 0); [discriminate|].
  eapply Forall_lookup_1; eassumption.
Qed.

Section AdvectBounds.
Variable N : Z.
Hypothesis HN : 3 <= N.
Hypothesis Hint32 : N * N < 2 ^ 31.

Lemma side_fits : 3 <= N <= 2 ^ 23.
Proof. split; [exact HN|]. nia. Qed.

(** One cell of [Advect] succeeds on fields of side [N]. *)
Lemma advect_cell_Some (d d0 velocX velocY : list B32.t) (dtx dty : B32.t) i j :
  length d = Z.to_nat (N * N) -> length d0 = Z.to_nat (N * N) ->
  length velocX = Z.to_nat (N * N) -> length velocY = Z.to_nat (N * N) ->
  Forall (fun v => B32.valid v = true) velocX ->
  Forall (fun v => B32.valid v = true) velocY ->
  B32.valid dtx = true -> B32.valid dty = true ->
  1 <= i <= N - 2 -> 1 <= j <= N - 2 ->
  exists d', advect_cell N d0 velocX velocY dtx dty i j d = Some d' /\
             length d' = length d.
Proof.
  intros Hd Hd0 HvX HvY HallX HallY Hdtx Hdty Hi Hj.
  assert (forall x : list B32.t, length x = Z.to_nat (N * N) ->
          forall a c, 0 <= a < N -> 0 <= c < N ->
                      0 <= IX N a c < Z.of_nat (length x)) as Hin.
  { intros x Hx a c Ha Hc. pose proof (IX_bounds N a c Ha Hc). lia. }
  unfold advect_cell.
  destruct (rd_Some velocX (IX N i j)) as [vx Hvx]; [apply Hin; lia|].
  destruct (rd_Some velocY (IX N i j)) as [vy Hvy]; [apply Hin; lia|].
  rewrite Hvx, Hvy. simpl.
  pose proof (rd_Forall _ _ _ _ HallX Hvx) as Hvalx.
  pose proof (rd_Forall _ _ _ _ HallY Hvy) as Hvaly.
  destruct (backtrace_range N i dtx vx side_fits Hdtx Hvalx) as (_ & _ & _ & Hi0).
  destruct (backtrace_range N j dty vy side_fits Hdty Hvaly) as (_ & _ & _ & Hj0).
  set (i0 := FloorToInt (backtrace N i dtx vx)) in *.
  set (j0 := FloorToInt (backtrace N j dty vy)) in *.
  destruct (rd_Some d0 (IX N i0 j0)) as [v00 ->]; [apply Hin; lia|].
  destruct (rd_Some d0 (IX N i0 (j0 + 1))) as [v01 ->]; [apply Hin; lia|].
  destruct (rd_Some d0 (IX N (i0 + 1) j0)) as [v10 ->]; [apply Hin; lia|].
  destruct (rd_Some d0 (IX N (i0 + 1) (j0 + 1))) as [v11 ->]; [apply Hin; lia|].
  simpl. rewrite wr_Some by (apply Hin; lia).
  eexists. split; [reflexivity|]. apply length_insert.
Qed.
End AdvectBounds.

(** C6: in binary32, for every interior cell and whatever the velocity
    values and [dt] are (infinities and NaN included), the back-traced
    coordinates are clamped into [[0.5, N - 1.5]], the stencil indices
    [i0], [i1 = i0 + 1], [j0], [j1 = j0 + 1] lie in [[0, N - 1]], the four
    reads of [d0] are inside its [N * N] cells, and so [Advect] completes
    without an out-of-range access.  [N * N < 2^31] is the [int32]
    element count of the constructor. *)
Theorem Advect_reads_in_bounds (N b : Z) (d d0 velocX velocY : list B32.t)
    (dt : B32.t) :
  3 <= N -> N * N < 2 ^ 31 ->
  length d = Z.to_nat (N * N) -> length d0 = Z.to_nat (N * N) ->
  length velocX = Z.to_nat (N * N) -> length velocY = Z.to_nat (N * N) ->
  Forall (fun v => B32.valid v = true) velocX ->
  Forall (fun v => B32.valid v = true) velocY ->
  B32.valid dt = true ->
  (forall i j vx vy,
     1 <= i <= N - 2 -> 1 <= j <= N - 2 ->
     rd velocX (IX N i j) = Some vx -> rd velocY (IX N i j) = Some vy ->
     let x := backtrace N i (fmul dt (of_int (N - 2))) vx in
     let y := backtrace N j (fmul dt (of_int (N - 2))) vy in
     let i0 := FloorToInt x in
     let j0 := FloorToInt y in
     in_clamp_range N x /\ in_clamp_range N y /\
     (exists X, is_pos_float x X /\ 2 ^ 148 <= X <= (2 * N - 3) * 2 ^ 148) /\
     (exists Y, is_pos_float y Y /\ 2 ^ 148 <= Y <= (2 * N - 3) * 2 ^ 148) /\
     0 <= i0 /\ i0 + 1 <= N - 1 /\ 0 <= j0 /\ j0 + 1 <= N - 1 /\
     is_Some (rd d0 (IX N i0 j0)) /\ is_Some (rd d0 (IX N i0 (j0 + 1))) /\
     is_Some (rd d0 (IX N (i0 + 1) j0)) /\
     is_Some (rd d0 (IX N (i0 + 1) (j0 + 1)))) /\
  exists d', Advect N b d d0 velocX velocY dt = Some d'.
Proof.
  intros HN Hint Hd Hd0 HvX HvY HallX HallY Hdt.
  pose proof (side_fits N HN Hint) as Hfit.
  assert (B32.valid (fmul dt (of_int (N - 2))) = true) as Hdtx
    by (apply fmul_valid; [exact Hdt|apply of_Z_valid]).
  split.
  - intros i j vx vy Hi Hj Hvx Hvy. cbv zeta.
    pose proof (rd_Forall _ _ _ _ HallX Hvx) as Hvalx.
    pose proof (rd_Forall _ _ _ _ HallY Hvy) as Hvaly.
    destruct (backtrace_range N i _ vx Hfit Hdtx Hvalx) as (X & HX & HXr & Hi0).
    destruct (backtrace_range N j _ vy Hfit Hdtx Hvaly) as (Y & HY & HYr & Hj0).
    assert (forall a c, 0 <= a < N -> 0 <= c < N ->
                        is_Some (rd d0 (IX N a c))) as Hin.
    { intros a c Ha Hc. destruct (rd_Some d0 (IX N a c)) as [v Hv]; [|eauto].
      pose proof (IX_bounds N a c Ha Hc). lia. }
    split; [now apply (in_clamp_range_of_value N _ X)|].
    split; [now apply (in_clamp_range_of_value N _ Y)|].
    split; [now exists X|]. split; [now exists Y|].
    repeat split; try lia; apply Hin; lia.
  - unfold Advect. cbv zeta. rewrite interior_loops.
    edestruct (foldM_inv
                 (fun (_ : list (Z * Z)) (s : list B32.t) =>
                    length s = length d))
      as (d1 & -> & H1); [reflexivity| |].
    + intros _ [i j] s Hij Hs. apply elem_of_interior in Hij.
      destruct (advect_cell_Some N HN Hint s d0 velocX velocY
                  (fmul dt (of_int (N - 2))) (fmul dt (of_int (N - 2))) i j)
        as (s' & Hs' & Hlen); try assumption; try lia; try congruence.
      exists s'. split; [exact Hs'|congruence].
    + simpl. destruct (repr_exists N d1) as [g Hg]; [congruence|].
      destruct (SetBoundary_repr N HN b d1 g Hg) as (d' & Hd' & _).
      now exists d'.
Qed.

Lemma Advect_reads_in_bounds_witness :
  3 <= 3 /\ 3 * 3 < 2 ^ 31 /\
  length (zeroed 3) = Z.to_nat (3 * 3) /\ length sample3 = Z.to_nat (3 * 3) /\
  length sample3 = Z.to_nat (3 * 3) /\ length sample3 = Z.to_nat (3 * 3) /\
  Forall (fun v => B32.valid v = true) sample3 /\
  Forall (fun v => B32.valid v = true) sample3 /\
  B32.valid (flit 101 10) = true /\
  exists d', Advect 3 0 (zeroed 3) sample3 sample3 sample3 (flit 101 10)
             = Some d'.
Proof.
  split; [lia|]. split; [lia|]. do 4 (split; [reflexivity|]).
  assert (Forall (fun v => B32.valid v = true) sample3) as Hall
    by (repeat constructor).
  do 2 (split; [exact Hall|]). split; [reflexivity|].
  refine (proj2 (Advect_reads_in_bounds 3 0 (zeroed 3) sample3 sample3 sample3
           (flit 101 10) _ _ _ _ _ _ Hall Hall _));
    try reflexivity; lia.
Defined.

(** ** Fields that the routines keep well formed *)

(** Invariant rule for the double loop over the interior. *)
Lemma interior_pass_inv {S : Type} (Q : S -> Prop) N
    (body : Z -> Z -> S -> option S) (st : S) :
  Q st ->
  (forall i j s, 1 <= i <= N - 2 -> 1 <= j <= N - 2 -> Q s ->
                 exists s', body i j s = Some s' /\ Q s') ->
  exists s', for_range 1 (N - 1) (fun j st =>
               for_range 1 (N - 1) (fun i st => body i j st) st) st = Some s' /\
             Q s'.
Proof.
  intros H0 Hstep. rewrite interior_loops.
  apply (foldM_inv (fun _ s => Q s)); [exact H0|].
  intros _ [i j] s Hij Hs. apply elem_of_interior in Hij.
  apply Hstep; [lia|lia|exact Hs].
Qed.

Section WellFormedFields.
Context {F : Type} `{Scalar F}.
Variable P : F -> Prop.
Variable N : Z.
Implicit Types (x : list F).

Lemma wf_rd x i j :
  well_formed P N x -> 0 <= i < N -> 0 <= j < N ->
  exists v, rd x (IX N i j) = Some v /\ P v.
Proof.
  intros [Hlen Hall] Hi Hj.
  destruct (rd_Some x (IX N i j)) as [v Hv].
  - pose proof (IX_bounds N i j Hi Hj). lia.
  - exists v. split; [exact Hv|]. eapply rd_Forall; eassumption.
Qed.

Lemma wf_wr x i j v :
  well_formed P N x -> 0 <= i < N -> 0 <= j < N -> P v ->
  exists x', wr x (IX N i j) v = Some x' /\ well_formed P N x'.
Proof.
  intros [Hlen Hall] Hi Hj Hv.
  pose proof (IX_bounds N i j Hi Hj).
  eexists. split; [apply wr_Some; lia|].
  split; [now rewrite length_insert|]. now apply Forall_insert.
Qed.

Lemma wf_log_reads x : well_formed P N x -> log_reads N x = Some x.
Proof. intros [Hlen _]. now apply log_reads_Some. Qed.
End WellFormedFields.

(** Run one read or write of a well-formed field. *)
Tactic Notation "wf_read" constr(Hx) "as" ident(v) ident(Hv) :=
  match type of Hx with
  | well_formed ?p ?n ?x =>
      match goal with
      | |- context [rd x (IX n ?i ?j)] =>
          let Hr := fresh "Hr" in
          destruct (wf_rd p n x i j Hx) as (v & Hr & Hv); [lia|lia|];
          rewrite Hr; clear Hr; simpl
      end
  end.

Tactic Notation "wf_write" constr(Hx) "as" ident(x') ident(Hx')
    "by" tactic3(tac) :=
  match type of Hx with
  | well_formed ?p ?n ?x =>
      match goal with
      | |- context [wr x (IX n ?i ?j) ?v] =>
          let Heq := fresh "Heq" in
          destruct (wf_wr p n x i j v Hx) as (x' & Heq & Hx');
          [lia|lia|solve [tac]|];
          rewrite Heq; clear Heq; simpl
      end
  end.

(** ** The routines keep a class of fields *)

Section Closure.
Context {F : Type} `{Scalar F}.
(** [P] holds of the cells of the fields, [Q] of the coefficients they
    are multiplied by, and [R] of the velocities [Advect] follows. *)
Variables P Q R : F -> Prop.
Hypothesis P_add : forall x y, P x -> P y -> P (fadd x y).
Hypothesis P_neg : forall x, P x -> P (fneg x).
Hypothesis P_scale_l : forall c x, Q c -> P x -> P (fmul c x).
Hypothesis P_scale_r : forall x c, P x -> Q c -> P (fmul x c).
Hypothesis Q_half : Q (flit 1 2).
Variable N : Z.
Hypothesis HN : 3 <= N.
(** The stencil of [Advect] stays on the grid, and its weights are
    coefficients. *)
Hypothesis stencil : forall i dtx v,
  R dtx -> R v -> 0 <= FloorToInt (backtrace N i dtx v) <= N - 2.
Hypothesis weights : forall i dtx v,
  R dtx -> R v ->
  let x := backtrace N i dtx v in
  let s1 := fsub x (of_int (FloorToInt x)) in
  Q s1 /\ Q (fsub (of_int 1) s1).
Implicit Types (x : list F).

Lemma P_flip b k v : P v -> P (if b =? k then fneg v else v).
Proof. intros Hv. destruct (b =? k); auto. Qed.

(** Close a goal [P v] for a value computed from values in [P]. *)
Ltac P_solve :=
  repeat first [assumption | apply P_flip | apply P_neg | apply P_add
               | apply P_scale_l; [assumption|] | apply P_scale_r; [|assumption]].

Lemma SetBoundary_closed b x :
  well_formed P N x ->
  exists x', SetBoundary N b x = Some x' /\ well_formed P N x'.
Proof.
  intros Hx. unfold SetBoundary.
  edestruct (for_range_inv (fun _ s => well_formed P N s) 1 (N - 1))
    as (x1 & -> & H1); [lia|exact Hx| |].
  { intros i s Hi Hs. cbv beta.
    wf_read Hs as v Hv. wf_write Hs as s1 Hs1 by P_solve.
    wf_read Hs1 as w Hw. wf_write Hs1 as s2 Hs2 by P_solve. now exists s2. }
  simpl.
  edestruct (for_range_inv (fun _ s => well_formed P N s) 1 (N - 1))
    as (x2 & -> & H2); [lia|exact H1| |].
  { intros j s Hj Hs. cbv beta.
    wf_read Hs as v Hv. wf_write Hs as s1 Hs1 by P_solve.
    destruct (b =? 1).
    - wf_read Hs1 as w Hw. wf_write Hs1 as s2 Hs2 by P_solve. now exists s2.
    - wf_read Hs1 as w Hw. wf_write Hs1 as s2 Hs2 by P_solve. now exists s2. }
  simpl.
  wf_read H2 as p1 Hp1. wf_read H2 as q1 Hq1. wf_write H2 as x3 H3 by P_solve.
  wf_read H3 as p2 Hp2. wf_read H3 as q2 Hq2. wf_write H3 as x4 H4 by P_solve.
  wf_read H4 as p3 Hp3. wf_read H4 as q3 Hq3. wf_write H4 as x5 H5 by P_solve.
  wf_read H5 as p4 Hp4. wf_read H5 as q4 Hq4. wf_write H5 as x6 H6 by P_solve.
  now exists x6.
Qed.

Lemma relax_closed (x0 : list F) a cRecip i j x :
  well_formed P N x0 -> Q a -> Q cRecip -> well_formed P N x ->
  1 <= i <= N - 2 -> 1 <= j <= N - 2 ->
  exists x', relax N x0 a cRecip i j x = Some x' /\ well_formed P N x'.
Proof.
  intros H0 Ha Hc Hx Hi Hj. unfold relax.
  wf_read H0 as s Hs. wf_read Hx as e He. wf_read Hx as w Hw.
  wf_read Hx as n Hn. wf_read Hx as u Hu.
  wf_write Hx as x' Hx' by P_solve. now exists x'.
Qed.

Lemma LinearSolve_closed b x (x0 : list F) a c :
  well_formed P N x -> well_formed P N x0 -> Q a -> Q (fdiv (of_int 1) c) ->
  exists x', LinearSolve N b x x0 a c = Some x' /\ well_formed P N x'.
Proof.
  intros Hx H0 Ha Hc. unfold LinearSolve. cbv zeta.
  edestruct (for_range_inv (fun _ s => well_formed P N s) 0 N)
    as (x1 & -> & H1); [lia|exact Hx| |].
  { intros t s _ Hs. cbv beta.
    edestruct (interior_pass_inv (fun s => well_formed P N s) N)
      as (s1 & -> & Hs1); [exact Hs| |].
    - intros i j s' Hi Hj Hs'. apply relax_closed; auto.
    - simpl. now apply SetBoundary_closed. }
  simpl. rewrite (wf_log_reads P) by exact H1. now exists x1.
Qed.

Lemma Diffuse_closed b x (x0 : list F) diff dt :
  let a := fmul (fmul (fmul dt diff) (of_int (N - 2))) (of_int (N - 2)) in
  well_formed P N x -> well_formed P N x0 ->
  Q a -> Q (fdiv (of_int 1) (fadd (of_int 1) (fmul (of_int 4) a))) ->
  exists x', Diffuse N b x x0 diff dt = Some x' /\ well_formed P N x'.
Proof.
  intros a Hx H0 Ha Hc. unfold Diffuse. cbv zeta.
  edestruct (LinearSolve_closed b x x0) as (x' & -> & Hx');
    [exact Hx|exact H0|exact Ha|exact Hc|].
  simpl. rewrite (wf_log_reads P) by exact Hx'. now exists x'.
Qed.

Lemma advect_cell_closed (d0 velocX velocY : list F) dtx dty i j d :
  well_formed P N d0 -> well_formed R N velocX -> well_formed R N velocY ->
  R dtx -> R dty -> well_formed P N d ->
  1 <= i <= N - 2 -> 1 <= j <= N - 2 ->
  exists d', advect_cell N d0 velocX velocY dtx dty i j d = Some d' /\
             well_formed P N d'.
Proof.
  intros H0 HvX HvY Hdtx Hdty Hd Hi Hj. unfold advect_cell.
  wf_read HvX as vx Hvx. wf_read HvY as vy Hvy.
  pose proof (stencil i dtx vx Hdtx Hvx) as Hi0.
  pose proof (stencil j dty vy Hdty Hvy) as Hj0.
  destruct (weights i dtx vx Hdtx Hvx) as [Hs1 Hs0].
  destruct (weights j dty vy Hdty Hvy) as [Ht1 Ht0].
  set (i0 := FloorToInt (backtrace N i dtx vx)) in *.
  set (j0 := FloorToInt (backtrace N j dty vy)) in *.
  wf_read H0 as v00 Hv00. wf_read H0 as v01 Hv01.
  wf_read H0 as v10 Hv10. wf_read H0 as v11 Hv11.
  wf_write Hd as d' Hd' by P_solve. now exists d'.
Qed.

Lemma Advect_closed b (d d0 velocX velocY : list F) dt :
  well_formed P N d -> well_formed P N d0 ->
  well_formed R N velocX -> well_formed R N velocY ->
  R (fmul dt (of_int (N - 2))) ->
  exists d', Advect N b d d0 velocX velocY dt = Some d' /\ well_formed P N d'.
Proof.
  intros Hd H0 HvX HvY Hdt. unfold Advect. cbv zeta.
  edestruct (interior_pass_inv (fun s => well_formed P N s) N)
    as (d1 & -> & Hd1); [exact Hd| |].
  - intros i j s Hi Hj Hs. now apply advect_cell_closed.
  - simpl. now apply SetBoundary_closed.
Qed.
End Closure.

Section ProjectClosure.
Context {F : Type} `{Scalar F}.
Variable P : F -> Prop.
Hypothesis P_of_int : forall z, P (of_int z).
Hypothesis P_add : forall x y, P x -> P y -> P (fadd x y).
Hypothesis P_sub : forall x y, P x -> P y -> P (fsub x y).
Hypothesis P_mul : forall x y, P x -> P y -> P (fmul x y).
Hypothesis P_div : forall x y, P x -> P y -> P (fdiv x y).
Hypothesis P_neg : forall x, P x -> P (fneg x).
Variable N : Z.
Hypothesis HN : 3 <= N.

Lemma P_flit n d : P (flit n d).
Proof. apply P_div; apply P_of_int. Qed.

Ltac P_arith :=
  repeat first [assumption | apply P_of_int | apply P_flit | apply P_neg
               | apply P_add | apply P_sub | apply P_mul | apply P_div].

Lemma Project_closed (velocX velocY p div : list F) :
  well_formed P N velocX -> well_formed P N velocY ->
  well_formed P N p -> well_formed P N div ->
  exists vx vy p' div',
    Project N velocX velocY p div = Some (vx, vy, p', div') /\
    well_formed P N vx /\ well_formed P N vy /\
    well_formed P N p' /\ well_formed P N div'.
Proof.
  intros HvX HvY Hp Hdiv. unfold Project.
  pose proof (SetBoundary_closed P P P_add P_neg P_mul (P_flit 1 2) N HN)
    as Hbnd.
  edestruct (interior_pass_inv
               (fun st : list F * list F =>
                  well_formed P N (fst st) /\ well_formed P N (snd st)) N)
    as ([p1 div1] & -> & Hp1 & Hdiv1); [split; [exact Hp|exact Hdiv]| |].
  { intros i j [p0 div0] Hi Hj [Hp0 Hdiv0]. simpl in Hp0, Hdiv0.
    unfold divergence_cell.
    wf_read HvX as e He. wf_read HvX as w Hw.
    wf_read HvY as n Hn. wf_read HvY as s Hs.
    wf_write Hdiv0 as div' Hdiv' by P_arith.
    wf_write Hp0 as p' Hp' by P_arith.
    exists (p', div'). now split. }
  simpl in Hp1, Hdiv1. simpl.
  destruct (Hbnd 0 div1 Hdiv1) as (div2 & -> & Hdiv2). simpl.
  destruct (Hbnd 0 p1 Hp1) as (p2 & -> & Hp2). simpl.
  destruct (LinearSolve_closed P P P_add P_neg P_mul P_mul (P_flit 1 2) N HN
              0 p2 div2 (of_int 1) (of_int 6))
    as (p3 & -> & Hp3); [exact Hp2|exact Hdiv2|P_arith..|]. simpl.
  edestruct (interior_pass_inv
               (fun st : list F * list F =>
                  well_formed P N (fst st) /\ well_formed P N (snd st)) N)
    as ([vx vy] & -> & Hvx & Hvy); [split; [exact HvX|exact HvY]| |].
  { intros i j [vx0 vy0] Hi Hj [Hvx0 Hvy0]. simpl in Hvx0, Hvy0.
    unfold gradient_cell. cbv iota beta.
    wf_read Hvx0 as u Hu. wf_read Hp3 as e He. wf_read Hp3 as w Hw.
    wf_read Hp3 as n Hn. wf_read Hp3 as s Hs.
    wf_write Hvx0 as vx' Hvx' by P_arith. wf_read Hvy0 as v Hv.
    wf_write Hvy0 as vy' Hvy' by P_arith. exists (vx', vy'). now split. }
  simpl in Hvx, Hvy. simpl.
  destruct (Hbnd 1 vx Hvx) as (vx2 & -> & Hvx2). simpl.
  destruct (Hbnd 2 vy Hvy) as (vy2 & -> & Hvy2). simpl.
  now exists vx2, vy2, p3, div2.
Qed.
End ProjectClosure.

(** ** The passes in binary32 *)

(** Close a goal [B32.valid v = true] for a computed [v]. *)
Ltac valid_arith :=
  repeat first [assumption | apply of_Z_valid | apply fadd_valid
               | apply fsub_valid | apply fmul_valid | apply fdiv_valid
               | apply fneg_valid].

Section Binary32Passes.
Variable N : Z.
Hypothesis HN : 3 <= N.
Hypothesis Hint32 : N * N < 2 ^ 31.

Lemma stencil_on_grid i (dtx v : B32.t) :
  B32.valid dtx = true -> B32.valid v = true ->
  0 <= FloorToInt (backtrace N i dtx v) <= N - 2.
Proof.
  intros Hdtx Hv.
  now destruct (backtrace_range N i dtx v (side_fits N HN Hint32) Hdtx Hv)
    as (_ & _ & _ & Hfl).
Qed.

Lemma weights_valid i (dtx v : B32.t) :
  B32.valid dtx = true -> B32.valid v = true ->
  let x := backtrace N i dtx v in
  let s1 := fsub x (of_int (FloorToInt x)) in
  B32.valid s1 = true /\ B32.valid (fsub (of_int 1) s1) = true.
Proof.
  intros Hdtx Hv. cbv zeta.
  assert (B32.valid (backtrace N i dtx v) = true) as Hx.
  { destruct (backtrace_range N i dtx v (side_fits N HN Hint32) Hdtx Hv)
      as (V & (m & e & _ & Hval & _) & _). exact Hval. }
  assert (B32.valid (fsub (backtrace N i dtx v)
                       (of_int (FloorToInt (backtrace N i dtx v)))) = true)
    by (apply fsub_valid; [exact Hx|apply of_Z_valid]).
  split; [assumption|]. apply fsub_valid; [apply of_Z_valid|assumption].
Qed.

Lemma Diffuse_valid b (x x0 : list B32.t) diff dt :
  valid_field N x -> valid_field N x0 ->
  B32.valid diff = true -> B32.valid dt = true ->
  exists x', Diffuse N b x x0 diff dt = Some x' /\ valid_field N x'.
Proof.
  intros Hx H0 Hdiff Hdt.
  apply (Diffuse_closed _ (fun v => B32.valid v = true));
    try assumption; try reflexivity; intros; valid_arith.
Qed.

Lemma Project_valid (velocX velocY p div : list B32.t) :
  valid_field N velocX -> valid_field N velocY ->
  valid_field N p -> valid_field N div ->
  exists vx vy p' div',
    Project N velocX velocY p div = Some (vx, vy, p', div') /\
    valid_field N vx /\ valid_field N vy /\
    valid_field N p' /\ valid_field N div'.
Proof.
  apply Project_closed;
    auto using fadd_valid, fsub_valid, fneg_valid, fmul_valid, fdiv_valid,
               of_Z_valid.
Qed.

Lemma Advect_valid b (d d0 velocX velocY : list B32.t) dt :
  valid_field N d -> valid_field N d0 ->
  valid_field N velocX -> valid_field N velocY -> B32.valid dt = true ->
  exists d', Advect N b d d0 velocX velocY dt = Some d' /\ valid_field N d'.
Proof.
  intros Hd H0 HvX HvY Hdt.
  apply (Advect_closed _ (fun v => B32.valid v = true)
                       (fun v => B32.valid v = true));
    try assumption; try reflexivity;
    auto using fadd_valid, fneg_valid, fmul_valid, stencil_on_grid.
  - exact weights_valid.
  - valid_arith.
Qed.

(** Advection of a zero field gives a zero field, whatever the
    velocity. *)
Lemma Advect_zero_field b (d d0 velocX velocY : list B32.t) dt :
  zero_field N d -> zero_field N d0 ->
  valid_field N velocX -> valid_field N velocY -> B32.valid dt = true ->
  exists d', Advect N b d d0 velocX velocY dt = Some d' /\ zero_field N d'.
Proof.
  intros Hd H0 HvX HvY Hdt.
  apply (Advect_closed _ (fun v => is_finite v = true)
                       (fun v => B32.valid v = true));
    try assumption; try reflexivity;
    auto using fadd_zero, fneg_zero, fmul_zero_r, stencil_on_grid.
  - intros i dtx v Hdtx Hv.
    apply weights_finite; [apply side_fits; assumption|assumption..].
  - valid_arith.
Qed.

End Binary32Passes.

(** ** Exact rational arithmetic *)

Lemma exact_of_int_1 : of_int (F:=Qc) 1 = 1%Qc.
Proof. now apply Qc_is_canon. Qed.

Lemma exact_of_int_0 : of_int (F:=Qc) 0 = 0%Qc.
Proof. now apply Qc_is_canon. Qed.

(** Unfold the scalar operations at [Qc] and decide the equation. *)
Ltac exact_arith :=
  rewrite ?exact_of_int_0, ?exact_of_int_1;
  cbv [fadd fsub fmul fdiv fneg flit exact]; try ring.

(** Over the rationals the product with the reciprocal is the division. *)
Lemma exact_recip (c v : Qc) : fmul v (fdiv (of_int 1) c) = fdiv v c.
Proof. exact_arith. unfold Qcdiv. ring. Qed.

(** Over the rationals a factor multiplied in twice is its square
    multiplied in once. *)
Lemma exact_square (y : Qc) (n : Z) :
  fmul (fmul y (of_int n)) (of_int n) = fmul y (of_int (n ^ 2)).
Proof.
  cbv [fmul of_int exact]. rewrite <- Qcmult_assoc. f_equal.
  apply Qc_is_canon. simpl. rewrite !Qred_correct.
  unfold Qeq. simpl. lia.
Qed.

Lemma exact_lt (x y : Qc) : fltb x y = true <-> (this x < this y)%Q.
Proof.
  cbv [fltb exact]. unfold Qccompare. rewrite Qlt_alt.
  destruct (this x ?= this y)%Q; split; congruence.
Qed.

Lemma exact_this_of_int z : (this (of_int (F:=Qc) z) == inject_Z z)%Q.
Proof. apply Qred_correct. Qed.

Lemma exact_this_half : (this (flit (F:=Qc) 1 2) == 1 # 2)%Q.
Proof. reflexivity. Qed.

Lemma exact_floor_of_int z : FloorToInt (of_int (F:=Qc) z) = z.
Proof. cbv [FloorToInt exact]. rewrite exact_this_of_int. apply Qfloor_Z. Qed.

(** An interior coordinate is inside the clamping interval. *)
Lemma exact_clamp_of_int N i :
  1 <= i <= N - 2 ->
  Clamp (of_int (F:=Qc) i) (flit 1 2) (fadd (of_int (N - 2)) (flit 1 2))
  = of_int i.
Proof.
  intros Hi. unfold Clamp.
  destruct (fltb (of_int i) (flit 1 2)) eqn:Hlo.
  - apply exact_lt in Hlo. rewrite exact_this_of_int, exact_this_half in Hlo.
    unfold Qlt in Hlo. simpl in Hlo. lia.
  - destruct (fltb (of_int i) (fadd (of_int (N - 2)) (flit 1 2))) eqn:Hhi;
      [reflexivity|].
    exfalso. apply not_true_iff_false in Hhi. apply Hhi. apply exact_lt.
    rewrite exact_this_of_int.
    change (this (fadd (of_int (N - 2)) (flit 1 2)))
      with (Qred (this (of_int (F:=Qc) (N - 2)) + this (flit (F:=Qc) 1 2))).
    rewrite Qred_correct, exact_this_of_int, exact_this_half.
    unfold Qlt. simpl. lia.
Qed.

(** With no velocity the back-traced coordinate is the cell's own. *)
Lemma exact_backtrace_still N i (dtx : Qc) :
  1 <= i <= N - 2 -> backtrace N i dtx (of_int 0) = of_int i.
Proof.
  intros Hi. unfold backtrace.
  replace (fsub (of_int i) (fmul dtx (of_int 0))) with (of_int (F:=Qc) i)
    by exact_arith.
  now apply exact_clamp_of_int.
Qed.

(** ** [Advect] through a still fluid *)

Section StillAdvect.
Context {F : Type} `{Scalar F}.
Variable N : Z.
Hypothesis HN : 3 <= N.
Variables (d0 velocX velocY : list F) (g0 : Z -> Z -> F) (dt : F).
Hypothesis H0 : repr N d0 g0.
(** Every interior cell receives its own source value. *)
Hypothesis cell_still : forall i j (d : list F) g,
  repr N d g -> 1 <= i <= N - 2 -> 1 <= j <= N - 2 ->
  exists d', advect_cell N d0 velocX velocY (fmul dt (of_int (N - 2)))
               (fmul dt (of_int (N - 2))) i j d = Some d' /\
             repr N d' (upd g i j (g0 i j)).

(** The double loop of [Advect] copies the interior of [d0] into [d]
    and leaves the other cells of [d] alone. *)
Lemma advect_loops_still (d : list F) g :
  repr N d g ->
  exists d1,
    for_range 1 (N - 1) (fun j d =>
      for_range 1 (N - 1) (fun i d =>
        advect_cell N d0 velocX velocY (fmul dt (of_int (N - 2)))
                    (fmul dt (of_int (N - 2))) i j d) d) d = Some d1 /\
    repr N d1 (fun a c => if decide ((a, c) ∈ interior N)
                          then g0 a c else g a c).
Proof.
  intros Hg. rewrite interior_loops.
  edestruct (foldM_inv
    (fun done s => repr N s (fun a c => if decide ((a, c) ∈ done)
                                        then g0 a c else g a c)))
    as (d1 & Hd1 & H1); [| |exists d1; split; [exact Hd1|exact H1]].
  { eapply repr_ext; [exact Hg|]. intros i j _ _.
    rewrite decide_False; [reflexivity|]. apply not_elem_of_nil. }
  intros done [i j] s' Hij Hs'. apply elem_of_interior in Hij.
  destruct (cell_still i j s' _ Hs') as (s'' & Hs'' & Hr); [lia|lia|].
  exists s''. split; [exact Hs''|].
  eapply repr_ext; [exact Hr|]. intros a c _ _. unfold upd.
  destruct (decide (a = i /\ c = j)) as [[-> ->]|Hne].
  - rewrite decide_True; [reflexivity|].
    apply elem_of_app. right. now left.
  - destruct (decide ((a, c) ∈ done)) as [Hin|Hnin].
    + rewrite decide_True; [reflexivity|]. apply elem_of_app. now left.
    + rewrite decide_False; [reflexivity|].
      intros [Hin|Hin%list_elem_of_singleton]%elem_of_app; [auto|].
      injection Hin. auto.
Qed.

(** [Advect] then returns what [SetBoundary] makes of [d0]. *)
Lemma Advect_still b (d : list F) :
  length d = Z.to_nat (N * N) ->
  exists d', Advect N b d d0 velocX velocY dt = Some d' /\
             SetBoundary N b d0 = Some d' /\
             forall i j, 1 <= i <= N - 2 -> 1 <= j <= N - 2 ->
                         rd d' (IX N i j) = rd d0 (IX N i j).
Proof.
  intros Hd. destruct (repr_exists N d Hd) as [g Hg].
  unfold Advect. cbv zeta.
  destruct (advect_loops_still d g Hg) as (d1 & Hd1 & H1).
  match goal with
  | |- exists _, ?m ≫= _ = _ /\ _ =>
      replace m with (Some d1) by (symmetry; exact Hd1)
  end.
  simpl.
  destruct (SetBoundary_repr N HN b d1 _ H1) as (d' & Hd' & Hr').
  destruct (SetBoundary_repr N HN b d0 _ H0) as (e & He & Hre).
  (* both boundaries are computed from the interior of [d0] *)
  assert (forall i j, 0 <= i < N -> 0 <= j < N ->
            boundary N b (fun a c => if decide ((a, c) ∈ interior N)
                                     then g0 a c else g a c) i j =
            boundary N b g0 i j) as Hb.
  { intros i j Hi Hj.
    edestruct (boundary_ext N HN b) as [[Hi' Hj']|Heq];
      [|exact Hi|exact Hj| |exact Heq].
    - intros a c Ha Hc. cbv beta.
      rewrite decide_True; [reflexivity|]. apply elem_of_interior. lia.
    - rewrite !boundary_interior by lia.
      rewrite decide_True; [reflexivity|]. apply elem_of_interior. lia. }
  assert (d' = e) as ->.
  { apply (repr_inj N d' e (boundary N b g0)); [lia| |exact Hre].
    eapply repr_ext; [exact Hr'|]. exact Hb. }
  exists e. split; [exact Hd'|]. split; [exact He|].
  intros i j Hi Hj.
  rewrite (repr_rd N e _ i j Hre), (repr_rd N d0 _ i j H0) by lia.
  now rewrite boundary_interior by lia.
Qed.
End StillAdvect.

(** *** In exact arithmetic *)

Section ExactAdvect.
Variable N : Z.
Hypothesis HN : 3 <= N.
Implicit Types (d : list Qc) (g : Z -> Z -> Qc).

Lemma zeroed_repr : repr N (zeroed (F:=Qc) N) (fun _ _ => of_int 0).
Proof. apply repr_replicate. Qed.

Lemma advect_cell_still (d0 : list Qc) (g0 : Z -> Z -> Qc) (dtx dty : Qc)
    i j d g :
  repr N d0 g0 -> repr N d g -> 1 <= i <= N - 2 -> 1 <= j <= N - 2 ->
  exists d', advect_cell N d0 (zeroed N) (zeroed N) dtx dty i j d = Some d' /\
             repr N d' (upd g i j (g0 i j)).
Proof.
  intros H0 Hd Hi Hj. unfold advect_cell.
  pose proof zeroed_repr as Hz.
  rd_step Hz.
  rewrite !exact_backtrace_still, !exact_floor_of_int by lia.
  rd_step H0. rd_step H0. rd_step H0. rd_step H0.
  wr_step Hd as d' Hd'. exists d'. split; [reflexivity|].
  eapply repr_ext; [exact Hd'|]. intros a c _ _. unfold upd.
  case_decide; [|reflexivity]. exact_arith.
Qed.

(** Over the exact rationals [Advect] through zero velocity returns
    [SetBoundary b d0] for every [d0] and every [dt]. *)
Lemma Advect_zero_velocity_exact b d (d0 : list Qc) (dt : Qc) :
  length d = Z.to_nat (N * N) -> length d0 = Z.to_nat (N * N) ->
  exists d', Advect N b d d0 (zeroed N) (zeroed N) dt = Some d' /\
             SetBoundary N b d0 = Some d' /\
             forall i j, 1 <= i <= N - 2 -> 1 <= j <= N - 2 ->
                         rd d' (IX N i j) = rd d0 (IX N i j).
Proof.
  intros Hd H0. destruct (repr_exists N d0 H0) as [g0 Hg0].
  apply (Advect_still N HN d0 (zeroed N) (zeroed N) g0 dt Hg0); [|exact Hd].
  intros i j s g Hs Hi Hj. now apply advect_cell_still.
Qed.
End ExactAdvect.

(** *** In binary32 *)

(** Rounding a mantissa whose low bits are zero shifts them out. *)
Lemma binary_round_aux_shift s M e m' e' :
  fexp B32.prec B32.emax (Zpos (digits2_pos m') + e') = e' -> e' <= 104 ->
  e <= e' -> Zpos M = Zpos m' * 2 ^ (e' - e) ->
  binary_round_aux B32.prec B32.emax s (Zpos M) e loc_Exact
  = S754_finite s m' e'.
Proof.
  intros Hc Hmax Hle Hm'.
  destruct (Z.eq_dec e' e) as [Heq|Hne].
  - rewrite Heq, Z.sub_diag, Z.pow_0_r, Z.mul_1_r in Hm'.
    injection Hm' as ->. rewrite Heq in *.
    now apply binary_round_aux_canonical.
  - unfold binary_round_aux.
    assert (shr_fexp B32.prec B32.emax (Zpos M) e loc_Exact
            = (Build_shr_record (Zpos m') false false, e')) as ->.
    { unfold shr_fexp. simpl Zdigits2.
      rewrite (digits_mul_pow2 m' M (e' - e)) by lia.
      replace (Zpos (digits2_pos m') + (e' - e) + e)
        with (Zpos (digits2_pos m') + e') by lia.
      rewrite Hc. unfold shr. cbn [shr_record_of_loc].
      destruct (e' - e) as [|p|p] eqn:Hd; try lia.
      rewrite (iter_shr_exact p (Zpos M) (Zpos m')) by lia.
      f_equal. lia. }
    simpl shr_m. simpl loc_of_shr_record. simpl round_nearest_even.
    rewrite shr_fexp_id by exact Hc. simpl shr_m.
    destruct (Z.leb_spec e' (B32.emax - B32.prec)) as [|Hgt]; [reflexivity|].
    unfold B32.emax, B32.prec in Hgt. lia.
Qed.

(** [1.0f * v] is [v]. *)
Lemma fmul_one_l (v : B32.t) : regular v = true -> fmul (of_int 1) v = v.
Proof.
  intros Hv. change (fmul (of_int 1) v)
    with (SFmul B32.prec B32.emax (S754_finite false 8388608 (-23)) v).
  destruct v as [[]| | |s m e]; try discriminate; [reflexivity|].
  apply (proj1 (valid_finite s m e)) in Hv as [Hc He].
  unfold SFmul. simpl xorb.
  apply binary_round_aux_shift; [exact Hc|exact He|lia|].
  replace (e - (-23 + e)) with 23 by lia. rewrite Pos2Z.inj_mul.
  change (2 ^ 23) with 8388608. lia.
Qed.

(** Adding a zero changes nothing. *)
Lemma fadd_zero_r (v z : B32.t) :
  regular v = true -> is_zero z = true -> fadd v z = v.
Proof.
  destruct v as [[]| | |s m e], z as [[]| | |]; now try discriminate.
Qed.

Lemma fsub_zero_r (x z : B32.t) V :
  is_pos_float x V -> is_zero z = true -> fsub x z = x.
Proof.
  intros (m & e & -> & _) Hz. destruct z; now try discriminate.
Qed.

Lemma fsub_diag (x : B32.t) V :
  is_pos_float x V -> fsub x x = S754_zero false.
Proof.
  intros (m & e & -> & _). change (fsub ?a ?b) with (SFsub B32.prec B32.emax a b).
  unfold SFsub. cbv zeta. now rewrite Z.sub_diag.
Qed.

(** Bilinear interpolation with weights [(1, 0)] along both axes
    returns the first corner. *)
Lemma interpolate_still (v00 v01 v10 v11 : B32.t) :
  let one := of_int (F:=B32.t) 1 in
  let zero := S754_zero false in
  regular v00 = true -> regular v01 = true ->
  regular v10 = true -> regular v11 = true ->
  fadd (fmul one (fadd (fmul one v00) (fmul zero v01)))
       (fmul zero (fadd (fmul one v10) (fmul zero v11))) = v00.
Proof.
  intros one zero H00 H01 H10 H11. subst one.
  assert (forall v, regular v = true -> is_zero (fmul zero v) = true) as Hz.
  { intros v Hv. apply fmul_zero_l; [reflexivity|now apply regular_finite]. }
  rewrite (fmul_one_l v00), (fmul_one_l v10) by assumption.
  rewrite (fadd_zero_r v00), (fadd_zero_r v10) by auto.
  rewrite fmul_one_l by assumption.
  apply fadd_zero_r; auto.
Qed.

Section StillBinary32.
Variable N : Z.
Hypothesis HN : 3 <= N <= 2 ^ 23.

(** An interior coordinate is inside the clamping interval. *)
Lemma Clamp_interior i :
  1 <= i <= N - 2 ->
  Clamp (of_int (F:=B32.t) i) (flit 1 2) (fadd (of_int (N - 2)) (flit 1 2))
  = of_int i.
Proof.
  intros Hi. unfold Clamp. change (@fltb B32.t binary32) with SFltb.
  assert (is_pos_float (of_int i) (i * 2 ^ 149)) as Hx
    by (apply of_Z_exact; lia).
  unfold SFltb.
  rewrite (compare_pos _ _ _ _ Hx half_exact).
  rewrite (compare_pos _ _ _ _ Hx (upper_bound_exact N HN)).
  destruct (Z.compare_spec (i * 2 ^ 149) (2 ^ 148)) as [| |_]; try lia.
  destruct (Z.compare_spec (i * 2 ^ 149) ((2 * N - 3) * 2 ^ 148)); lia || reflexivity.
Qed.

(** With no velocity and a finite time step the back-traced coordinate
    is the cell's own. *)
Lemma backtrace_still i (dtx v : B32.t) :
  1 <= i <= N - 2 -> is_finite dtx = true -> is_zero v = true ->
  backtrace N i dtx v = of_int i /\
  FloorToInt (backtrace N i dtx v) = i /\
  fsub (backtrace N i dtx v) (of_int i) = S754_zero false.
Proof.
  intros Hi Hdtx Hv. unfold backtrace.
  assert (is_pos_float (of_int i) (i * 2 ^ 149)) as Hx
    by (apply of_Z_exact; lia).
  rewrite (fsub_zero_r _ _ _ Hx) by now apply fmul_zero_r.
  rewrite Clamp_interior by exact Hi.
  split; [reflexivity|]. split.
  - change (@FloorToInt B32.t binary32) with B32.floor.
    rewrite (floor_pos _ _ Hx). apply Z.div_mul. lia.
  - apply (fsub_diag _ _ Hx).
Qed.
End StillBinary32.

Section StillBinary32Cell.
Variable N : Z.
Hypothesis HN : 3 <= N <= 2 ^ 23.

Lemma advect_cell_still_binary32 (d0 velocX velocY : list B32.t)
    (g0 : Z -> Z -> B32.t) (dtx dty : B32.t) i j (d : list B32.t) g :
  repr N d0 g0 -> regular_field N d0 ->
  zero_field N velocX -> zero_field N velocY ->
  is_finite dtx = true -> is_finite dty = true ->
  repr N d g -> 1 <= i <= N - 2 -> 1 <= j <= N - 2 ->
  exists d', advect_cell N d0 velocX velocY dtx dty i j d = Some d' /\
             repr N d' (upd g i j (g0 i j)).
Proof.
  intros H0 Hreg HvX HvY Hdtx Hdty Hd Hi Hj.
  assert (forall a c, 0 <= a < N -> 0 <= c < N -> regular (g0 a c) = true)
    as Hg0.
  { intros a c Ha Hc. destruct (wf_rd _ N d0 a c Hreg Ha Hc) as (v & Hv & Hr).
    rewrite (repr_rd N d0 _ a c H0) in Hv by lia. now injection Hv as ->. }
  unfold advect_cell.
  wf_read HvX as vx Hvx. wf_read HvY as vy Hvy.
  destruct (backtrace_still N HN i dtx vx Hi Hdtx Hvx) as (_ & Hfi & Hsi).
  destruct (backtrace_still N HN j dty vy Hj Hdty Hvy) as (_ & Hfj & Hsj).
  rewrite Hfi, Hfj, Hsi, Hsj.
  rd_step H0. rd_step H0. rd_step H0. rd_step H0.
  wr_step Hd as d' Hd'. exists d'. split; [reflexivity|].
  eapply repr_ext; [exact Hd'|]. intros a c _ _. unfold upd.
  case_decide; [|reflexivity].
  change (fsub (of_int 1) (S754_zero false)) with (of_int (F:=B32.t) 1).
  apply interpolate_still; apply Hg0; lia.
Qed.
End StillBinary32Cell.

(** C7, amended: in binary32, for a source field [d0] of side [N >= 3]
    whose cells are finite and none of them the negative zero, velocities
    that are zero in every cell, and a finite [dt * (N - 2)], [Advect]
    returns what [SetBoundary b] makes of [d0]: every interior cell of the
    result holds the value of [d0], and the boundary cells are the ones
    [SetBoundary] derives from that interior (not those of [d0]). *)
Theorem Advect_zero_velocity (N b : Z) (d d0 velocX velocY : list B32.t)
    (dt : B32.t) :
  3 <= N -> N * N < 2 ^ 31 ->
  length d = Z.to_nat (N * N) -> regular_field N d0 ->
  zero_field N velocX -> zero_field N velocY ->
  is_finite (fmul dt (of_int (N - 2))) = true ->
  exists d', Advect N b d d0 velocX velocY dt = Some d' /\
             SetBoundary N b d0 = Some d' /\
             forall i j, 1 <= i <= N - 2 -> 1 <= j <= N - 2 ->
                         rd d' (IX N i j) = rd d0 (IX N i j).
Proof.
  intros HN Hint Hd Hreg HvX HvY Hdt.
  destruct (repr_exists N d0 (proj1 Hreg)) as [g0 H0].
  apply (Advect_still N HN d0 velocX velocY g0 dt H0); [|exact Hd].
  intros i j s g Hs Hi Hj.
  now apply (advect_cell_still_binary32 N (side_fits N HN Hint) d0 velocX velocY).
Qed.

Lemma Advect_zero_velocity_witness :
  3 <= 4 /\ 4 * 4 < 2 ^ 31 /\ length sample4 = Z.to_nat (4 * 4) /\
  regular_field 4 sample4 /\ zero_field 4 (zeroed 4) /\
  is_finite (fmul (F:=B32.t) (flit 101 10) (of_int (4 - 2))) = true /\
  exists d', Advect 4 0 sample4 sample4 (zeroed 4) (zeroed 4) (flit 101 10)
               = Some d' /\
             SetBoundary 4 0 sample4 = Some d' /\
             forall i j, 1 <= i <= 4 - 2 -> 1 <= j <= 4 - 2 ->
                         rd d' (IX 4 i j) = rd sample4 (IX 4 i j).
Proof.
  assert (regular_field 4 sample4) as Hreg
    by (split; [reflexivity|repeat constructor]).
  assert (zero_field 4 (zeroed 4)) as Hz
    by (split; [reflexivity|repeat constructor]).
  split; [lia|]. split; [lia|]. split; [reflexivity|].
  split; [exact Hreg|]. split; [exact Hz|]. split; [reflexivity|].
  apply (Advect_zero_velocity 4 0 sample4 sample4 (zeroed 4) (zeroed 4)
           (flit 101 10)); try assumption; try reflexivity; lia.
Defined.

(** C7 fails on the code at the boundary: advecting [corner3] through
    zero velocity returns the all-zero field, which differs from
    [corner3] at the corner cell [(0, 0)]. *)
Lemma Advect_resets_boundary :
  exists d', Advect 3 0 (zeroed 3) corner3 (zeroed 3) (zeroed 3) (flit 1 10)
               = Some d' /\
             rd corner3 (IX 3 0 0) = Some (of_int 1) /\
             rd d' (IX 3 0 0) = Some (of_int 0) /\
             d' <> corner3.
Proof.
  eexists. split; [vm_compute; reflexivity|].
  repeat split; try (vm_compute; reflexivity).
  intros Heq. vm_compute in Heq. discriminate Heq.
Qed.

(** ** One Gauss-Seidel pass *)

Section GaussSeidelPass.
Context {F : Type} `{Scalar F}.
Variable N : Z.
Variable scale : F -> F.
Variable a : F.
Implicit Types (g h : Z -> Z -> F).

Lemma update_pass_repr (x0 x : list F) g0 g :
  repr N x0 g0 -> repr N x g ->
  exists y h,
    for_range 1 (N - 1) (fun j x =>
      for_range 1 (N - 1) (fun i x =>
        update_cell N scale x0 a i j x) x) x = Some y /\
    repr N y h /\
    (forall i j, (i, j) ∉ interior N -> h i j = g i j) /\
    (forall i j, (i, j) ∈ interior N -> h i j = relaxed scale a g0 g h i j).
Proof.
  intros H0 Hx. rewrite interior_loops.
  edestruct (foldM_inv_prefix
    (fun done s => exists h, repr N s h /\
       (forall i j, (i, j) ∉ done -> h i j = g i j) /\
       (forall i j, (i, j) ∈ done -> h i j = relaxed scale a g0 g h i j))
    (fun '(i, j) st => update_cell N scale x0 a i j st)
    (interior N) x)
    as (y & Hy & h & Hh & Hout & Hin).
  - exists g. split; [exact Hx|]. split; [reflexivity|].
    intros i j Hij. now apply elem_of_nil in Hij.
  - intros done [i j] rest s Hsplit (h & Hs & Hout & Hin).
    assert ((i, j) ∈ interior N) as Hij
      by (rewrite Hsplit; apply elem_of_app; right; now left).
    apply elem_of_interior in Hij.
    pose proof (interior_before N done i j rest) as Hbefore.
    assert ((i, j) ∉ done) as Hself
      by (intros Hd; apply (Hbefore _ _ Hsplit) in Hd; lia).
    assert ((i + 1, j) ∉ done) as Heast
      by (intros Hd; apply (Hbefore _ _ Hsplit) in Hd; lia).
    assert ((i, j + 1) ∉ done) as Hnorth
      by (intros Hd; apply (Hbefore _ _ Hsplit) in Hd; lia).
    cbv beta iota. unfold update_cell.
    rd_step H0. rd_step Hs. rd_step Hs. rd_step Hs. rd_step Hs.
    wr_step Hs as s' Hs'.
    exists s'. split; [reflexivity|].
    eexists. split; [exact Hs'|].
    rewrite (Hout _ _ Heast), (Hout _ _ Hnorth).
    split.
    + intros a' c' Hnot. unfold upd. rewrite decide_False.
      * apply Hout. intros Hd. apply Hnot, elem_of_app. now left.
      * intros [-> ->]. apply Hnot, elem_of_app. right. now left.
    + intros a' c' Hd. unfold relaxed, upd.
      rewrite (decide_False (P := a' - 1 = i /\ c' = j)).
      2: { intros [Ha ->]. replace a' with (i + 1) in Hd by lia.
           apply elem_of_app in Hd as [Hd|Hd%list_elem_of_singleton];
             [now apply Heast|]. injection Hd. lia. }
      rewrite (decide_False (P := a' = i /\ c' - 1 = j)).
      2: { intros [-> Hc]. replace c' with (j + 1) in Hd by lia.
           apply elem_of_app in Hd as [Hd|Hd%list_elem_of_singleton];
             [now apply Hnorth|]. injection Hd. lia. }
      case_decide as Heq.
      * destruct Heq as [-> ->]. reflexivity.
      * apply elem_of_app in Hd as [Hd|Hd%list_elem_of_singleton].
        -- apply Hin, Hd.
        -- injection Hd as -> ->. now contradiction Heq.
  - exists y, h. split; [exact Hy|]. auto.
Qed.

(** The double loop over the interior is a Gauss-Seidel pass. *)
Lemma update_pass (x0 x : list F) :
  length x0 = Z.to_nat (N * N) -> length x = Z.to_nat (N * N) ->
  exists y,
    for_range 1 (N - 1) (fun j x =>
      for_range 1 (N - 1) (fun i x =>
        update_cell N scale x0 a i j x) x) x = Some y /\
    gauss_seidel_pass N scale x0 a x y.
Proof.
  intros Hlen0 Hlen.
  destruct (repr_exists N x0 Hlen0) as [g0 H0].
  destruct (repr_exists N x Hlen) as [g Hx].
  destruct (update_pass_repr x0 x g0 g H0 Hx) as (y & h & Hy & Hh & Hout & Hin).
  exists y. split; [exact Hy|]. split; [|split].
  - destruct Hh, Hx. congruence.
  - intros i j Hi Hj Hnot.
    rewrite (repr_rd N y h), (repr_rd N x g) by assumption.
    f_equal. apply Hout. now rewrite elem_of_interior.
  - intros i j Hi Hj. do 5 eexists.
    rewrite (repr_rd N x0 g0), !(repr_rd N x g), !(repr_rd N y h)
      by (assumption || lia).
    repeat (split; [reflexivity|]). f_equal.
    apply Hin. now apply elem_of_interior.
Qed.

(** A pass determines the field it leaves: the cells are fixed one after
    the other in storage order, each from cells of [x] and from cells
    fixed before it. *)
Lemma gauss_seidel_pass_functional (x0 x y y' : list F) :
  0 < N -> length x = Z.to_nat (N * N) ->
  gauss_seidel_pass N scale x0 a x y -> gauss_seidel_pass N scale x0 a x y' ->
  y = y'.
Proof.
  intros HN Hlen (Hl & Hout & Hin) (Hl' & Hout' & Hin').
  apply rd_ext; [congruence|].
  rewrite Hl, Hlen, Z2Nat.id by nia.
  assert (forall m k, 0 <= k < N * N -> k <= m -> rd y k = rd y' k) as Hall;
    [|intros k Hk; now apply (Hall k)].
  intros m. induction m as [m IH] using (well_founded_induction
    (Z.lt_wf 0)). intros k Hk Hkm.
  assert (exists i j, k = IX N i j /\ 0 <= i < N /\ 0 <= j < N)
    as (i & j & -> & Hi & Hj).
  { exists (k mod N), (k / N). split; [|split].
    - unfold IX. pose proof (Z.div_mod k N). lia.
    - apply Z.mod_pos_bound. lia.
    - split; [apply Z.div_pos; lia|apply Z.div_lt_upper_bound; lia]. }
  destruct (decide (1 <= i <= N - 2 /\ 1 <= j <= N - 2)) as [[Hi' Hj']|Hnot].
  - destruct (Hin _ _ Hi' Hj')
      as (s & e & w & n & u & Hs & He & Hw & Hn & Hu & Hy).
    destruct (Hin' _ _ Hi' Hj')
      as (s' & e' & w' & n' & u' & Hs' & He' & Hw' & Hn' & Hu' & Hy').
    assert (rd y (IX N (i - 1) j) = rd y' (IX N (i - 1) j)) as Hwest
      by (apply (IH (IX N i j - 1)); unfold IX in *; nia).
    assert (rd y (IX N i (j - 1)) = rd y' (IX N i (j - 1))) as Hsouth
      by (apply (IH (IX N i j - 1)); unfold IX in *; nia).
    rewrite Hy, Hy'. congruence.
  - rewrite (Hout _ _ Hi Hj Hnot), (Hout' _ _ Hi Hj Hnot). reflexivity.
Qed.
End GaussSeidelPass.

(** ** Claims about [LinearSolve], [Diffuse] and [Project] *)

Section RefinementClaims.
Context {F : Type} `{Scalar F}.
Variable N : Z.
Implicit Types (x p div velocX velocY : list F) (a c diff dt : F).

(** A sweep of a field of [N * N] cells leaves a field of [N * N]
    cells, and only one. *)
Lemma gauss_seidel_sweep_functional scale b (x0 : list F) a x x1 x2 :
  3 <= N -> length x = Z.to_nat (N * N) ->
  gauss_seidel_sweep N scale b x0 a x x1 ->
  gauss_seidel_sweep N scale b x0 a x x2 ->
  x1 = x2 /\ length x1 = Z.to_nat (N * N).
Proof.
  intros HN Hlen (y1 & Hp1 & Hb1) (y2 & Hp2 & Hb2).
  assert (y1 = y2) as <-
    by (apply (gauss_seidel_pass_functional N scale a x0 x); (lia || assumption)).
  split; [congruence|].
  assert (length y1 = Z.to_nat (N * N)) as Hleny
    by (destruct Hp1 as [Hl _]; congruence).
  destruct (repr_exists N y1 Hleny) as [g Hg].
  destruct (SetBoundary_repr N HN b y1 g Hg) as (x' & Hx' & Hr).
  assert (x' = x1) as <- by congruence. apply Hr.
Qed.

(** So do any number of sweeps. *)
Lemma gauss_seidel_sweeps_functional scale b (x0 : list F) a k x x1 x2 :
  3 <= N -> length x = Z.to_nat (N * N) ->
  nsteps (gauss_seidel_sweep N scale b x0 a) k x x1 ->
  nsteps (gauss_seidel_sweep N scale b x0 a) k x x2 ->
  x1 = x2.
Proof.
  intros HN Hlen H1. revert x2 Hlen.
  induction H1 as [x|k x y x1 Hxy _ IH]; intros x2 Hlen H2.
  - now inversion H2.
  - inversion H2 as [|? ? y' ? Hxy' Hrest]; subst.
    destruct (gauss_seidel_sweep_functional scale b x0 a x y y' HN Hlen Hxy Hxy')
      as [<- Hleny].
    now apply IH.
Qed.

(** [k] iterations of the outer loop are [k] sweeps. *)
Lemma sweeps_iter scale b (x0 : list F) a (k : nat) x :
  3 <= N ->
  length x0 = Z.to_nat (N * N) -> length x = Z.to_nat (N * N) ->
  exists x',
    Nat.iter k (fun os => s ← os;
                  s ← for_range 1 (N - 1) (fun j x =>
                         for_range 1 (N - 1) (fun i x =>
                           update_cell N scale x0 a i j x) x) s;
                  SetBoundary N b s) (Some x) = Some x' /\
    length x' = Z.to_nat (N * N) /\
    nsteps (gauss_seidel_sweep N scale b x0 a) k x x'.
Proof.
  intros HN Hlen0 Hlen. induction k as [|k IH].
  - exists x. split; [reflexivity|]. split; [exact Hlen|constructor].
  - destruct IH as (x1 & Hx1 & Hlen1 & Hsteps).
    destruct (update_pass N scale a x0 x1 Hlen0 Hlen1) as (y & Hy & Hpass).
    assert (length y = Z.to_nat (N * N)) as Hleny
      by (destruct Hpass as [Hl _]; congruence).
    destruct (repr_exists N y Hleny) as [g Hg].
    destruct (SetBoundary_repr N HN b y g Hg) as (x2 & Hx2 & Hr).
    exists x2. split; [|split].
    + simpl. rewrite Hx1. simpl.
      match goal with
      | |- ?m ≫= _ = _ => replace m with (Some y) by (symmetry; exact Hy)
      end.
      exact Hx2.
    + apply Hr.
    + eapply nsteps_r; [exact Hsteps|]. exists y. now split.
Qed.

(** The solver of the specification makes [N] sweeps. *)
Lemma solve_by_sweeps scale b x (x0 : list F) a :
  3 <= N -> length x = Z.to_nat (N * N) -> length x0 = Z.to_nat (N * N) ->
  exists x', solve_by N scale b x x0 a = Some x' /\
             nsteps (gauss_seidel_sweep N scale b x0 a) (Z.to_nat N) x x'.
Proof.
  intros HN Hlen Hlen0. unfold solve_by.
  rewrite (for_range_iter N
    (fun s => s ← for_range 1 (N - 1) (fun j x =>
                     for_range 1 (N - 1) (fun i x =>
                       update_cell N scale x0 a i j x) x) s;
              SetBoundary N b s)).
  destruct (sweeps_iter scale b x0 a (Z.to_nat N) x HN Hlen0 Hlen)
    as (x' & Hx' & Hlen' & Hsteps).
  exists x'. split; [exact Hx'|exact Hsteps].
Qed.

(** [LinearSolve] is that solver with the update of line 271, followed
    by the diagnostic reads. *)
Lemma LinearSolve_solve_by b x (x0 : list F) a c :
  LinearSolve N b x x0 a c
  = x' ← solve_by N (times_reciprocal c) b x x0 a; log_reads N x'.
Proof. reflexivity. Qed.

(** C4, amended: on fields of side [N >= 3], [LinearSolve] makes exactly
    [N] sweeps, whatever the values; each sweep passes over the interior
    cells in place, giving each cell
    [(x0[i,j] + a*(x[i+1,j] + x[i-1,j] + x[i,j+1] + x[i,j-1])) * (1/c)]
    with the already-updated west and south neighbours, and is followed
    by one [SetBoundary b].  The last operation is the product with the
    rounded reciprocal of [c], not the division by [c]. *)
Theorem LinearSolve_refines b x (x0 : list F) a c :
  3 <= N ->
  length x = Z.to_nat (N * N) -> length x0 = Z.to_nat (N * N) ->
  exists x', LinearSolve N b x x0 a c = Some x' /\
             nsteps (gauss_seidel_sweep N (times_reciprocal c) b x0 a)
                    (Z.to_nat N) x x'.
Proof.
  intros HN Hlen Hlen0. rewrite LinearSolve_solve_by.
  destruct (solve_by_sweeps (times_reciprocal c) b x x0 a HN Hlen Hlen0)
    as (x' & Hx' & Hsteps).
  exists x'. split; [|exact Hsteps].
  assert (length x' = Z.to_nat (N * N)) as Hlen'.
  { clear Hx'. revert Hsteps. generalize (Z.to_nat N).
    intros k Hsteps. revert Hlen.
    induction Hsteps as [x|k x y x' Hxy _ IH]; intros Hlen; [exact Hlen|].
    apply IH.
    now destruct (gauss_seidel_sweep_functional _ b x0 a x y y HN Hlen Hxy Hxy). }
  rewrite Hx'. simpl. now apply log_reads_Some.
Qed.

(** C9: [Diffuse] computes [a = dt * diff * (N-2)^2], the square being
    the factor [N-2] multiplied in twice, and is
    [LinearSolve b x x0 a (1 + 4*a)]; its own trailing loop reads cells
    that [LinearSolve] has already read and changes nothing. *)
Theorem Diffuse_refines b x (x0 : list F) diff dt :
  Diffuse N b x x0 diff dt = Diffuse_spec N b x x0 diff dt.
Proof.
  unfold Diffuse, Diffuse_spec. cbv zeta.
  set (a := fmul (fmul (fmul dt diff) (of_int (N - 2))) (of_int (N - 2))).
  destruct (LinearSolve N b x x0 a _) as [x'|] eqn:Hx'; [|reflexivity].
  simpl. unfold LinearSolve in Hx'. cbv zeta in Hx'.
  match type of Hx' with
  | ?m ≫= _ = _ => destruct m as [x1|]; [|discriminate]
  end.
  simpl in Hx'. pose proof (log_reads_inv N _ _ Hx') as ->. exact Hx'.
Qed.


Lemma divergence_cell_split velocX velocY i j p div :
  divergence_cell N velocX velocY i j (p, div) =
  div' ← set_divergence N velocX velocY (i, j) div;
  p' ← set_zero N (i, j) p; Some (p', div').
Proof.
  unfold divergence_cell, set_divergence, set_zero.
  repeat match goal with
         | |- context [rd ?y ?k] => destruct (rd y k); simpl; [|reflexivity]
         end.
  reflexivity.
Qed.

Lemma gradient_cell_split p i j velocX velocY :
  gradient_cell N p i j (velocX, velocY) =
  vx ← subtract_gradient_x N p (i, j) velocX;
  vy ← subtract_gradient_y N p (i, j) velocY; Some (vx, vy).
Proof.
  unfold gradient_cell, subtract_gradient_x, subtract_gradient_y.
  repeat match goal with
         | |- context [rd ?y ?k] => destruct (rd y k); simpl; [|reflexivity]
         end.
  reflexivity.
Qed.

(** C5: [Project] computes the divergence into [div] and zeroes [p] over
    the interior, applies [SetBoundary 0] to [div] then [p], runs
    [LinearSolve 0 p div 1 6], subtracts the pressure gradient from
    [velocX] and [velocY] over the interior, and applies [SetBoundary 1]
    to [velocX] then [SetBoundary 2] to [velocY]. *)
Theorem Project_refines velocX velocY p div :
  Project N velocX velocY p div = Project_spec N velocX velocY p div.
Proof.
  unfold Project, Project_spec. rewrite interior_loops.
  rewrite (foldM_ext _
    (fun ij '(p, div) => div' ← set_divergence N velocX velocY ij div;
                         p' ← set_zero N ij p; Some (p', div'))).
  2: { intros [i j] [p' div'] _. apply divergence_cell_split. }
  rewrite foldM_split_swap.
  destruct (foldM (set_divergence N velocX velocY) _ div) as [div1|];
    [|reflexivity]. simpl.
  destruct (foldM (set_zero N) _ p) as [p1|]; [|reflexivity]. simpl.
  destruct (SetBoundary N 0 div1) as [div2|]; [|reflexivity]. simpl.
  destruct (SetBoundary N 0 p1) as [p2|]; [|reflexivity]. simpl.
  destruct (LinearSolve N 0 p2 div2 _ _) as [p3|]; [|reflexivity]. simpl.
  rewrite interior_loops.
  rewrite (foldM_ext _
    (fun ij '(vx, vy) => vx' ← subtract_gradient_x N p3 ij vx;
                         vy' ← subtract_gradient_y N p3 ij vy;
                         Some (vx', vy'))).
  2: { intros [i j] [vx vy] _. apply gradient_cell_split. }
  rewrite foldM_split.
  destruct (foldM (subtract_gradient_x N p3) _ velocX) as [vx1|];
    [|reflexivity]. simpl.
  destruct (foldM (subtract_gradient_y N p3) _ velocY) as [vy1|];
    reflexivity.
Qed.
End RefinementClaims.

Lemma LinearSolve_refines_witness :
  3 <= 4 /\ length sample4 = Z.to_nat (4 * 4) /\
  length ring4 = Z.to_nat (4 * 4) /\
  exists x', LinearSolve 4 0 sample4 ring4 (of_int 1) (of_int 6) = Some x' /\
             nsteps (gauss_seidel_sweep 4 (times_reciprocal (of_int 6)) 0
                       ring4 (of_int 1))
                    (Z.to_nat 4) sample4 x'.
Proof.
  split; [lia|]. split; [reflexivity|]. split; [reflexivity|].
  apply (LinearSolve_refines 4 0 sample4 ring4 (of_int 1) (of_int 6));
    [lia|reflexivity|reflexivity].
Defined.

(** C4 fails on the code in binary32: at the call [Project] makes,
    [a = 1] and [c = 6], on the 3x3 field [sample3], the centre cell that
    [LinearSolve] leaves differs in its last bits from the one that [N]
    sweeps with the division by [c] leave, so the field [LinearSolve]
    returns is not reached by those sweeps. *)
Lemma LinearSolve_does_not_divide :
  (exists x', LinearSolve 3 0 sample3 sample3 (of_int 1) (of_int 6) = Some x' /\
              rd x' (IX 3 1 1) = Some (S754_finite false 13592654 (-22))) /\
  (exists y', nsteps (gauss_seidel_sweep 3 (divide_by (of_int 6)) 0
                        sample3 (of_int 1)) (Z.to_nat 3) sample3 y' /\
              rd y' (IX 3 1 1) = Some (S754_finite false 13592651 (-22))) /\
  ~ (exists x', LinearSolve 3 0 sample3 sample3 (of_int 1) (of_int 6) = Some x' /\
                nsteps (gauss_seidel_sweep 3 (divide_by (of_int 6)) 0
                          sample3 (of_int 1)) (Z.to_nat 3) sample3 x').
Proof.
  destruct (solve_by_sweeps 3 (divide_by (of_int 6)) 0 sample3 sample3
              (of_int 1)) as (y' & Hy' & Hsteps);
    [lia|reflexivity|reflexivity|].
  vm_compute in Hy'. injection Hy' as <-.
  split; [|split].
  - eexists. split; vm_compute; reflexivity.
  - eexists. split; [exact Hsteps|reflexivity].
  - intros (x' & Hx' & Hsteps').
    assert (x' = _) as Heq
      by (apply (gauss_seidel_sweeps_functional 3 _ 0 sample3 (of_int 1)
                   (Z.to_nat 3) sample3 _ _ ltac:(lia) eq_refl Hsteps' Hsteps)).
    subst x'. vm_compute in Hx'. discriminate Hx'.
Qed.

(** ** Claims about [StepSimulation], evaluated in binary32 *)

(** C2, at the freshly constructed 4x4 actor: when line 169 is reached,
    [Vx0] and [Vy0] (the source and carrier arguments of both velocity
    [Advect] calls) hold the pressure and divergence that [Project] left
    in them, not the projected velocity in [Vx] and [Vy]. *)
Theorem velocity_advection_reads_scratch :
  exists vx vy Vx0 Vy0,
    (s ← inject grid4; velocity_before_advection s)
      = Some (vx, vy, Vx0, Vy0) /\
    rd vx (IX 4 1 1) = Some (S754_finite false 15872301 (-31)) /\
    rd Vx0 (IX 4 1 1) = Some (S754_finite true 8845342 (-37)) /\
    rd vy (IX 4 1 1) = Some (S754_finite false 11621102 (-36)) /\
    rd Vy0 (IX 4 1 1) = Some (S754_finite true 10498847 (-34)) /\
    Vx0 <> vx /\ Vy0 <> vy.
Proof.
  do 4 eexists. split; [vm_compute; reflexivity|].
  repeat split; try (vm_compute; reflexivity);
    intros Heq; vm_compute in Heq; discriminate Heq.
Qed.

(** ** What [SetBoundary] reads and writes *)

Section BoundaryFrame.
Context {F : Type} `{Scalar F}.
Variable N : Z.
Hypothesis HN : 3 <= N.
Implicit Types (x y : list F).

(** Fields that agree on the interior have the same grid there. *)
Lemma repr_interior_eq x y g g' :
  repr N x g -> repr N y g' ->
  (forall i j, 1 <= i <= N - 2 -> 1 <= j <= N - 2 ->
               rd x (IX N i j) = rd y (IX N i j)) ->
  forall i j, 1 <= i <= N - 2 -> 1 <= j <= N - 2 -> g i j = g' i j.
Proof.
  intros Hx Hy Heq i j Hi Hj. specialize (Heq i j Hi Hj).
  rewrite (repr_rd N x g), (repr_rd N y g') in Heq by (assumption || lia).
  now injection Heq.
Qed.

(** X1: [SetBoundary] writes the boundary ring only: the field keeps its
    length and every interior cell keeps its value. *)
Theorem SetBoundary_keeps_interior b x :
  length x = Z.to_nat (N * N) ->
  exists x', SetBoundary N b x = Some x' /\ length x' = length x /\
             forall i j, 1 <= i <= N - 2 -> 1 <= j <= N - 2 ->
                         rd x' (IX N i j) = rd x (IX N i j).
Proof.
  intros Hlen. destruct (repr_exists N x Hlen) as [g Hg].
  destruct (SetBoundary_repr N HN b x g Hg) as (x' & Hx' & Hr).
  exists x'. split; [exact Hx'|]. split; [destruct Hr; congruence|].
  intros i j Hi Hj.
  rewrite (repr_rd N x' _ i j Hr), (repr_rd N x g i j Hg) by lia.
  now rewrite boundary_interior by lia.
Qed.

(** Two fields with the same interior go to the same field. *)
Lemma SetBoundary_interior_ext b x y :
  length x = Z.to_nat (N * N) -> length y = Z.to_nat (N * N) ->
  (forall i j, 1 <= i <= N - 2 -> 1 <= j <= N - 2 ->
               rd x (IX N i j) = rd y (IX N i j)) ->
  SetBoundary N b x = SetBoundary N b y /\ is_Some (SetBoundary N b x).
Proof.
  intros Hx Hy Heq.
  destruct (repr_exists N x Hx) as [g Hg].
  destruct (repr_exists N y Hy) as [g' Hg'].
  pose proof (repr_interior_eq x y g g' Hg Hg' Heq) as Hint.
  destruct (SetBoundary_repr N HN b x g Hg) as (x' & Hx' & Hr).
  destruct (SetBoundary_repr N HN b y g' Hg') as (y' & Hy' & Hr').
  rewrite Hx', Hy'. split; [|eauto]. f_equal.
  apply (repr_inj N x' y' (boundary N b g')); [lia| |exact Hr'].
  eapply repr_ext; [exact Hr|]. intros i j Hi Hj.
  destruct (boundary_ext N HN b g g' i j Hint Hi Hj) as [[Hi' Hj']|Hb];
    [|exact Hb].
  rewrite !boundary_interior by lia. now apply Hint.
Qed.

(** The field [SetBoundary] returns is one it leaves alone. *)
Lemma SetBoundary_fixed b x :
  length x = Z.to_nat (N * N) ->
  exists x', SetBoundary N b x = Some x' /\ length x' = Z.to_nat (N * N) /\
             SetBoundary N b x' = Some x'.
Proof.
  intros Hlen. destruct (repr_exists N x Hlen) as [g Hg].
  destruct (SetBoundary_repr N HN b x g Hg) as (x' & Hx' & Hr).
  destruct (SetBoundary_repr N HN b x' _ Hr) as (x'' & Hx'' & Hr').
  exists x'. split; [exact Hx'|]. split; [apply Hr|].
  rewrite Hx''. f_equal.
  apply (repr_inj N x'' x' (boundary N b g)); [lia| |exact Hr].
  eapply repr_ext; [exact Hr'|]. intros i j Hi Hj.
  now apply boundary_idem.
Qed.
(** X2: [SetBoundary] reads the interior only: what the boundary ring
    held before the call has no influence on the result. *)
Theorem SetBoundary_reads_interior b x y :
  length x = Z.to_nat (N * N) -> length y = Z.to_nat (N * N) ->
  (forall i j, 1 <= i <= N - 2 -> 1 <= j <= N - 2 ->
               rd x (IX N i j) = rd y (IX N i j)) ->
  exists x', SetBoundary N b x = Some x' /\ SetBoundary N b y = Some x'.
Proof.
  intros Hx Hy Heq.
  destruct (SetBoundary_interior_ext b x y Hx Hy Heq) as [Hxy [x' Hx']].
  exists x'. split; [exact Hx'|]. now rewrite <- Hxy.
Qed.
End BoundaryFrame.

(** X4: [SetBoundary] on a field of side [N >= 0] stays inside the array
    exactly when [N >= 2]: on the empty and the one-cell field the first
    corner assignment reads [x[IX(1, 0)]], which does not exist. *)
Theorem SetBoundary_side {F : Type} `{Scalar F} (N b : Z) (x : list F) :
  0 <= N -> length x = Z.to_nat (N * N) ->
  is_Some (SetBoundary N b x) <-> 2 <= N.
Proof.
  intros HN Hlen. split.
  - intros [x' Hx']. destruct (Z.le_gt_cases 2 N) as [|Hlt]; [assumption|].
    exfalso. unfold SetBoundary in Hx'.
    rewrite for_range_nil in Hx' by lia. simpl in Hx'.
    rewrite for_range_nil in Hx' by lia. simpl in Hx'.
    assert (rd x (IX N 1 0) = None) as Hnone.
    { unfold rd, IX. simpl. apply lookup_ge_None_2. rewrite Hlen. nia. }
    rewrite Hnone in Hx'. discriminate Hx'.
  - intros H2. destruct (Z.eq_dec N 2) as [->|Hne].
    + destruct x as [|p [|q [|r [|t [|]]]]]; try discriminate Hlen.
      unfold SetBoundary, for_range, IX. simpl.
      destruct (b =? 1); simpl; eauto.
    + destruct (repr_exists N x Hlen) as [g Hg].
      destruct (SetBoundary_repr N ltac:(lia) b x g Hg) as (x' & -> & _).
      eauto.
Qed.

(** ** The solver routines stay inside their arrays *)

Section Sized.
Context {F : Type} `{Scalar F}.
Variable N : Z.
Hypothesis HN : 3 <= N.
Implicit Types (x y : list F).

Lemma sized_well_formed x :
  length x = Z.to_nat (N * N) <-> well_formed (fun _ => True) N x.
Proof.
  split; [|now intros [Hlen _]]. intros Hlen. split; [exact Hlen|].
  apply Forall_forall. auto.
Qed.

(** One interior pass of [LinearSolve] on fields of [N * N] cells. *)
Lemma relax_pass_sized (x0 : list F) a cRecip x :
  length x0 = Z.to_nat (N * N) -> length x = Z.to_nat (N * N) ->
  exists y,
    for_range 1 (N - 1) (fun j x =>
      for_range 1 (N - 1) (fun i x => relax N x0 a cRecip i j x) x) x
    = Some y /\ length y = Z.to_nat (N * N).
Proof.
  intros H0 Hx.
  apply (interior_pass_inv (fun s => length s = Z.to_nat (N * N)));
    [exact Hx|].
  intros i j s Hi Hj Hs.
  destruct (relax_closed (fun _ => True) (fun _ => True)
              ltac:(auto) ltac:(auto) ltac:(auto) N x0 a cRecip i j s)
    as (s' & Hs' & Hwf); try (now apply sized_well_formed); auto.
  exists s'. split; [exact Hs'|]. now apply sized_well_formed.
Qed.

Lemma LinearSolve_sized b x (x0 : list F) a c :
  length x = Z.to_nat (N * N) -> length x0 = Z.to_nat (N * N) ->
  exists x', LinearSolve N b x x0 a c = Some x' /\
             length x' = Z.to_nat (N * N) /\
             SetBoundary N b x' = Some x'.
Proof.
  intros Hx H0. unfold LinearSolve. cbv zeta.
  destruct (for_range_inv
              (fun t s => length s = Z.to_nat (N * N) /\
                          (0 < t -> SetBoundary N b s = Some s)) 0 N
              (fun _ x =>
                 x ← for_range 1 (N - 1) (fun j x =>
                        for_range 1 (N - 1) (fun i x =>
                          relax N x0 a (fdiv (of_int 1) c) i j x) x) x;
                 SetBoundary N b x) x)
    as (x1 & Hx1 & Hlen1 & Hfix); [lia|split; [exact Hx|lia]| |].
  { intros t s Ht [Hs _]. cbv beta.
    destruct (relax_pass_sized x0 a (fdiv (of_int 1) c) s H0 Hs)
      as (y & Hy & Hleny).
    destruct (SetBoundary_fixed N HN b y Hleny) as (s' & Hs' & Hlen' & Hfix).
    exists s'. split; [|split; [exact Hlen'|intros _; exact Hfix]].
    match goal with
    | |- ?m ≫= _ = _ => replace m with (Some y) by (symmetry; exact Hy)
    end.
    exact Hs'. }
  exists x1. split; [|split; [exact Hlen1|apply Hfix; lia]].
  match goal with
  | |- ?m ≫= _ = _ => replace m with (Some x1) by (symmetry; exact Hx1)
  end.
  simpl. now apply log_reads_Some.
Qed.

Lemma Diffuse_sized b x (x0 : list F) diff dt :
  length x = Z.to_nat (N * N) -> length x0 = Z.to_nat (N * N) ->
  exists x', Diffuse N b x x0 diff dt = Some x' /\
             length x' = Z.to_nat (N * N) /\
             SetBoundary N b x' = Some x'.
Proof.
  intros Hx H0. unfold Diffuse. cbv zeta.
  destruct (LinearSolve_sized b x x0
              (fmul (fmul (fmul dt diff) (of_int (N - 2))) (of_int (N - 2)))
              (fadd (of_int 1)
                 (fmul (of_int 4)
                    (fmul (fmul (fmul dt diff) (of_int (N - 2)))
                          (of_int (N - 2))))) Hx H0)
    as (x' & -> & Hlen & Hfix).
  exists x'. split; [|now split]. simpl. now apply log_reads_Some.
Qed.
(** X5: [LinearSolve] on fields of [N * N] cells makes no out-of-range
    access, whatever the values and the coefficients (a zero [c]
    included), and returns a field of [N * N] cells that satisfies the
    boundary conditions of kind [b]: [SetBoundary b] leaves it as it
    is. *)
Theorem LinearSolve_in_bounds b x (x0 : list F) a c :
  length x = Z.to_nat (N * N) -> length x0 = Z.to_nat (N * N) ->
  exists x', LinearSolve N b x x0 a c = Some x' /\
             length x' = Z.to_nat (N * N) /\
             SetBoundary N b x' = Some x'.
Proof.
  intros Hx H0.
  destruct (LinearSolve_sized b x x0 a c Hx H0) as (x' & Hx' & Hlen & Hfix).
  exists x'. split; [exact Hx'|]. split; [exact Hlen|exact Hfix].
Qed.
End Sized.

(** Two runs of a pass, from related states, end in related states or
    fail together. *)
Lemma foldM_rel {S A : Type} (R : list A -> S -> S -> Prop)
    (f g : A -> S -> option S) (l : list A) (s s' : S) :
  R [] s s' ->
  (forall done a t t', a ∈ l -> R done t t' ->
     option_Forall2 (R (done ++ [a])) (f a t) (g a t')) ->
  option_Forall2 (R l) (foldM f l s) (foldM g l s').
Proof.
  intros H0 Hstep.
  enough (forall done t t', R done t t' -> (forall a, a ∈ l -> a ∈ l) ->
            option_Forall2 (R (done ++ l)) (foldM f l t) (foldM g l t'))
    as Hgen by (apply (Hgen [] s s' H0); auto).
  revert Hstep. generalize l at 1 3 as l0. intros l0 Hstep.
  induction l as [|a l IH]; intros done t t' Ht Hin.
  - simpl. rewrite app_nil_r. now constructor.
  - simpl.
    destruct (Hstep done a t t' (Hin a ltac:(left)) Ht) as [u u' Hu|];
      simpl; [|constructor].
    replace (done ++ a :: l) with ((done ++ [a]) ++ l)
      by now rewrite <- app_assoc.
    apply IH; [exact Hu|]. intros a' Ha'. apply Hin. now right.
Qed.

(** Writing one value at one index of two arrays of the same length
    succeeds on both or on neither, and adds that index to the ones
    where they agree. *)
Lemma wr_agree {A : Type} (x y : list A) k v (Q : Z -> Prop) :
  length x = length y ->
  (forall k', Q k' -> rd x k' = rd y k') ->
  option_Forall2 (fun x' y' => length x' = length x /\ length y' = length y /\
                    forall k', Q k' \/ k' = k -> rd x' k' = rd y' k')
                 (wr x k v) (wr y k v).
Proof.
  intros Hlen Hagree.
  destruct (decide (0 <= k < Z.of_nat (length x))) as [Hk|Hk].
  - rewrite !wr_Some by lia. constructor. rewrite !length_insert.
    split; [reflexivity|]. split; [reflexivity|]. intros k' HQ.
    destruct (Z.ltb_spec k' 0) as [Hneg|Hpos].
    { unfold rd. now destruct (Z.ltb_spec k' 0); [|lia]. }
    rewrite (rd_wr x k v (<[Z.to_nat k := v]> x) k'),
            (rd_wr y k v (<[Z.to_nat k := v]> y) k')
      by (try apply wr_Some; lia).
    destruct (decide (k' = k)) as [|Hne]; [reflexivity|].
    apply Hagree. destruct HQ; [assumption|contradiction].
  - assert (wr x k v = None) as ->.
    { destruct (wr x k v) eqn:Hw; [|reflexivity].
      apply wr_inv in Hw as [Hw _]. contradiction. }
    assert (wr y k v = None) as ->.
    { destruct (wr y k v) eqn:Hw; [|reflexivity].
      apply wr_inv in Hw as [Hw _]. lia. }
    constructor.
Qed.

(** ** What [Advect] and [Project] overwrite *)

Section Overwritten.
Context {F : Type} `{Scalar F}.
Variable N : Z.
Hypothesis HN : 3 <= N.

Lemma wr_agree_on done i j (t t' : list F) v :
  agree_on N done t t' ->
  option_Forall2 (fun u u' => agree_on N (done ++ [(i, j)]) u u')
                 (wr t (IX N i j) v) (wr t' (IX N i j) v).
Proof.
  intros (Ht & Ht' & Hagree).
  destruct (wr_agree t t' (IX N i j) v
              (fun k' => exists a c, (a, c) ∈ done /\ k' = IX N a c))
    as [u u' (Hu & Hu' & Hnew)|]; [congruence| |constructor|constructor].
  - intros k' (a & c & Hin & ->). now apply Hagree.
  - split; [congruence|]. split; [congruence|].
    intros a c [Hin|Hin%list_elem_of_singleton]%elem_of_app; apply Hnew.
    + left. eauto.
    + right. now injection Hin as -> ->.
Qed.

Lemma Advect_destination_ext b (d d' d0 velocX velocY : list F) dt :
  length d = Z.to_nat (N * N) -> length d' = Z.to_nat (N * N) ->
  Advect N b d d0 velocX velocY dt = Advect N b d' d0 velocX velocY dt.
Proof.
  intros Hd Hd'. unfold Advect. cbv zeta. rewrite !interior_loops.
  set (dtx := fmul dt (of_int (N - 2))).
  match goal with
  | |- ?m ≫= _ = ?m' ≫= _ =>
      assert (option_Forall2 (fun t t' => agree_on N (interior N) t t') m m')
        as Hrel; [|destruct Hrel as [d1 d1' (H1 & H1' & Hagree)|]]
  end.
  - apply (foldM_rel (fun done t t' => agree_on N done t t')).
    + split; [exact Hd|]. split; [exact Hd'|].
      intros a c Hin. now apply elem_of_nil in Hin.
    + intros done [i j] t t' _ Ht. unfold advect_cell.
      repeat match goal with
             | |- context [rd ?y ?k ≫= _] =>
                 destruct (rd y k); simpl; [|constructor]
             end.
      now apply wr_agree_on.
  - simpl. apply (SetBoundary_interior_ext N HN b d1 d1' H1 H1').
    intros i j Hi Hj. apply Hagree, elem_of_interior. lia.
  - reflexivity.
Qed.
(** X8: the destination of [Advect] is write-only: the contents of [d]
    before the call have no influence on the result, which is a failure
    for both destinations or the same field for both. *)
Theorem Advect_overwrites b (d d' d0 velocX velocY : list F) dt :
  length d = Z.to_nat (N * N) -> length d' = Z.to_nat (N * N) ->
  Advect N b d d0 velocX velocY dt = Advect N b d' d0 velocX velocY dt.
Proof.
  intros Hd Hd'. rewrite (Advect_destination_ext b d d') by assumption.
  reflexivity.
Qed.
End Overwritten.

(** ** The density of a fluid that holds none *)

Section Binary32Step.
Variable N : Z.
Hypothesis HN : 3 <= N.
Hypothesis Hint32 : N * N < 2 ^ 31.

Lemma passes_still_density s :
  still_density N s -> exists s', passes s = Some s' /\ still_density N s'.
Proof.
  destruct s as [n dt diff visc dens vx vy vz].
  unfold still_density. simpl. intros (-> & Hdt & Hvisc & Hvx & Hvy & Hd).
  assert (0 <= Z.quot N 2 < N) as Hmid
    by (split; [apply Z.quot_pos; lia|apply Z.quot_lt; lia]).
  unfold passes, velocity_before_advection. simpl.
  wf_read Hd as c0 Hc0.
  destruct (Diffuse_valid N HN 1 vx vx visc dt) as (vx1 & -> & Hvx1);
    try assumption. simpl.
  destruct (Diffuse_valid N HN 2 vy vy visc dt) as (vy1 & -> & Hvy1);
    try assumption. simpl.
  destruct (Project_valid N HN vx1 vy1 vx vy)
    as (vx2 & vy2 & p2 & div2 & -> & Hvx2 & Hvy2 & Hp2 & Hdiv2);
    try assumption. simpl.
  destruct (Advect_valid N HN Hint32 1 vx2 p2 p2 div2 dt) as (vx3 & -> & Hvx3);
    try assumption. simpl.
  destruct (Advect_valid N HN Hint32 2 vy2 div2 p2 div2 dt) as (vy3 & -> & Hvy3);
    try assumption. simpl.
  destruct (Project_valid N HN vx3 vy3 p2 div2)
    as (vx4 & vy4 & p4 & div4 & -> & Hvx4 & Hvy4 & Hp4 & Hdiv4);
    try assumption. simpl.
  destruct (Diffuse_sized N HN 0 dens dens diff dt (proj1 Hd) (proj1 Hd))
    as (d1 & -> & Hlen1 & _). simpl.
  pose proof (IX_bounds N _ _ Hmid Hmid) as Hk.
  destruct (rd_Some d1 (IX N (N ÷ 2) (N ÷ 2))) as [c1 ->]; [lia|]. simpl.
  rewrite (Advect_destination_ext N HN 0 d1 dens)
    by (assumption || apply Hd).
  destruct (Advect_zero_field N HN Hint32 0 dens dens vx4 vy4 dt)
    as (d2 & -> & Hd2); try assumption. simpl.
  wf_read Hd2 as c2 Hc2.
  eexists. split; [reflexivity|]. simpl. auto 10.
Qed.

Lemma passes_iter_still_density n s :
  still_density N s ->
  exists s', passes_iter n s = Some s' /\ still_density N s'.
Proof.
  revert s. induction n as [|n IH]; intros s Hs.
  - now exists s.
  - destruct (passes_still_density s Hs) as (s1 & Hs1 & Hstill).
    destruct (IH s1 Hstill) as (s' & Hs' & Hstill').
    exists s'. split; [|exact Hstill']. simpl. now rewrite Hs1.
Qed.
End Binary32Step.

(** C1, amended: in binary32, on a solver of side [N >= 3] whose density
    is zero in every cell and whose velocities are any binary32 values,
    for any binary32 step [Dt] and viscosity and any [Diffusion], the
    passes that follow the injection of
    [StepSimulation] (lines 156-180), run any number of times, complete
    and leave a zero in every cell of the density.  The density that
    [Diffuse] computes at line 176 plays no part: [Advect] at line 179
    overwrites it from the copy [Density0]. *)
Theorem passes_keep_zero_density (n : nat) (N : Z) (s : FluidGrid (F:=B32.t)) :
  3 <= N -> N * N < 2 ^ 31 -> Size s = N ->
  B32.valid (Dt s) = true -> B32.valid (Viscosity s) = true ->
  valid_field N (Vx s) -> valid_field N (Vy s) -> zero_field N (Density s) ->
  exists s', passes_iter n s = Some s' /\ zero_field N (Density s').
Proof.
  intros HN Hint HS Hdt Hvisc Hvx Hvy Hd.
  destruct (passes_iter_still_density N HN Hint n s) as (s' & Hs' & Hstill).
  - unfold still_density. auto 10.
  - exists s'. split; [exact Hs'|]. apply Hstill.
Qed.

Lemma passes_keep_zero_density_witness :
  3 <= 4 /\ 4 * 4 < 2 ^ 31 /\ Size stirred4 = 4 /\
  B32.valid (Dt stirred4) = true /\ B32.valid (Viscosity stirred4) = true /\
  valid_field 4 (Vx stirred4) /\ valid_field 4 (Vy stirred4) /\
  zero_field 4 (Density stirred4) /\
  exists s', passes_iter 2 stirred4 = Some s' /\ zero_field 4 (Density s').
Proof.
  assert (valid_field 4 sample4) as Hv
    by (split; [reflexivity|repeat constructor]).
  assert (zero_field 4 (zeroed 4)) as Hz
    by (split; [reflexivity|repeat constructor]).
  split; [lia|]. split; [lia|]. do 3 (split; [reflexivity|]).
  do 2 (split; [exact Hv|]). split; [exact Hz|].
  apply (passes_keep_zero_density 2 4 stirred4);
    try reflexivity; try assumption; lia.
Defined.

(** C1 fails on the code: one [StepSimulation] of the freshly
    constructed 4x4 actor, whose fields are all zero, leaves a density
    that is not zero, because the step itself injects density at the
    centre. *)
Lemma zero_density_not_kept :
  zero_field 4 (Density grid4) /\ zero_field 4 (Vx grid4) /\
  zero_field 4 (Vy grid4) /\
  ~ (forall n s, steps n grid4 = Some s -> zero_field 4 (Density s)).
Proof.
  assert (zero_field 4 (zeroed 4)) as Hz
    by (split; [reflexivity|repeat constructor]).
  do 3 (split; [exact Hz|]). intros Hall.
  assert (exists s, StepSimulation grid4 = Some s /\
                    forallb is_zero (Density s) = false) as (s & Hs & Hd).
  { eexists. split; vm_compute; reflexivity. }
  destruct (Hall 1%nat s) as [_ Hzero].
  { cbn [steps]. rewrite Hs. reflexivity. }
  assert (forallb is_zero (Density s) = true) as Ht
    by (apply forallb_forall, List.Forall_forall; exact Hzero).
  congruence.
Qed.

Section ProjectFacts.
Context {F : Type} `{Scalar F}.
Variable N : Z.
Hypothesis HN : 3 <= N.

(** X7: the scratch buffers of [Project] are write-only: what [p] and [div]
    hold before the call has no influence on any of the four results. *)
Theorem Project_overwrites (velocX velocY p div p' div' : list F) :
  length p = Z.to_nat (N * N) -> length div = Z.to_nat (N * N) ->
  length p' = Z.to_nat (N * N) -> length div' = Z.to_nat (N * N) ->
  Project N velocX velocY p div = Project N velocX velocY p' div'.
Proof.
  intros Hp Hdiv Hp' Hdiv'. unfold Project. rewrite !interior_loops.
  match goal with
  | |- ?m ≫= _ = ?m' ≫= _ =>
      assert (option_Forall2
                (fun st st' => agree_on N (interior N) st.1 st'.1 /\
                               agree_on N (interior N) st.2 st'.2) m m')
        as Hrel; [|destruct Hrel as [[p1 div1] [p1' div1'] [H1 H2]|]]
  end.
  - apply (foldM_rel (fun done st st' => agree_on N done st.1 st'.1 /\
                                         agree_on N done st.2 st'.2)).
    + split; (split; [assumption|]; split; [assumption|]);
        intros a c Hin; now apply elem_of_nil in Hin.
    + intros done [i j] [t u] [t' u'] _ [Ht Hu]. simpl in Ht, Hu.
      unfold divergence_cell.
      repeat match goal with
             | |- context [rd ?y ?k ≫= _] =>
                 destruct (rd y k); simpl; [|constructor]
             end.
      match goal with
      | |- context [wr u ?k ?v] =>
          destruct (wr_agree_on N done i j u u' v Hu) as [w w' Hw|];
            simpl; [|constructor]
      end.
      destruct (wr_agree_on N done i j t t' (of_int 0) Ht) as [z z' Hz|];
        simpl; constructor. now split.
  - simpl in H1, H2. simpl.
    destruct H1 as (Hl1 & Hl1' & Hag1), H2 as (Hl2 & Hl2' & Hag2).
    destruct (SetBoundary_interior_ext N HN 0 div1 div1' Hl2 Hl2')
      as [-> _].
    { intros i j Hi Hj. apply Hag2, elem_of_interior. lia. }
    destruct (SetBoundary_interior_ext N HN 0 p1 p1' Hl1 Hl1')
      as [-> _].
    { intros i j Hi Hj. apply Hag1, elem_of_interior. lia. }
    reflexivity.
  - reflexivity.
Qed.

(** X6: [Project] on four fields of [N * N] cells makes no out-of-range
    access, and each field it returns satisfies the boundary conditions it
    was last given: kind 1 for [velocX], 2 for [velocY], 0 for [p] and
    [div]. *)
Theorem Project_in_bounds (velocX velocY p div : list F) :
  length velocX = Z.to_nat (N * N) -> length velocY = Z.to_nat (N * N) ->
  length p = Z.to_nat (N * N) -> length div = Z.to_nat (N * N) ->
  exists vx vy p' div',
    Project N velocX velocY p div = Some (vx, vy, p', div') /\
    (length vx = Z.to_nat (N * N) /\ length vy = Z.to_nat (N * N) /\
     length p' = Z.to_nat (N * N) /\ length div' = Z.to_nat (N * N)) /\
    SetBoundary N 1 vx = Some vx /\ SetBoundary N 2 vy = Some vy /\
    SetBoundary N 0 p' = Some p' /\ SetBoundary N 0 div' = Some div'.
Proof.
  intros HvX%sized_well_formed HvY%sized_well_formed
         Hp%sized_well_formed Hdiv%sized_well_formed.
  unfold Project.
  destruct (interior_pass_inv
              (fun st : list F * list F =>
                 well_formed (fun _ => True) N st.1 /\
                 well_formed (fun _ => True) N st.2) N
              (divergence_cell N velocX velocY) (p, div))
    as ([p1 div1] & Hloop & Hp1 & Hdiv1); [split; [exact Hp|exact Hdiv]| |].
  { intros i j [p0 div0] Hi Hj [Hp0 Hdiv0]. simpl in Hp0, Hdiv0.
    unfold divergence_cell.
    wf_read HvX as e He. wf_read HvX as w Hw.
    wf_read HvY as n Hn. wf_read HvY as s Hs.
    wf_write Hdiv0 as div' Hdiv' by exact I.
    wf_write Hp0 as p' Hp' by exact I.
    exists (p', div'). now split. }
  match goal with
  | |- exists _ _ _ _, ?m ≫= _ = _ /\ _ =>
      replace m with (Some (p1, div1)) by (symmetry; exact Hloop)
  end.
  simpl in Hp1, Hdiv1. simpl.
  apply sized_well_formed in Hp1, Hdiv1.
  destruct (SetBoundary_fixed N HN 0 div1 Hdiv1) as (div2 & -> & Hdiv2 & Hfd).
  destruct (SetBoundary_fixed N HN 0 p1 Hp1) as (p2 & -> & Hp2 & _).
  simpl.
  destruct (LinearSolve_sized N HN 0 p2 div2 (of_int 1) (of_int 6)
              Hp2 Hdiv2) as (p3 & -> & Hp3 & Hfp).
  simpl.
  pose proof (proj1 (sized_well_formed N p3) Hp3) as Hwp.
  destruct (interior_pass_inv
              (fun st : list F * list F =>
                 well_formed (fun _ => True) N st.1 /\
                 well_formed (fun _ => True) N st.2) N
              (gradient_cell N p3) (velocX, velocY))
    as ([vx vy] & Hloop2 & Hvx & Hvy); [split; [exact HvX|exact HvY]| |].
  { intros i j [vx0 vy0] Hi Hj [Hvx0 Hvy0]. simpl in Hvx0, Hvy0.
    unfold gradient_cell. cbv iota beta.
    wf_read Hvx0 as u Hu. wf_read Hwp as e He. wf_read Hwp as w Hw.
    wf_read Hwp as n Hn. wf_read Hwp as s Hs.
    wf_write Hvx0 as vx' Hvx' by exact I. wf_read Hvy0 as v Hv.
    wf_write Hvy0 as vy' Hvy' by exact I. exists (vx', vy'). now split. }
  match goal with
  | |- exists _ _ _ _, ?m ≫= _ = _ /\ _ =>
      replace m with (Some (vx, vy)) by (symmetry; exact Hloop2)
  end.
  simpl in Hvx, Hvy. simpl. apply sized_well_formed in Hvx, Hvy.
  destruct (SetBoundary_fixed N HN 1 vx Hvx) as (vx2 & -> & Hvx2 & Hf1).
  destruct (SetBoundary_fixed N HN 2 vy Hvy) as (vy2 & -> & Hvy2 & Hf2).
  simpl. exists vx2, vy2, p3, div2. auto 10.
Qed.
End ProjectFacts.

(** A read that succeeds is in range. *)
Lemma rd_Some_inv {A : Type} (x : list A) k v :
  rd x k = Some v -> 0 <= k < Z.of_nat (length x).
Proof.
  unfold rd. destruct (Z.ltb_spec k 0); [discriminate|].
  intros Hv. apply lookup_lt_Some in Hv. lia.
Qed.

(** A pass whose steps keep the length of the array keeps it. *)
Lemma foldM_length {A B : Type} (f : B -> list A -> option (list A)) l x x' :
  (forall a t t', f a t = Some t' -> length t' = length t) ->
  foldM f l x = Some x' -> length x' = length x.
Proof.
  intros Hf. revert x. induction l as [|a l IH]; intros x; simpl.
  - now intros [= ->].
  - destruct (f a x) as [x1|] eqn:H1; [|discriminate]. simpl.
    intros Hx'. apply IH in Hx'. apply Hf in H1. congruence.
Qed.

Section AdvectResult.
Context {F : Type} `{Scalar F}.
Variable N : Z.
Hypothesis HN : 3 <= N.

Lemma Advect_sized b (d d0 velocX velocY : list F) dt d' :
  length d = Z.to_nat (N * N) ->
  Advect N b d d0 velocX velocY dt = Some d' ->
  length d' = Z.to_nat (N * N) /\ SetBoundary N b d' = Some d'.
Proof.
  intros Hd Hadv. unfold Advect in Hadv. cbv zeta in Hadv.
  rewrite interior_loops in Hadv.
  match type of Hadv with
  | ?m ≫= _ = _ => destruct m as [d1|] eqn:Hloop; [|discriminate]
  end.
  simpl in Hadv.
  apply foldM_length in Hloop.
  - destruct (SetBoundary_fixed N HN b d1 ltac:(congruence))
      as (x' & Hx' & Hlen & Hfix).
    rewrite Hx' in Hadv. injection Hadv as <-. now split.
  - intros [i j] t t' Ht. unfold advect_cell in Ht.
    repeat match type of Ht with
           | context [rd ?y ?k ≫= _] =>
               destruct (rd y k); simpl in Ht; [|discriminate]
           end.
    apply wr_inv in Ht as [_ ->]. apply length_insert.
Qed.
(** X9: whatever [Advect] returns has the length of its destination
    and satisfies the boundary conditions of kind [b]: [SetBoundary b]
    leaves it as it is. *)
Theorem Advect_result b (d d0 velocX velocY : list F) dt d' :
  length d = Z.to_nat (N * N) ->
  Advect N b d d0 velocX velocY dt = Some d' ->
  length d' = Z.to_nat (N * N) /\ SetBoundary N b d' = Some d'.
Proof.
  intros Hd Hadv.
  destruct (Advect_sized b d d0 velocX velocY dt d' Hd Hadv) as [Hlen Hfix].
  split; [exact Hlen|exact Hfix].
Qed.
End AdvectResult.

(** ** Injection of density and velocity *)

Section Injection.
Context {F : Type} `{Scalar F}.
Implicit Types (s : FluidGrid (F:=F)).

Lemma AddDensity_cases s x y amount :
  let k := IX (Size s) x y in
  match AddDensity s x y amount with
  | Some s' =>
      exists v, rd (Density s) k = Some v /\
                rd (Density s') k = Some (fadd v amount) /\
                (forall k', k' <> k -> rd (Density s') k' = rd (Density s) k') /\
                length (Density s') = length (Density s) /\
                s' = set_Density s (Density s')
  | None => ~ 0 <= k < Z.of_nat (length (Density s))
  end.
Proof.
  intros k. unfold AddDensity. fold k.
  destruct (decide (0 <= k < Z.of_nat (length (Density s)))) as [Hk|Hk].
  - destruct (rd_Some (Density s) k Hk) as [v Hv]. rewrite Hv. simpl.
    rewrite wr_Some by exact Hk. simpl.
    assert (forall k', rd (<[Z.to_nat k := fadd v amount]> (Density s)) k'
                       = if decide (k' = k) then Some (fadd v amount)
                         else rd (Density s) k') as Hrd.
    { intros k'. destruct (Z.ltb_spec k' 0) as [Hneg|Hpos].
      - rewrite decide_False by lia. unfold rd.
        now destruct (Z.ltb_spec k' 0); [|lia].
      - apply rd_wr; [now apply wr_Some|exact Hpos]. }
    rewrite (Hrd k), decide_True by reflexivity. simpl.
    exists v. split; [reflexivity|]. split.
    { now rewrite (Hrd k), decide_True. }
    split; [|split; [apply length_insert|reflexivity]].
    intros k' Hne. now rewrite (Hrd k'), decide_False.
  - destruct (rd (Density s) k) as [v|] eqn:Hv; simpl; [|exact Hk].
    destruct (wr (Density s) k (fadd v amount)) as [d|] eqn:Hw; simpl;
      [|exact Hk].
    apply wr_inv in Hw as [Hw _]. contradiction.
Qed.

(** X10: at in-grid coordinates, [AddDensity] stays inside the array
    exactly when [Density] has a cell at the offset [IX(x, y)], as it has
    when it holds [Size * Size] cells; it then adds [amount] to that cell
    and changes nothing else, in [Density] or in the rest of the actor.
    [Size * Size < 2^31] keeps the offset within [int32]. *)
Theorem AddDensity_spec s x y amount :
  0 <= x < Size s -> 0 <= y < Size s -> Size s * Size s < 2 ^ 31 ->
  let k := IX (Size s) x y in
  (is_Some (AddDensity s x y amount) <-> k < Z.of_nat (length (Density s))) /\
  forall s', AddDensity s x y amount = Some s' ->
    exists v, rd (Density s) k = Some v /\
              rd (Density s') k = Some (fadd v amount) /\
              (forall k', k' <> k -> rd (Density s') k' = rd (Density s) k') /\
              length (Density s') = length (Density s) /\
              s' = set_Density s (Density s').
Proof.
  intros Hx Hy _ k. pose proof (IX_bounds (Size s) x y Hx Hy) as Hk.
  fold k in Hk.
  pose proof (AddDensity_cases s x y amount) as Hc.
  cbv zeta in Hc. fold k in Hc.
  destruct (AddDensity s x y amount) as [s1|].
  - destruct Hc as (v & Hv & Hc). split.
    + split; [intros _|eauto].
      apply rd_Some_inv in Hv. lia.
    + intros s' [= <-]. exists v. now split.
  - split; [|discriminate].
    split; [intros [? [=]]|intros Hlt; exfalso; apply Hc; lia].
Qed.

Lemma Clamp_int32_range X Max :
  0 <= Max -> 0 <= Clamp_int32 X 0 Max <= Max.
Proof.
  intros HM. unfold Clamp_int32.
  destruct (Z.ltb_spec X 0); [lia|]. destruct (Z.ltb_spec X Max); lia.
Qed.

Lemma Clamp_int32_id X Max : 0 <= X <= Max -> Clamp_int32 X 0 Max = X.
Proof.
  intros HX. unfold Clamp_int32.
  destruct (Z.ltb_spec X 0); [lia|]. destruct (Z.ltb_spec X Max); lia.
Qed.

(** X11: a click never leaves the grid: for every position the player
    controller can report, [HandleInput] adds 100 to the density of one
    cell of the grid, the cell at the clamped position, and changes
    nothing else. *)
Theorem HandleInput_click s X Y :
  1 <= Size s -> length (Density s) = Z.to_nat (Size s * Size s) ->
  exists s' gx gy v,
    HandleInput (Some (X, Y)) s = Some s' /\
    0 <= gx < Size s /\ 0 <= gy < Size s /\
    (0 <= X < Size s -> gx = X) /\ (0 <= Y < Size s -> gy = Y) /\
    rd (Density s) (IX (Size s) gx gy) = Some v /\
    rd (Density s') (IX (Size s) gx gy) = Some (fadd v (of_int 100)) /\
    (forall k, k <> IX (Size s) gx gy ->
               rd (Density s') k = rd (Density s) k) /\
    s' = set_Density s (Density s').
Proof.
  intros HN Hlen. unfold HandleInput. cbv zeta.
  set (gx := Clamp_int32 X 0 (Size s - 1)).
  set (gy := Clamp_int32 Y 0 (Size s - 1)).
  pose proof (Clamp_int32_range X (Size s - 1) ltac:(lia)) as Hgx.
  pose proof (Clamp_int32_range Y (Size s - 1) ltac:(lia)) as Hgy.
  fold gx in Hgx. fold gy in Hgy.
  pose proof (AddDensity_cases s gx gy (of_int 100)) as Hadd.
  cbv zeta in Hadd.
  destruct (AddDensity s gx gy (of_int 100)) as [s'|].
  - destruct Hadd as (v & Hv & Hv' & Hother & _ & Hs').
    exists s', gx, gy, v. split; [reflexivity|].
    split; [lia|]. split; [lia|].
    split; [intros HX; apply Clamp_int32_id; lia|].
    split; [intros HY; apply Clamp_int32_id; lia|]. auto.
  - exfalso. apply Hadd.
    pose proof (IX_bounds (Size s) gx gy ltac:(lia) ltac:(lia)). lia.
Qed.
End Injection.

(** ** The colours handed to the render target *)

Lemma repr_fmap {A B : Type} (f : A -> B) N (x : list A) g :
  repr N x g -> repr N (f <$> x) (fun a c => f (g a c)).
Proof.
  intros [Hlen Hg]. split; [now rewrite length_fmap|].
  intros i j Hi Hj. specialize (Hg i j Hi Hj). unfold rd in *.
  destruct (IX N i j <? 0); [discriminate|].
  now rewrite list_lookup_fmap, Hg.
Qed.

Section Colours.
Context {F : Type} `{Scalar F}.
Implicit Types (s : FluidGrid (F:=F)).

Lemma ColorData_map s :
  0 <= Size s -> length (Density s) = Z.to_nat (Size s * Size s) ->
  UpdateRenderTarget true s
  = Some (Uploaded ((fun Value => Some (cell_color Value)) <$> Density s)).
Proof.
  intros HN Hlen. unfold UpdateRenderTarget. cbv zeta.
  set (N := Size s) in *.
  destruct (repr_exists N (Density s) Hlen) as [g Hg].
  destruct (for_range_inv
              (fun y C => repr N C (fun a c => if decide (c < y)
                                               then Some (cell_color (g a c))
                                               else None)) 0 N
              (fun y ColorData =>
                 for_range 0 N (fun x ColorData =>
                   Value ← rd (Density s) (IX N x y);
                   wr ColorData (IX N x y) (Some (cell_color Value)))
                   ColorData)
              (replicate (Z.to_nat (N * N)) None))
    as (C & HC & Hr); [exact HN| | |].
  - eapply repr_ext; [apply repr_replicate|]. intros a c Ha Hc.
    now rewrite decide_False by lia.
  - intros y C Hy HCy. cbv beta.
    destruct (for_range_inv
                (fun x C => repr N C
                   (fun a c => if decide (c < y \/ (c = y /\ a < x))
                               then Some (cell_color (g a c)) else None))
                0 N
                (fun x ColorData =>
                   Value ← rd (Density s) (IX N x y);
                   wr ColorData (IX N x y) (Some (cell_color Value))) C)
      as (C' & HC' & Hr'); [exact HN| | |].
    + eapply repr_ext; [exact HCy|]. intros a c Ha Hc. cbv beta.
      destruct (decide (c < y)); [now rewrite decide_True by lia|].
      now rewrite decide_False by lia.
    + intros x C0 Hx HC0. cbv beta.
      rewrite (repr_rd N (Density s) g x y Hg) by lia. simpl.
      destruct (repr_wr N C0 _ x y (Some (cell_color (g x y))) HC0)
        as (C1 & -> & HC1); [lia|lia|].
      exists C1. split; [reflexivity|].
      eapply repr_ext; [exact HC1|]. intros a c Ha Hc. unfold upd.
      destruct (decide (a = x /\ c = y)) as [[-> ->]|Hne].
      * now rewrite decide_True by lia.
      * destruct (decide (c < y \/ (c = y /\ a < x))).
        -- now rewrite decide_True by lia.
        -- now rewrite decide_False by lia.
    + exists C'. split; [exact HC'|].
      eapply repr_ext; [exact Hr'|]. intros a c Ha Hc. cbv beta.
      destruct (decide (c < y \/ (c = y /\ a < N))).
      * now rewrite decide_True by lia.
      * now rewrite decide_False by lia.
  - match goal with
    | |- ?m ≫= _ = _ => replace m with (Some C) by (symmetry; exact HC)
    end.
    simpl. do 2 f_equal.
    apply (repr_inj N _ _ (fun a c => Some (cell_color (g a c))));
      [exact HN| |now apply (repr_fmap (fun v => Some (cell_color v)))].
    eapply repr_ext; [exact Hr|]. intros a c Ha Hc. cbv beta.
    now rewrite decide_True by lia.
Qed.
(** X12: without a render target [UpdateRenderTarget] hands over
    nothing; with one it assigns every cell of [ColorData], in the storage
    order of [Density]: cell [k] is the colour of [Density[k]], and no
    cell is left unset. *)
Theorem UpdateRenderTarget_colors RenderTarget s :
  0 <= Size s -> length (Density s) = Z.to_nat (Size s * Size s) ->
  UpdateRenderTarget RenderTarget s
  = Some (if RenderTarget
          then Uploaded ((fun Value => Some (cell_color Value)) <$> Density s)
          else NoTarget).
Proof.
  intros HN Hlen. destruct RenderTarget; [|reflexivity].
  now apply ColorData_map.
Qed.
End Colours.

(** ** What a step leaves alone *)

Section StepFrame.
Context {F : Type} `{Scalar F}.
Implicit Types (s : FluidGrid (F:=F)).

(** Destruct the monadic steps of a hypothesis [Hs : ... = Some _]. *)
Ltac run_steps Hs :=
  repeat match type of Hs with
         | context [?m ≫= _] =>
             match m with
             | context [_ ≫= _] => fail 1
             | _ => let r := fresh "r" in
                    destruct m as [r|] eqn:?; simpl in Hs;
                    [try (destruct r as [[[? ?] ?] ?])|discriminate Hs]
             end
         end.

Lemma inject_frame s s' :
  inject s = Some s' ->
  Size s' = Size s /\ Dt s' = Dt s /\ Diffusion s' = Diffusion s /\
  Viscosity s' = Viscosity s /\ Vz s' = Vz s /\
  length (Density s') = length (Density s).
Proof.
  unfold inject, AddDensity, AddVelocity. cbv zeta. intros Hs.
  run_steps Hs. injection Hs as <-. simpl.
  repeat split; try reflexivity.
  match goal with
  | Hw : wr (Density s) _ _ = Some _ |- _ => apply wr_inv in Hw as [_ ->]
  end.
  apply length_insert.
Qed.

Lemma passes_frame s s' :
  passes s = Some s' ->
  Size s' = Size s /\ Dt s' = Dt s /\ Diffusion s' = Diffusion s /\
  Viscosity s' = Viscosity s /\ Vz s' = Vz s.
Proof.
  unfold passes. cbv zeta. intros Hs.
  run_steps Hs. injection Hs as <-. simpl. auto.
Qed.

(** The density after the passes has [N * N] cells. *)
Lemma passes_Density_length s s' :
  3 <= Size s -> length (Density s) = Z.to_nat (Size s * Size s) ->
  passes s = Some s' ->
  length (Density s') = Z.to_nat (Size s * Size s).
Proof.
  intros HN Hlen. unfold passes. cbv zeta. intros Hs.
  run_steps Hs. injection Hs as <-. simpl.
  match goal with
  | Hd : Diffuse _ 0 _ _ _ _ = Some ?d1,
    Ha : Advect _ 0 ?d1 _ _ _ _ = Some _ |- _ =>
      destruct (Diffuse_sized (Size s) HN 0 (Density s) (Density s)
                  (Diffusion s) (Dt s) Hlen Hlen) as (d1' & Hd' & Hl & _);
      rewrite Hd' in Hd; injection Hd as ->;
      apply (Advect_sized (Size s) HN) in Ha as [Ha _]; [exact Ha|exact Hl]
  end.
Qed.

(** The passes compute the same fields whatever [Diffusion] is: the
    density that [Diffuse] returns is overwritten by [Advect], which reads
    the copy [Density0] taken before the diffusion. *)
Lemma passes_ignore_Diffusion s diff :
  3 <= Size s -> length (Density s) = Z.to_nat (Size s * Size s) ->
  passes (set_Diffusion s diff) = (fun r => set_Diffusion r diff) <$> passes s.
Proof.
  intros HN Hlen. unfold passes, velocity_before_advection. cbv zeta.
  cbn [set_Diffusion Size Dt Diffusion Viscosity Density Vx Vy Vz].
  repeat match goal with
         | |- ?m ≫= _ = _ <$> (?m ≫= _) =>
             let r := fresh "r" in
             destruct m as [r|]; [try destruct r as [[[? ?] ?] ?]|reflexivity];
             cbn [mbind option_bind]
         end.
  destruct (Diffuse_sized (Size s) HN 0 (Density s) (Density s)
              diff (Dt s) Hlen Hlen) as (d1 & -> & Hl1 & _).
  destruct (Diffuse_sized (Size s) HN 0 (Density s) (Density s)
              (Diffusion s) (Dt s) Hlen Hlen) as (d2 & -> & Hl2 & _).
  cbn [mbind option_bind].
  assert (0 <= Z.quot (Size s) 2 < Size s) as Hmid
    by (split; [apply Z.quot_pos; lia|apply Z.quot_lt; lia]).
  pose proof (IX_bounds (Size s) _ _ Hmid Hmid) as Hk.
  destruct (rd_Some d1 (IX (Size s) (Size s ÷ 2) (Size s ÷ 2))) as [c1 ->];
    [lia|].
  destruct (rd_Some d2 (IX (Size s) (Size s ÷ 2) (Size s ÷ 2))) as [c2 ->];
    [lia|].
  cbn [mbind option_bind].
  rewrite (Advect_destination_ext (Size s) HN 0 d1 d2) by assumption.
  repeat match goal with
         | |- ?m ≫= _ = _ <$> (?m ≫= _) =>
             let r := fresh "r" in
             destruct m as [r|]; [|reflexivity]; cbn [mbind option_bind]
         end.
  reflexivity.
Qed.

Lemma inject_ignores_Diffusion s diff :
  inject (set_Diffusion s diff) = (fun r => set_Diffusion r diff) <$> inject s.
Proof.
  unfold inject, AddDensity, AddVelocity. cbv zeta.
  cbn [set_Diffusion Size Dt Diffusion Viscosity Density Vx Vy Vz].
  repeat match goal with
         | |- context [rd ?y ?k ≫= _] => destruct (rd y k); simpl; [|reflexivity]
         | |- context [wr ?y ?k ?v ≫= _] =>
             destruct (wr y k v); simpl; [|reflexivity]
         end.
  reflexivity.
Qed.

(** X14: the parameter [Diffusion] has no effect on the simulation: after any
    number of steps the fields are the ones computed with any other value
    of [Diffusion]. *)
Theorem steps_ignore_Diffusion n s diff :
  3 <= Size s -> length (Density s) = Z.to_nat (Size s * Size s) ->
  steps n (set_Diffusion s diff) = (fun r => set_Diffusion r diff) <$> steps n s.
Proof.
  revert s. induction n as [|n IH]; intros s HN Hlen; [reflexivity|].
  simpl. unfold StepSimulation. rewrite inject_ignores_Diffusion.
  destruct (inject s) as [s1|] eqn:H1; [|reflexivity]. simpl.
  apply inject_frame in H1 as (HS1 & _ & _ & _ & _ & Hl1).
  rewrite passes_ignore_Diffusion by (rewrite HS1; congruence).
  destruct (passes s1) as [s2|] eqn:H2; [|reflexivity]. simpl.
  apply IH.
  - apply passes_frame in H2 as (HS2 & _). lia.
  - pose proof (passes_frame _ _ H2) as (HS2 & _).
    apply passes_Density_length in H2; [|lia|rewrite HS1; congruence].
    rewrite HS2. exact H2.
Qed.
End StepFrame.

(** ** A binary32 actor never leaves its arrays *)

Section Binary32Actor.
Variable N : Z.
Hypothesis HN : 3 <= N.
Hypothesis Hint32 : N * N < 2 ^ 31.
Implicit Types (s : FluidGrid (F:=B32.t)).

Lemma AddDensity_valid s x y amount :
  binary32_actor N s -> 0 <= x < N -> 0 <= y < N ->
  B32.valid amount = true ->
  exists s', AddDensity s x y amount = Some s' /\ binary32_actor N s'.
Proof.
  destruct s as [n dt diff visc dens vx vy vz].
  unfold binary32_actor. simpl.
  intros (-> & Hdt & Hdiff & Hvisc & Hd & Hvx & Hvy) Hx Hy Ha.
  unfold AddDensity. simpl.
  wf_read Hd as v Hv. wf_write Hd as d' Hd' by valid_arith.
  wf_read Hd' as v' Hv'.
  eexists. split; [reflexivity|]. simpl. auto 10.
Qed.

Lemma AddVelocity_valid s x y amountX amountY :
  binary32_actor N s -> 0 <= x < N -> 0 <= y < N ->
  B32.valid amountX = true -> B32.valid amountY = true ->
  exists s', AddVelocity s x y amountX amountY = Some s' /\
             binary32_actor N s'.
Proof.
  destruct s as [n dt diff visc dens vx vy vz].
  unfold binary32_actor. simpl.
  intros (-> & Hdt & Hdiff & Hvisc & Hd & Hvx & Hvy) Hx Hy HaX HaY.
  unfold AddVelocity. simpl.
  wf_read Hvx as u Hu. wf_write Hvx as vx' Hvx' by valid_arith.
  wf_read Hvy as v Hv. wf_write Hvy as vy' Hvy' by valid_arith.
  eexists. split; [reflexivity|]. simpl. auto 10.
Qed.

Lemma inject_valid s :
  binary32_actor N s -> exists s', inject s = Some s' /\ binary32_actor N s'.
Proof.
  intros Hs. unfold inject. cbv zeta.
  assert (Size s = N) as HS by apply Hs. rewrite HS.
  assert (0 <= Z.quot N 2 < N) as Hmid
    by (split; [apply Z.quot_pos; lia|apply Z.quot_lt; lia]).
  destruct (AddDensity_valid s (Z.quot N 2) (Z.quot N 2) (of_int 100))
    as (s1 & -> & Hs1); [exact Hs|exact Hmid|exact Hmid|apply of_Z_valid|].
  simpl. apply AddVelocity_valid; try assumption; apply of_Z_valid.
Qed.

Lemma passes_valid s :
  binary32_actor N s -> exists s', passes s = Some s' /\ binary32_actor N s'.
Proof.
  destruct s as [n dt diff visc dens vx vy vz].
  unfold binary32_actor. simpl.
  intros (-> & Hdt & Hdiff & Hvisc & Hd & Hvx & Hvy).
  assert (0 <= Z.quot N 2 < N) as Hmid
    by (split; [apply Z.quot_pos; lia|apply Z.quot_lt; lia]).
  unfold passes, velocity_before_advection. simpl.
  wf_read Hd as c0 Hc0.
  destruct (Diffuse_valid N HN 1 vx vx visc dt) as (vx1 & -> & Hvx1);
    try assumption. simpl.
  destruct (Diffuse_valid N HN 2 vy vy visc dt) as (vy1 & -> & Hvy1);
    try assumption. simpl.
  destruct (Project_valid N HN vx1 vy1 vx vy)
    as (vx2 & vy2 & p2 & div2 & -> & Hvx2 & Hvy2 & Hp2 & Hdiv2);
    try assumption. simpl.
  destruct (Advect_valid N HN Hint32 1 vx2 p2 p2 div2 dt) as (vx3 & -> & Hvx3);
    try assumption. simpl.
  destruct (Advect_valid N HN Hint32 2 vy2 div2 p2 div2 dt) as (vy3 & -> & Hvy3);
    try assumption. simpl.
  destruct (Project_valid N HN vx3 vy3 p2 div2)
    as (vx4 & vy4 & p4 & div4 & -> & Hvx4 & Hvy4 & Hp4 & Hdiv4);
    try assumption. simpl.
  destruct (Diffuse_valid N HN 0 dens dens diff dt) as (d1 & -> & Hd1);
    try assumption. simpl.
  wf_read Hd1 as c1 Hc1.
  destruct (Advect_valid N HN Hint32 0 d1 dens vx4 vy4 dt)
    as (d2 & -> & Hd2); try assumption. simpl.
  wf_read Hd2 as c2 Hc2.
  eexists. split; [reflexivity|]. simpl. auto 10.
Qed.

Lemma StepSimulation_valid s :
  binary32_actor N s ->
  exists s', StepSimulation s = Some s' /\ binary32_actor N s'.
Proof.
  intros Hs. unfold StepSimulation.
  destruct (inject_valid s Hs) as (s1 & -> & Hs1). simpl.
  now apply passes_valid.
Qed.

(** X15: any number of steps of a binary32 actor completes without an
    out-of-range access, whatever values the fields hold or come to hold
    (infinities and NaN included), and leaves a binary32 actor of the same
    side. *)
Theorem steps_in_bounds n s :
  binary32_actor N s -> exists s', steps n s = Some s' /\ binary32_actor N s'.
Proof.
  revert s. induction n as [|n IH]; intros s Hs; [now exists s|].
  destruct (StepSimulation_valid s Hs) as (s1 & Hs1 & Hv1).
  destruct (IH s1 Hv1) as (s' & Hs' & Hv').
  exists s'. split; [|exact Hv']. simpl. now rewrite Hs1.
Qed.

Lemma UpdateRenderTarget_valid RenderTarget s :
  binary32_actor N s -> is_Some (UpdateRenderTarget RenderTarget s).
Proof.
  intros (HS & _ & _ & _ & [Hd _] & _). destruct RenderTarget; [|now eexists].
  rewrite ColorData_map; [now eexists|lia|now rewrite HS].
Qed.

Lemma HandleInput_valid click s :
  binary32_actor N s ->
  exists s', HandleInput click s = Some s' /\ binary32_actor N s'.
Proof.
  intros Hs. destruct click as [[X Y]|]; [|now exists s].
  unfold HandleInput. cbv zeta.
  assert (Size s = N) as -> by apply Hs.
  pose proof (Clamp_int32_range X (N - 1) ltac:(lia)).
  pose proof (Clamp_int32_range Y (N - 1) ltac:(lia)).
  apply AddDensity_valid; [exact Hs|lia|lia|apply of_Z_valid].
Qed.

Lemma Tick_valid RenderTarget click s :
  binary32_actor N s ->
  exists s' u, Tick RenderTarget click s = Some (s', u) /\
               binary32_actor N s'.
Proof.
  intros Hs. unfold Tick.
  destruct (StepSimulation_valid s Hs) as (s1 & -> & Hs1). simpl.
  destruct (UpdateRenderTarget_valid RenderTarget s1 Hs1) as [u ->]. simpl.
  destruct (HandleInput_valid click s1 Hs1) as (s2 & -> & Hs2). simpl.
  now exists s2, u.
Qed.

(** X16: however long the actor runs and whatever the player does, no frame
    makes an out-of-range access: every [Tick] completes and leaves a
    binary32 actor of the same side. *)
Theorem ticks_in_bounds RenderTarget clicks s :
  binary32_actor N s ->
  exists s', ticks RenderTarget clicks s = Some s' /\ binary32_actor N s'.
Proof.
  revert s. induction clicks as [|click clicks IH]; intros s Hs;
    [now exists s|].
  destruct (Tick_valid RenderTarget click s Hs) as (s1 & u & Hs1 & Hv1).
  destruct (IH s1 Hv1) as (s' & Hs' & Hv').
  exists s'. split; [|exact Hv']. simpl. now rewrite Hs1.
Qed.
End Binary32Actor.

(** ** Colour channels stay in range *)

(** Rounding never goes past the next power of two: the value of the
    result, in units of [2^-149], is at most [2^(digits + e)]. *)
Lemma binary_round_aux_le s m e l s' m2 e2 :
  0 < m -> -149 <= e -> e <= fexp B32.prec B32.emax (Zdigits2 m + e) ->
  binary_round_aux B32.prec B32.emax s m e l = S754_finite s' m2 e2 ->
  Zpos m2 * 2 ^ (e2 + 149) <= 2 ^ (Zdigits2 m + e + 149).
Proof.
  intros Hm He Hfexp. unfold binary_round_aux.
  destruct (shr_fexp_spec m e l ltac:(lia)) as [Hm' He'].
  destruct (shr_fexp B32.prec B32.emax m e l) as [mrs' e'].
  simpl fst in Hm'. simpl snd in He'.
  set (n := Z.max 0 (fexp B32.prec B32.emax (Zdigits2 m + e) - e)) in *.
  set (m1 := round_nearest_even (shr_m mrs') (loc_of_shr_record mrs')).
  assert (m1 = shr_m mrs' \/ m1 = shr_m mrs' + 1) as Hm1
    by apply round_nearest_even_cases.
  assert (0 <= n) as Hn by lia.
  assert (n <= Zdigits2 m) as Hnd.
  { subst n. rewrite b32_fexp in *. destruct m as [|p|p]; try lia.
    simpl Zdigits2 in *. lia. }
  destruct m as [|p|p]; try lia. simpl Zdigits2 in *.
  pose proof (digits_bounds p) as [_ Hp].
  set (d := Zpos (digits2_pos p)) in *.
  assert (0 < 2 ^ n) as Hpow by (apply Z.pow_pos_nonneg; lia).
  assert (0 <= shr_m mrs') as Hpos'
    by (rewrite Hm'; apply Z.div_pos; lia).
  assert (m1 * 2 ^ n <= 2 ^ d) as Hbound.
  { assert (2 ^ d = 2 ^ (d - n) * 2 ^ n) as Hsplit
      by (rewrite <- Z.pow_add_r by lia; f_equal; lia).
    assert (shr_m mrs' < 2 ^ (d - n)) as Hlt.
    { rewrite Hm'. apply Z.div_lt_upper_bound; [lia|].
      rewrite Z.mul_comm, <- Hsplit. exact Hp. }
    rewrite Hsplit. apply Z.mul_le_mono_nonneg_r; lia. }
  assert (0 <= m1) as Hm1pos by lia.
  destruct (shr_fexp_spec m1 e' loc_Exact Hm1pos) as [Hm2 He2].
  destruct (shr_fexp B32.prec B32.emax m1 e' loc_Exact) as [mrs'' e''].
  simpl fst in Hm2. simpl snd in He2.
  set (n2 := Z.max 0 (fexp B32.prec B32.emax (Zdigits2 m1 + e') - e')) in *.
  destruct (shr_m mrs'') as [|q|q] eqn:Hq; try discriminate.
  destruct (e'' <=? B32.emax - B32.prec); [|discriminate].
  intros [= _ <- <-].
  assert (0 <= n2) as Hn2 by lia.
  assert (0 < 2 ^ n2) as Hpow2 by (apply Z.pow_pos_nonneg; lia).
  assert (Zpos q * 2 ^ n2 <= m1) as Hq2.
  { rewrite Hm2. rewrite Z.mul_comm. apply Z.mul_div_le. lia. }
  assert (2 ^ (e'' + 149) = 2 ^ n2 * 2 ^ n * 2 ^ (e + 149)) as ->
    by (rewrite <- !Z.pow_add_r by lia; f_equal; lia).
  assert (2 ^ (d + e + 149) = 2 ^ d * 2 ^ (e + 149)) as ->
    by (rewrite <- Z.pow_add_r by lia; f_equal; lia).
  assert (0 < 2 ^ (e + 149)) by (apply Z.pow_pos_nonneg; lia).
  rewrite !Z.mul_assoc. apply Z.mul_le_mono_nonneg_r; [lia|].
  apply Z.le_trans with (m1 * 2 ^ n); [|exact Hbound].
  apply Z.mul_le_mono_nonneg_r; lia.
Qed.

Lemma binary_round_le s M e s' m2 e2 :
  -149 <= e ->
  binary_round B32.prec B32.emax s M e = S754_finite s' m2 e2 ->
  Zpos m2 * 2 ^ (e2 + 149) <= 2 ^ (Zpos (digits2_pos M) + e + 149).
Proof.
  intros He. unfold binary_round.
  pose proof (shl_align_spec M e (fexp B32.prec B32.emax (Zpos (digits2_pos M) + e)))
    as Hs.
  destruct (shl_align M e _) as [mz ez]. destruct Hs as [Hez Hmz].
  assert (Zdigits2 (Zpos mz) + ez = Zpos (digits2_pos M) + e) as Hd.
  { simpl Zdigits2. rewrite (digits_mul_pow2 M mz (e - ez)) by lia. lia. }
  intros Hr. rewrite <- Hd.
  apply (binary_round_aux_le s (Zpos mz) ez loc_Exact s'); [lia| | |exact Hr].
  - rewrite b32_fexp in Hez. lia.
  - rewrite Hd. lia.
Qed.

Lemma one_exact : is_pos_float (of_int 1) (2 ^ 149).
Proof. exists 8388608%positive, (-23). repeat split. Qed.

Lemma SFltb_SFleb x y : SFltb x y = true -> SFleb x y = true.
Proof. unfold SFltb, SFleb. now destruct (SFcompare x y) as [[]|]. Qed.

(** [Clamp(Value, 0.0f, 1.0f)] lies in [[0, 1]] whatever [Value] is; a
    NaN goes to [1.0f]. *)
Lemma Clamp_unit (v : B32.t) :
  B32.valid v = true ->
  let I := Clamp v (of_int 0) (of_int 1) in
  in_unit_range I /\ B32.valid I = true.
Proof.
  intros Hv. cbv zeta. unfold Clamp.
  change (@fltb B32.t binary32) with SFltb.
  match goal with
  | |- context [if ?c then _ else _] =>
      destruct c eqn:H0; [repeat split; reflexivity|]
  end.
  match goal with
  | |- context [if ?c then _ else _] =>
      destruct c eqn:H1; [|repeat split; reflexivity]
  end.
  split; [|exact Hv]. split; [|now apply SFltb_SFleb].
  destruct v as [[]|[]| |[] m e]; try reflexivity; discriminate.
Qed.

(** [1.0f - I] lies in [[0, 1]] when [I] does. *)
Lemma one_minus_unit (I : B32.t) :
  B32.valid I = true -> in_unit_range I ->
  in_unit_range (fsub (of_int 1) I).
Proof.
  intros Hv [Hlo Hhi].
  destruct I as [sI|sI| |sI m e]; try (destruct sI; discriminate);
    try discriminate.
  { repeat split; reflexivity. }
  destruct sI; [discriminate|].
  assert (is_pos_float (S754_finite false m e) (Zpos m * 2 ^ (e + 149)))
    as HI by (exists m, e; auto).
  unfold SFleb in Hhi. rewrite (compare_pos _ _ _ _ HI one_exact) in Hhi.
  assert (Zpos m * 2 ^ (e + 149) <= 2 ^ 149) as HV
    by (destruct (Z.compare_spec (Zpos m * 2 ^ (e + 149)) (2 ^ 149));
        [lia|lia|discriminate]).
  apply valid_finite in Hv as [Hc He]. rewrite b32_fexp in Hc.
  change (fsub (of_int 1) (S754_finite false m e))
    with (SFsub B32.prec B32.emax (S754_finite false 8388608 (-23))
            (S754_finite false m e)).
  unfold SFsub. cbv zeta.
  pose proof (shl_align_spec 8388608 (-23) (Z.min (-23) e)) as Hsx.
  pose proof (shl_align_spec m e (Z.min (-23) e)) as Hsy.
  destruct (shl_align 8388608 (-23) _) as [mx' ex'].
  destruct (shl_align m e _) as [my' ey'].
  destruct Hsx as [Hex Hmx], Hsy as [Hey Hmy]. simpl fst. simpl cond_Zopp.
  set (ez := Z.min (-23) e) in *.
  assert (-149 <= ez <= -23) as Hez by lia.
  assert (0 < 2 ^ (ez + 149)) as Hpow by (apply Z.pow_pos_nonneg; lia).
  assert ((Zpos mx' - Zpos my') * 2 ^ (ez + 149)
          = 2 ^ 149 - Zpos m * 2 ^ (e + 149)) as HM.
  { rewrite Z.mul_sub_distr_r, Hmx, Hmy.
    replace ex' with ez by lia. replace ey' with ez by lia.
    rewrite <- !Z.mul_assoc, <- !Z.pow_add_r by lia.
    replace (-23 - ez + (ez + 149)) with 126 by lia.
    replace (e - ez + (ez + 149)) with (e + 149) by lia.
    reflexivity. }
  assert (0 < Zpos m * 2 ^ (e + 149)) as HVpos
    by (apply Z.mul_pos_pos; [lia|apply Z.pow_pos_nonneg; lia]).
  destruct (Zpos mx' - Zpos my') as [|p|p] eqn:HMp; simpl binary_normalize.
  - repeat split; reflexivity.
  - assert (Zpos p < 2 ^ (- ez)) as Hp.
    { apply (Z.mul_lt_mono_pos_r (2 ^ (ez + 149))); [exact Hpow|].
      rewrite <- Z.pow_add_r by lia. replace (- ez + (ez + 149)) with 149 by lia.
      lia. }
    apply digits_le_of_lt in Hp.
    destruct (binary_round_spec false p ez)
      as [->|[[_ Hinf]|(m2 & e2 & Hr & Hval & _)]];
      [repeat split; reflexivity|lia|].
    pose proof (binary_round_le false p ez false m2 e2 ltac:(lia) Hr) as Hle.
    rewrite Hr in *. split; [reflexivity|].
    assert (is_pos_float (S754_finite false m2 e2) (Zpos m2 * 2 ^ (e2 + 149)))
      as Hrf by (exists m2, e2; auto).
    unfold SFleb. rewrite (compare_pos _ _ _ _ Hrf one_exact).
    assert (2 ^ (Zpos (digits2_pos p) + ez + 149) <= 2 ^ 149)
      by (apply Z.pow_le_mono_r; lia).
    destruct (Z.compare_spec (Zpos m2 * 2 ^ (e2 + 149)) (2 ^ 149));
      reflexivity || lia.
  - exfalso. nia.
Qed.

(** X17: every colour [UpdateRenderTarget] computes has its red and blue
    channels in [[0, 1]], green [0.0f] and alpha [1.0f], whatever the
    density is: infinities and NaN included. *)
Theorem cell_color_in_range (Value : B32.t) :
  B32.valid Value = true ->
  let c := cell_color Value in
  in_unit_range (FLinearColor.R c) /\ in_unit_range (FLinearColor.B c) /\
  FLinearColor.G c = of_int 0 /\ FLinearColor.A c = of_int 1.
Proof.
  intros Hv. cbv zeta. unfold cell_color. cbv zeta. simpl.
  destruct (Clamp_unit Value Hv) as [Hr Hval].
  split; [exact Hr|]. split; [|now split].
  now apply one_minus_unit.
Qed.

(** ** The statements above at sample inputs *)

Lemma SetBoundary_edges_witness :
  3 <= 4 /\ length sample4 = Z.to_nat (4 * 4) /\
  exists x', SetBoundary 4 1 sample4 = Some x' /\
    (forall i, 1 <= i <= 4 - 2 ->
       (if 1 =? 2 then is_neg_of else is_copy_of) x' (IX 4 i 0) (IX 4 i 1) /\
       (if 1 =? 2 then is_neg_of else is_copy_of) x'
         (IX 4 i (4 - 1)) (IX 4 i (4 - 2))) /\
    (forall j, 1 <= j <= 4 - 2 ->
       (if 1 =? 1 then is_neg_of else is_copy_of) x' (IX 4 0 j) (IX 4 1 j) /\
       (if 1 =? 1 then is_neg_of x' (IX 4 (4 - 1) j) (IX 4 1 j)
        else is_copy_of x' (IX 4 (4 - 1) j) (IX 4 (4 - 2) j))).
Proof.
  split; [lia|]. split; [reflexivity|].
  apply (SetBoundary_edges 4 1 sample4); [lia|reflexivity].
Defined.

Lemma SetBoundary_keeps_interior_witness :
  3 <= 4 /\ length sample4 = Z.to_nat (4 * 4) /\
  exists x', SetBoundary 4 1 sample4 = Some x' /\
             length x' = length sample4 /\
             forall i j, 1 <= i <= 4 - 2 -> 1 <= j <= 4 - 2 ->
                         rd x' (IX 4 i j) = rd sample4 (IX 4 i j).
Proof.
  split; [lia|]. split; [reflexivity|].
  apply (SetBoundary_keeps_interior 4); [lia|reflexivity].
Defined.

Lemma SetBoundary_reads_interior_witness :
  3 <= 4 /\ length sample4 = Z.to_nat (4 * 4) /\
  length ring4 = Z.to_nat (4 * 4) /\
  (forall i j, 1 <= i <= 4 - 2 -> 1 <= j <= 4 - 2 ->
               rd sample4 (IX 4 i j) = rd ring4 (IX 4 i j)) /\
  exists x', SetBoundary 4 2 sample4 = Some x' /\
             SetBoundary 4 2 ring4 = Some x'.
Proof.
  assert (forall i j, 1 <= i <= 4 - 2 -> 1 <= j <= 4 - 2 ->
                      rd sample4 (IX 4 i j) = rd ring4 (IX 4 i j)) as Hint.
  { intros i j Hi Hj.
    assert (i = 1 \/ i = 2) as [-> | ->] by lia;
      assert (j = 1 \/ j = 2) as [-> | ->] by lia; reflexivity. }
  split; [lia|]. split; [reflexivity|]. split; [reflexivity|].
  split; [exact Hint|].
  apply (SetBoundary_reads_interior 4); [lia|reflexivity|reflexivity|exact Hint].
Defined.

Lemma SetBoundary_side_witness :
  0 <= 1 /\ length one_cell = Z.to_nat (1 * 1) /\
  (is_Some (SetBoundary 1 0 one_cell) <-> 2 <= 1).
Proof.
  split; [lia|]. split; [reflexivity|].
  apply (SetBoundary_side 1 0 one_cell); [lia|reflexivity].
Defined.

Lemma LinearSolve_in_bounds_witness :
  3 <= 4 /\ length ring4 = Z.to_nat (4 * 4) /\
  length sample4 = Z.to_nat (4 * 4) /\
  exists x', LinearSolve 4 0 ring4 sample4 (of_int 1) (of_int 0) = Some x' /\
             length x' = Z.to_nat (4 * 4) /\
             SetBoundary 4 0 x' = Some x'.
Proof.
  split; [lia|]. split; [reflexivity|]. split; [reflexivity|].
  apply (LinearSolve_in_bounds 4); [lia|reflexivity|reflexivity].
Defined.

Lemma Project_in_bounds_witness :
  3 <= 4 /\ length sample4 = Z.to_nat (4 * 4) /\
  length ring4 = Z.to_nat (4 * 4) /\
  length (zeroed (F:=B32.t) 4) = Z.to_nat (4 * 4) /\
  exists vx vy p' div',
    Project 4 sample4 ring4 (zeroed 4) (zeroed 4) = Some (vx, vy, p', div') /\
    (length vx = Z.to_nat (4 * 4) /\ length vy = Z.to_nat (4 * 4) /\
     length p' = Z.to_nat (4 * 4) /\ length div' = Z.to_nat (4 * 4)) /\
    SetBoundary 4 1 vx = Some vx /\ SetBoundary 4 2 vy = Some vy /\
    SetBoundary 4 0 p' = Some p' /\ SetBoundary 4 0 div' = Some div'.
Proof.
  split; [lia|]. split; [reflexivity|]. split; [reflexivity|].
  split; [reflexivity|].
  apply (Project_in_bounds 4); [lia|reflexivity..].
Defined.

Lemma Project_overwrites_witness :
  3 <= 4 /\ length sample4 = Z.to_nat (4 * 4) /\
  length ring4 = Z.to_nat (4 * 4) /\
  length (zeroed (F:=B32.t) 4) = Z.to_nat (4 * 4) /\
  Project 4 sample4 ring4 sample4 ring4
  = Project 4 sample4 ring4 (zeroed 4) (zeroed 4).
Proof.
  split; [lia|]. split; [reflexivity|]. split; [reflexivity|].
  split; [reflexivity|].
  apply (Project_overwrites 4); [lia|reflexivity..].
Defined.

Lemma Advect_overwrites_witness :
  3 <= 4 /\ length sample4 = Z.to_nat (4 * 4) /\
  length (zeroed (F:=B32.t) 4) = Z.to_nat (4 * 4) /\
  Advect 4 0 sample4 ring4 sample4 ring4 (flit 101 10)
  = Advect 4 0 (zeroed 4) ring4 sample4 ring4 (flit 101 10).
Proof.
  split; [lia|]. split; [reflexivity|]. split; [reflexivity|].
  apply (Advect_overwrites 4); [lia|reflexivity..].
Defined.

Lemma Advect_result_witness :
  3 <= 4 /\ length (zeroed (F:=B32.t) 4) = Z.to_nat (4 * 4) /\
  exists d', Advect 4 2 (zeroed 4) ring4 wild4 sample4 (flit 101 10) = Some d' /\
             length d' = Z.to_nat (4 * 4) /\ SetBoundary 4 2 d' = Some d'.
Proof.
  split; [lia|]. split; [reflexivity|].
  destruct (Advect 4 2 (zeroed 4) ring4 wild4 sample4 (flit 101 10))
    as [d'|] eqn:Hadv; [|vm_compute in Hadv; discriminate Hadv].
  exists d'. split; [reflexivity|].
  apply (Advect_result 4) with (3 := Hadv); [lia|reflexivity].
Defined.

Lemma AddDensity_spec_witness :
  0 <= 1 < Size grid4 /\ 0 <= 2 < Size grid4 /\
  Size grid4 * Size grid4 < 2 ^ 31 /\
  (is_Some (AddDensity grid4 1 2 (of_int 100))
   <-> IX (Size grid4) 1 2 < Z.of_nat (length (Density grid4))) /\
  forall s', AddDensity grid4 1 2 (of_int 100) = Some s' ->
    exists v, rd (Density grid4) (IX (Size grid4) 1 2) = Some v /\
              rd (Density s') (IX (Size grid4) 1 2)
              = Some (fadd v (of_int 100)) /\
              (forall k', k' <> IX (Size grid4) 1 2 ->
                          rd (Density s') k' = rd (Density grid4) k') /\
              length (Density s') = length (Density grid4) /\
              s' = set_Density grid4 (Density s').
Proof.
  split; [simpl; lia|]. split; [simpl; lia|]. split; [simpl; lia|].
  apply (AddDensity_spec grid4 1 2 (of_int 100)); simpl; lia.
Defined.

Lemma HandleInput_click_witness :
  1 <= Size grid4 /\
  length (Density grid4) = Z.to_nat (Size grid4 * Size grid4) /\
  exists s' gx gy v,
    HandleInput (Some (-5, 99)) grid4 = Some s' /\
    0 <= gx < Size grid4 /\ 0 <= gy < Size grid4 /\
    (0 <= -5 < Size grid4 -> gx = -5) /\ (0 <= 99 < Size grid4 -> gy = 99) /\
    rd (Density grid4) (IX (Size grid4) gx gy) = Some v /\
    rd (Density s') (IX (Size grid4) gx gy) = Some (fadd v (of_int 100)) /\
    (forall k, k <> IX (Size grid4) gx gy ->
               rd (Density s') k = rd (Density grid4) k) /\
    s' = set_Density grid4 (Density s').
Proof.
  split; [simpl; lia|]. split; [reflexivity|].
  apply (HandleInput_click grid4 (-5) 99); [simpl; lia|reflexivity].
Defined.

Lemma UpdateRenderTarget_colors_witness :
  0 <= Size wild_grid4 /\
  length (Density wild_grid4)
  = Z.to_nat (Size wild_grid4 * Size wild_grid4) /\
  UpdateRenderTarget true wild_grid4
  = Some (Uploaded ((fun Value => Some (cell_color Value))
                    <$> Density wild_grid4)).
Proof.
  split; [simpl; lia|]. split; [reflexivity|].
  apply (UpdateRenderTarget_colors true wild_grid4); [simpl; lia|reflexivity].
Defined.

Lemma steps_ignore_Diffusion_witness :
  3 <= Size stirred4 /\
  length (Density stirred4) = Z.to_nat (Size stirred4 * Size stirred4) /\
  steps 2 (set_Diffusion stirred4 (of_int 7))
  = (fun r => set_Diffusion r (of_int 7)) <$> steps 2 stirred4.
Proof.
  split; [simpl; lia|]. split; [reflexivity|].
  apply (steps_ignore_Diffusion 2 stirred4 (of_int 7));
    [simpl; lia|reflexivity].
Defined.

Lemma steps_in_bounds_witness :
  3 <= 4 /\ 4 * 4 < 2 ^ 31 /\ binary32_actor 4 wild_grid4 /\
  exists s', steps 3 wild_grid4 = Some s' /\ binary32_actor 4 s'.
Proof.
  assert (binary32_actor 4 wild_grid4) as Hactor.
  { repeat split; repeat constructor. }
  split; [lia|]. split; [lia|]. split; [exact Hactor|].
  apply (steps_in_bounds 4); [lia|lia|exact Hactor].
Defined.

Lemma ticks_in_bounds_witness :
  3 <= 4 /\ 4 * 4 < 2 ^ 31 /\ binary32_actor 4 wild_grid4 /\
  exists s', ticks true clicks3 wild_grid4 = Some s' /\ binary32_actor 4 s'.
Proof.
  assert (binary32_actor 4 wild_grid4) as Hactor.
  { repeat split; repeat constructor. }
  split; [lia|]. split; [lia|]. split; [exact Hactor|].
  apply (ticks_in_bounds 4); [lia|lia|exact Hactor].
Defined.

Lemma cell_color_in_range_witness :
  B32.valid S754_nan = true /\
  in_unit_range (FLinearColor.R (cell_color (F:=B32.t) S754_nan)) /\
  in_unit_range (FLinearColor.B (cell_color (F:=B32.t) S754_nan)) /\
  FLinearColor.G (cell_color (F:=B32.t) S754_nan) = of_int 0 /\
  FLinearColor.A (cell_color (F:=B32.t) S754_nan) = of_int 1.
Proof.
  split; [reflexivity|].
  apply (cell_color_in_range S754_nan). reflexivity.
Defined.
